(** * Mood-Melodies: playlist search, de-duplication, scoring and selection

    A shallow embedding of the services under [src/services] and of the two
    service classes among the unnamed parts, followed by the properties
    stated about them.

    Modelling conventions.
    - JavaScript strings are [string]s; [toLowerCase] folds the ASCII letters
      [A-Z] and leaves every other character alone.
    - JavaScript numbers that count things (tracks, followers, [count]) are
      [Z]; scores are real numbers ([R]) and the arithmetic on them is exact:
      the rounding of IEEE doubles is not part of the model.
    - An object literal used as a table is a [gmap] from its own keys. A
      lookup [table[key]] goes through [getProperty], which finds the own
      keys and, as the prototype chain does, the names that every object
      inherits from [Object.prototype].
    - [null] / [undefined] are [None].
    - [async] code runs in the monad [Async]: it threads the list of search
      requests issued so far and either returns a value or throws.
      Calls to [console] leave no trace in the model. *)

From Stdlib Require Import String Ascii ZArith QArith Qround Reals Lra Lia Sorted.
From stdpp Require Import base option list gmap sets strings.

Open Scope string_scope.
Open Scope list_scope.

(** ** Strings *)

Definition lowerChar (c : ascii) : ascii :=
  let n := N_of_ascii c in
  if ((65 <=? n) && (n <=? 90))%N then ascii_of_N (n + 32) else c.

Fixpoint toLowerCase (s : string) : string :=
  match s with
  | EmptyString => EmptyString
  | String c s' => String (lowerChar c) (toLowerCase s')
  end.

(** [includes s sub] is [s.includes(sub)]: does [sub] occur in [s]? *)
Fixpoint includes (s sub : string) : bool :=
  String.prefix sub s ||
  match s with
  | EmptyString => false
  | String _ s' => includes s' sub
  end.

(** Truthiness of a possibly missing string: [null], [undefined] and the
    empty string are falsy. *)
Definition truthy (o : option string) : bool :=
  match o with
  | Some (String _ _) => true
  | _ => false
  end.

(** ** Object literals used as tables *)

(** The names that an object literal inherits from [Object.prototype]: those
    of the language standard and of its Annex B. *)
Definition Object_prototype : list string :=
  ["constructor"; "hasOwnProperty"; "isPrototypeOf"; "propertyIsEnumerable";
   "toLocaleString"; "toString"; "valueOf"; "__proto__";
   "__defineGetter__"; "__defineSetter__"; "__lookupGetter__";
   "__lookupSetter__"].

(** A value that is either of the type [A] that the code expects, or the
    function (for [__proto__], the object) that [Object.prototype] holds
    under the name [key]. An inherited value is truthy; it is neither an
    array nor a string and has none of the array methods, so that calling
    [slice], [forEach], [some] or [join] on it, or iterating over it, throws
    a [TypeError]. *)
Inductive Value (A : Type) :=
| Just (a : A)
| Inherited (key : string).
Arguments Just {A} a.
Arguments Inherited {A} key.

(** [table[key]] for an object literal [table]; [Just None] is
    [undefined]. *)
Definition getProperty {A} (table : gmap string A) (key : string)
    : Value (option A) :=
  match table !! key with
  | Some a => Just (Some a)
  | None =>
      if bool_decide (key ∈ Object_prototype) then Inherited key
      else Just None
  end.

(** [v || fallback]. The tables of this program hold arrays and non-empty
    strings, which are truthy. *)
Definition orElse {A} (v : Value (option A)) (fallback : A) : Value A :=
  match v with
  | Just (Some a) => Just a
  | Just None => Just fallback
  | Inherited key => Inherited key
  end.

(** The text that a template literal or [encodeURIComponent] makes of [v].
    The text of an inherited function is the engine's rendering of native
    code, so it is a parameter, [inheritedText]. *)
Definition textOf (inheritedText : string -> string) (v : Value string)
    : string :=
  match v with
  | Just s => s
  | Inherited key => inheritedText key
  end.

(** ** Data model *)

Record Image := { url : string; height : Z; width : Z }.

(** [SpotifyPlaylist] of both services. [tracks_total] is [tracks.total];
    [followers] is [followers?.total], absent from search results and from
    the interface of the static variant. *)
Record SpotifyPlaylist := {
  id : string;
  name : option string;
  description : option string;
  external_urls : string;
  images : option (list Image);
  tracks_total : Z;
  followers : option Z;
}.

(** ** Exceptions and the [Async] monad *)

Inductive Exn :=
| Error (message : string)
| TypeError (message : string).

Definition message (e : Exn) : string :=
  match e with Error m | TypeError m => m end.

Inductive Result (A : Type) :=
| Ok (a : A)
| Throw (e : Exn).
Arguments Ok {A} a.
Arguments Throw {A} e.

(** [l.map(f)] for a callback that may throw: the first exception ends the
    traversal. *)
Fixpoint mapResult {A B} (f : A -> Result B) (l : list A) : Result (list B) :=
  match l with
  | [] => Ok []
  | x :: l' =>
      match f x with
      | Ok y =>
          match mapResult f l' with
          | Ok ys => Ok (y :: ys)
          | Throw e => Throw e
          end
      | Throw e => Throw e
      end
  end.

(** Reading a property of every entry of [items] in turn, as the callback of
    a [filter] does: a [TypeError] at the first entry that is [null]. *)
Definition nonNull {A} (items : list (option A)) : Result (list A) :=
  mapResult
    (fun item =>
       match item with
       | Some a => Ok a
       | None => Throw (TypeError "Cannot read properties of null")
       end) items.

(** One call of [fetch] on the search endpoint: the search text [q] (before
    URL encoding) and the bearer token of the [Authorization] header. *)
Record Request := { q : string; bearer : string }.

(** What [fetch] resolves to. [body] is the parsed JSON: [Some items] when
    it has an array [playlists.items], whose entries are playlist objects
    or [null]; [None] when the text does not parse or the parsed value has
    no [playlists.items]. *)
Record Response := {
  status : Z;
  statusText : string;
  body : option (list (option SpotifyPlaylist));
}.

Definition ok (r : Response) : bool :=
  ((200 <=? status r) && (status r <=? 299))%Z.

(** The outside world, as a function of the requests issued so far:
    [authToken] is what [SpotifyAuthService.getAccessToken()] resolves to,
    [network] what [fetch] does ([None]: the promise rejects). *)
Record Env := {
  authToken : list Request -> option string;
  network : list Request -> Request -> option Response;
}.

Definition Async (A : Type) : Type := list Request -> Result A * list Request.

Definition ret {A} (a : A) : Async A := fun log => (Ok a, log).

Definition throw {A} (e : Exn) : Async A := fun log => (Throw e, log).

Definition bind {A B} (m : Async A) (k : A -> Async B) : Async B :=
  fun log =>
    match m log with
    | (Ok a, log') => k a log'
    | (Throw e, log') => (Throw e, log')
    end.

Definition try_catch {A} (m : Async A) (handler : Exn -> Async A) : Async A :=
  fun log =>
    match m log with
    | (Ok a, log') => (Ok a, log')
    | (Throw e, log') => handler e log'
    end.

Definition lift {A} (r : Result A) : Async A := fun log => (r, log).

Declare Scope async_scope.
Delimit Scope async_scope with async.
Notation "x <- m ;; k" := (bind m (fun x => k))
  (at level 100, m at next level, right associativity) : async_scope.
Notation "'try' m 'catch' e => h" := (try_catch m (fun e => h))
  (at level 100, m at next level, e name, h at level 100) : async_scope.

Definition getAccessToken (env : Env) : Async (option string) :=
  fun log => (Ok (authToken env log), log).

Definition fetch (env : Env) (req : Request) : Async Response :=
  fun log =>
    match network env log req with
    | Some r => (Ok r, log ++ [req])
    | None => (Throw (TypeError "Network request failed"), log ++ [req])
    end.

(** [await response.json()] followed by [data.playlists.items]. *)
Definition json_items (r : Response) : Async (list (option SpotifyPlaylist)) :=
  match body r with
  | Some items => ret items
  | None => throw (TypeError "Cannot read properties of undefined")
  end.

(** ** [Array.prototype.sort] and [slice] *)

(** [sort] is stable and the comparator [cmp a b] is a number whose sign
    decides the order: a positive [cmp a b] puts [b] first. *)
Fixpoint insert_sorted {A} (cmp : A -> A -> R) (x : A) (l : list A) : list A :=
  match l with
  | [] => [x]
  | y :: l' =>
      if Rle_dec (cmp x y) 0 then x :: y :: l' else y :: insert_sorted cmp x l'
  end.

Definition sort {A} (cmp : A -> A -> R) (l : list A) : list A :=
  foldr (insert_sorted cmp) [] l.

(** [l.slice(0, e)]: a negative [e] counts from the end. *)
Definition slice0 {A} (e : Z) (l : list A) : list A :=
  let len := Z.of_nat (length l) in
  let k := if (e <? 0)%Z then Z.max (len + e) 0 else Z.min e len in
  take (Z.to_nat k) l.

Definition log10 (x : R) : R := (ln x / ln 10)%R.

Record Scored := { playlist : SpotifyPlaylist; score : R }.

(** The comparator [(a, b) => b.score - a.score] of both services. *)
Definition byScoreDesc (a b : Scored) : R := (score b - score a)%R.

(** ** SpotifyService *)

Module SpotifyService.

Definition MOOD_TO_SEARCH_TERMS : gmap string (list string) :=
  list_to_map [
    ("Happy", ["happy"; "upbeat"; "cheerful"; "feel good"; "positive vibes"]);
    ("Sad", ["sad"; "melancholy"; "heartbreak"; "emotional"; "crying"]);
    ("Calm", ["calm"; "relaxing"; "peaceful"; "chill"; "ambient"]);
    ("Energetic", ["energetic"; "workout"; "pump up"; "high energy"; "motivation"]);
    ("Excited", ["party"; "dance"; "celebration"; "hype"; "uplifting"]);
    ("Peaceful", ["peaceful"; "meditation"; "zen"; "tranquil"; "serene"])
  ].

(** [this.MOOD_TO_SEARCH_TERMS[mood] || [mood.toLowerCase()]], the expression
    that [searchPlaylistsByMood] (line 323) and [calculateNameRelevance]
    (line 475) both start from. *)
Definition searchTermsFor (mood : string) : Value (list string) :=
  orElse (getProperty MOOD_TO_SEARCH_TERMS mood) [toLowerCase mood].

(** The callback of [removeDuplicatePlaylists] (lines 366-377) with its
    [seen] set threaded through the traversal. *)
Fixpoint removeDuplicates_from (seen : gset string)
    (playlists : list SpotifyPlaylist) : list SpotifyPlaylist :=
  match playlists with
  | [] => []
  | playlist :: rest =>
      if bool_decide (id playlist ∈ seen)
      then removeDuplicates_from seen rest
      else playlist :: removeDuplicates_from ({[id playlist]} ∪ seen) rest
  end.

Definition removeDuplicatePlaylists (playlists : list SpotifyPlaylist)
    : list SpotifyPlaylist :=
  removeDuplicates_from ∅ playlists.

(** The predicate of [filterPlaylistsByQuality] (lines 384-394). *)
Definition quality (playlist : SpotifyPlaylist) : bool :=
  (15 <=? tracks_total playlist)%Z &&
  (tracks_total playlist <=? 200)%Z &&
  truthy (name playlist) &&
  negb (includes (toLowerCase (default "" (name playlist))) "test").

Definition filterPlaylistsByQuality (playlists : list SpotifyPlaylist)
    : list SpotifyPlaylist :=
  List.filter quality playlists.

(** One turn of the [forEach] of [calculateNameRelevance] (lines 471-494),
    on the pair [(relevanceScore, matchCount)]. *)
Definition relevanceStep (lowerText : string) (acc : R * Z) (term : string)
    : R * Z :=
  let '(relevanceScore, matchCount) := acc in
  if includes lowerText (toLowerCase term) then
    if String.eqb lowerText (toLowerCase term)
    then ((relevanceScore + 1)%R, (matchCount + 1)%Z)
    else ((relevanceScore + 0.5)%R, (matchCount + 1)%Z)
  else acc.

(** Lines 471-494. With search terms that are no array, [forEach] is not a
    function. *)
Definition calculateNameRelevance (text : option string) (mood : string)
    : Result R :=
  if negb (truthy text) then Ok 0%R
  else
    let lowerText := toLowerCase (default "" text) in
    match searchTermsFor mood with
    | Inherited _ =>
        Throw (TypeError "searchTerms.forEach is not a function")
    | Just searchTerms =>
        let '(relevanceScore, _) :=
          fold_left (relevanceStep lowerText) searchTerms (0%R, 0%Z) in
        Ok (Rmin (relevanceScore / INR (length searchTerms)) 1)
    end.

(** [playlist.followers?.total || 1] *)
Definition followersOr1 (playlist : SpotifyPlaylist) : Z :=
  match followers playlist with
  | None => 1
  | Some n => if (n =? 0)%Z then 1 else n
  end.

(** Lines 427-463. *)
Definition calculatePlaylistScore (playlist : SpotifyPlaylist) (mood : string)
    : Result R :=
  let score := 0%R in
  let score := (score + log10 (IZR (Z.max (followersOr1 playlist) 1)) * 10)%R in
  let trackCount := tracks_total playlist in
  let score :=
    if ((30 <=? trackCount) && (trackCount <=? 100))%Z then (score + 20)%R
    else if ((15 <=? trackCount) && (trackCount <=? 150))%Z then (score + 10)%R
    else score in
  match calculateNameRelevance (name playlist) mood with
  | Throw e => Throw e
  | Ok nameRelevance =>
      let score := (score + nameRelevance * 30)%R in
      match (if truthy (description playlist)
             then match calculateNameRelevance (description playlist) mood with
                  | Ok descRelevance => Ok (score + descRelevance * 15)%R
                  | Throw e => Throw e
                  end
             else Ok score) with
      | Throw e => Throw e
      | Ok score =>
          let score :=
            match images playlist with
            | Some (_ :: _) => (score + 5)%R
            | _ => score
            end in
          Ok score
      end
  end.

(** The [map] that [selectBestPlaylist] and [getMultiplePlaylistsForMood]
    both sort. *)
Definition scorePlaylists (playlists : list SpotifyPlaylist) (mood : string)
    : Result (list Scored) :=
  mapResult
    (fun playlist =>
       match calculatePlaylistScore playlist mood with
       | Ok score => Ok {| playlist := playlist; score := score |}
       | Throw e => Throw e
       end) playlists.

(** Lines 402-419. *)
Definition selectBestPlaylist (playlists : list SpotifyPlaylist) (mood : string)
    : Result SpotifyPlaylist :=
  if (length playlists =? 0)%nat
  then Throw (Error "No playlists available for selection")
  else
    match scorePlaylists playlists mood with
    | Throw e => Throw e
    | Ok scoredPlaylists =>
        match sort byScoreDesc scoredPlaylists with
        | best :: _ => Ok (playlist best)
        | [] => Throw (TypeError "Cannot read properties of undefined")
        end
    end.

(** The [for ... of] loop of [searchPlaylistsByMood] (lines 329-350), with
    [allPlaylists] as accumulator. *)
Fixpoint searchTerms_loop (env : Env) (accessToken : string)
    (terms : list string) (allPlaylists : list (option SpotifyPlaylist))
    : Async (list (option SpotifyPlaylist)) :=
  match terms with
  | [] => ret allPlaylists
  | term :: rest =>
      (response <- fetch env {| q := term; bearer := accessToken |};;
       if negb (ok response)
       then searchTerms_loop env accessToken rest allPlaylists
       else
         items <- json_items response;;
         searchTerms_loop env accessToken rest (allPlaylists ++ items))%async
  end.

(** Lines 318-359. Search terms that are no array have no [slice]; the
    callback of [removeDuplicatePlaylists] reads the [id] of every entry it
    is given. Both failures happen inside the [try] block. *)
Definition searchPlaylistsByMood (env : Env) (mood accessToken : string)
    : Async (list SpotifyPlaylist) :=
  (try
     (match searchTermsFor mood with
      | Inherited _ => throw (TypeError "searchTerms.slice is not a function")
      | Just searchTerms =>
          allPlaylists <-
            searchTerms_loop env accessToken (take 3 searchTerms) [];;
          playlists <- lift (nonNull allPlaylists);;
          let uniquePlaylists := removeDuplicatePlaylists playlists in
          ret (filterPlaylistsByQuality uniquePlaylists)
      end)
   catch error => ret [])%async.

(** The [try] block of [getPlaylistForMood] (lines 271-297). *)
Definition getPlaylistForMood_try (env : Env) (mood : string) : Async string :=
  (accessToken <- getAccessToken env;;
   if negb (truthy accessToken)
   then throw (Error "Authentication required")
   else
     playlists <- searchPlaylistsByMood env mood (default "" accessToken);;
     if (length playlists =? 0)%nat
     then throw (Error "No playlists found for this mood")
     else
       bestPlaylist <- lift (selectBestPlaylist playlists mood);;
       ret (id bestPlaylist))%async.

(** [getPlaylistForMood] (lines 270-310): the [try] block under its
    [catch]. *)
Definition getPlaylistForMood (env : Env) (mood : string) : Async string :=
  (try getPlaylistForMood_try env mood
   catch error =>
     if String.eqb (message error) "Authentication required"
     then throw (Error "Please authenticate with Spotify to get personalized playlists")
     else throw (Error "Failed to get playlist for mood"))%async.

(** Lines 502-537. [count] is [None] when the caller leaves the argument
    out. *)
Definition getMultiplePlaylistsForMood (env : Env) (mood : string)
    (count : option Z) : Async (list string) :=
  let count := default 3%Z count in
  (try
     (accessToken <- getAccessToken env;;
      if negb (truthy accessToken)
      then throw (Error "Authentication required")
      else
        playlists <- searchPlaylistsByMood env mood (default "" accessToken);;
        if (length playlists =? 0)%nat
        then
          singlePlaylist <- getPlaylistForMood env mood;;
          ret [singlePlaylist]
        else
          scoredPlaylists <- lift (scorePlaylists playlists mood);;
          let scoredPlaylists := sort byScoreDesc scoredPlaylists in
          let topPlaylists :=
            map (fun item => id (playlist item))
                (slice0 (Z.min count (Z.of_nat (length scoredPlaylists)))
                        scoredPlaylists) in
          ret topPlaylists)
   catch error => throw error)%async.

End SpotifyService.

(** ** SpotifyServiceStatic *)

Module SpotifyServiceStatic.

Definition PLACEHOLDER_TOKEN : string := "YOUR_ACCESS_TOKEN_FROM_POSTMAN_HERE".

(** The double quote character, as a string. *)
Definition DQUOTE : string := String (ascii_of_N 34) EmptyString.

Definition moodMap : gmap string (list string) :=
  list_to_map [
    ("happy", ["happy"; "upbeat"; "cheerful"; "joyful"; "positive"]);
    ("sad", ["sad"; "melancholy"; "emotional"; "slow"; "heartbreak"]);
    ("energetic", ["energetic"; "pump up"; "workout"; "high energy"; "motivation"]);
    ("calm", ["calm"; "relaxing"; "chill"; "peaceful"; "ambient"]);
    ("angry", ["angry"; "aggressive"; "metal"; "punk"; "rage"]);
    ("romantic", ["romantic"; "love"; "slow dance"; "valentine"; "intimate"]);
    ("nostalgic", ["nostalgic"; "throwback"; "classic"; "memories"; "vintage"]);
    ("excited", ["excited"; "party"; "celebration"; "fun"; "uplifting"])
  ].

(** Lines 145-165. *)
Definition getMoodKeywords (mood : string) : Value (list string) :=
  let lowerMood := toLowerCase mood in
  orElse (getProperty moodMap lowerMood) ["music"; "playlist"; "good vibes"].

(** [playlist.name.toLowerCase()]: a [TypeError] when there is no name. *)
Definition lowerName (playlist : SpotifyPlaylist) : Result string :=
  match name playlist with
  | Some n => Ok (toLowerCase n)
  | None => Throw (TypeError "Cannot read properties of undefined")
  end.

(** The [filter] of [searchPlaylistsByMood]; the callback reads
    [tracks.total] of every entry, and the name only of a playlist with more
    than ten tracks. *)
Fixpoint filterByKeyword (keyword : string)
    (items : list (option SpotifyPlaylist)) : Result (list SpotifyPlaylist) :=
  match items with
  | [] => Ok []
  | None :: _ => Throw (TypeError "Cannot read properties of null")
  | Some playlist :: rest =>
      let continue (keep : bool) :=
        match filterByKeyword keyword rest with
        | Ok kept => Ok (if keep then playlist :: kept else kept)
        | Throw e => Throw e
        end in
      if (10 <? tracks_total playlist)%Z then
        match lowerName playlist with
        | Ok lname => continue (includes lname (toLowerCase keyword))
        | Throw e => Throw e
        end
      else continue false
  end.

(** One turn of the [for ... of] loop of [searchPlaylistsByMood] (lines
    91-140): the [try] block, which yields the playlists to push. The
    message of the search failure leaves the status number out. *)
Definition searchKeyword_try (env : Env) (ACCESS_TOKEN keyword : string)
    : Async (list SpotifyPlaylist) :=
  (let query := String.append DQUOTE (String.append keyword (String.append DQUOTE " mood playlist")) in
   response <- fetch env {| q := query; bearer := ACCESS_TOKEN |};;
   if negb (ok response) then
     if (status response =? 401)%Z
     then throw (Error "Access token expired or invalid. Get a new token from Postman!")
     else throw (Error (String.append "Search failed: " (statusText response)))
   else
     items <- json_items response;;
     lift (filterByKeyword keyword items))%async.

Fixpoint searchKeywords_loop (env : Env) (ACCESS_TOKEN : string)
    (keywords : list string) (allPlaylists : list SpotifyPlaylist)
    : Async (list SpotifyPlaylist) :=
  match keywords with
  | [] => ret allPlaylists
  | keyword :: rest =>
      (pushed <- (try searchKeyword_try env ACCESS_TOKEN keyword
                  catch error => ret []);;
       searchKeywords_loop env ACCESS_TOKEN rest (allPlaylists ++ pushed))%async
  end.

(** Lines 91-140. [keywords] is what the caller got from [getMoodKeywords];
    the [for ... of] loop, which is not inside a [try], cannot iterate over
    a value that is no array. *)
Definition searchPlaylistsByMood (env : Env) (ACCESS_TOKEN : string)
    (keywords : Value (list string)) : Async (list SpotifyPlaylist) :=
  match keywords with
  | Inherited _ => throw (TypeError "keywords is not iterable")
  | Just keywords => searchKeywords_loop env ACCESS_TOKEN keywords []
  end.

(** The callback of the [map] of [selectBestPlaylist] (lines 170-200).
    Keywords that are no array have no [some]; [some] calls its callback,
    which reads the name, only when there is a keyword. *)
Definition scorePlaylist (mood : string) (playlist : SpotifyPlaylist)
    : Result Scored :=
  let score := 0%R in
  let score := (score + Rmin (IZR (tracks_total playlist) / 10) 10)%R in
  let withName (nameContainsMood : bool) :=
    let score := if nameContainsMood then (score + 5)%R else score in
    let score := if truthy (description playlist) then (score + 2)%R else score in
    let score :=
      match images playlist with
      | Some (_ :: _) => (score + 1)%R
      | _ => score
      end in
    Ok {| playlist := playlist; score := score |} in
  match getMoodKeywords mood with
  | Inherited _ => Throw (TypeError "moodKeywords.some is not a function")
  | Just [] => withName false
  | Just (keyword :: keywords) =>
      let moodKeywords := keyword :: keywords in
      match lowerName playlist with
      | Ok lname =>
          withName
            (existsb (fun keyword => includes lname (toLowerCase keyword))
                     moodKeywords)
      | Throw e => Throw e
      end
  end.

Definition selectBestPlaylist (playlists : list SpotifyPlaylist) (mood : string)
    : Result SpotifyPlaylist :=
  match mapResult (scorePlaylist mood) playlists with
  | Throw e => Throw e
  | Ok scoredPlaylists =>
      match sort byScoreDesc scoredPlaylists with
      | best :: _ => Ok (playlist best)
      | [] => Throw (TypeError "Cannot read properties of undefined")
      end
  end.

(** Lines 48-86. [ACCESS_TOKEN] is the static field of the class, as
    [setAccessToken] left it. The result is [None] where the source returns
    [null]. *)
Definition getPlaylistForMood (env : Env) (ACCESS_TOKEN mood : string)
    : Async (option SpotifyPlaylist) :=
  (try
     (if String.eqb ACCESS_TOKEN PLACEHOLDER_TOKEN then ret None
      else
        let moodKeywords := getMoodKeywords mood in
        playlists <- searchPlaylistsByMood env ACCESS_TOKEN moodKeywords;;
        if (length playlists =? 0)%nat then ret None
        else
          selectedPlaylist <- lift (selectBestPlaylist playlists mood);;
          ret (Some selectedPlaylist))
   catch error => ret None)%async.

End SpotifyServiceStatic.

(** ** Specification-side helpers *)

(** The first playlist of [l] whose identifier is [i]. *)
Definition firstWithId (i : string) (l : list SpotifyPlaylist)
    : option SpotifyPlaylist :=
  List.find (fun p => bool_decide (id p = i)) l.

(** How many playlists of [l] have identifier [i]. *)
Definition occurrences (i : string) (l : list SpotifyPlaylist) : nat :=
  length (List.filter (fun p => bool_decide (id p = i)) l).

(** [a] may stand before [b] in a list sorted by descending score. *)
Definition scoreGe (a b : Scored) : Prop := (score b <= score a)%R.

(** The playlist [p] with follower count [n] and nothing else changed. *)
Definition withFollowers (p : SpotifyPlaylist) (n : Z) : SpotifyPlaylist :=
  {| id := id p; name := name p; description := description p;
     external_urls := external_urls p; images := images p;
     tracks_total := tracks_total p; followers := Some n |}.

(** What the [forEach] of [calculateNameRelevance] adds up, counted in
    halves: two for a term equal to the text, one for a term that occurs in
    it, nothing otherwise. *)
Definition halfPoints (lowerText : string) (terms : list string) : Z :=
  foldr (fun term acc =>
           ((if includes lowerText (toLowerCase term)
             then if String.eqb lowerText (toLowerCase term) then 2 else 1
             else 0) + acc)%Z) 0%Z terms.

(** The value of [calculateNameRelevance] for search terms that are the
    array [terms]. *)
Definition relevance (terms : list string) (text : option string) : R :=
  if truthy text
  then Rmin (IZR (halfPoints (toLowerCase (default "" text)) terms) / 2
             / INR (length terms)) 1
  else 0%R.

(** The five summands of [calculatePlaylistScore], in source order; the
    name and the description term for search terms that are the array
    [terms]. *)
Definition popularityTerm (p : SpotifyPlaylist) : R :=
  (log10 (IZR (Z.max (SpotifyService.followersOr1 p) 1)) * 10)%R.

Definition trackCountTerm (p : SpotifyPlaylist) : R :=
  if ((30 <=? tracks_total p) && (tracks_total p <=? 100))%Z then 20%R
  else if ((15 <=? tracks_total p) && (tracks_total p <=? 150))%Z then 10%R
  else 0%R.

Definition nameTerm (terms : list string) (p : SpotifyPlaylist) : R :=
  (relevance terms (name p) * 30)%R.

Definition descriptionTerm (terms : list string) (p : SpotifyPlaylist) : R :=
  if truthy (description p)
  then (relevance terms (description p) * 15)%R
  else 0%R.

Definition imageTerm (p : SpotifyPlaylist) : R :=
  match images p with
  | Some (_ :: _) => 5%R
  | _ => 0%R
  end.

(** Their sum, and the list that [scorePlaylists] builds from it. *)
Definition scoreWith (terms : list string) (p : SpotifyPlaylist) : R :=
  (popularityTerm p + trackCountTerm p + nameTerm terms p
   + descriptionTerm terms p + imageTerm p)%R.

Definition scoredWith (terms : list string) (playlists : list SpotifyPlaylist)
    : list Scored :=
  map (fun p => {| playlist := p; score := scoreWith terms p |}) playlists.

(** A playlist that has a name or a description for
    [calculateNameRelevance] to look at. *)
Definition hasText (p : SpotifyPlaylist) : bool :=
  truthy (name p) || truthy (description p).

(** Three candidates for the mood [Happy], scoring 12, 45 and 30. *)
Definition candidate12 : SpotifyPlaylist :=
  {| id := "p12"; name := Some "happy upbeat cheerful feel good";
     description := None; external_urls := ""; images := None;
     tracks_total := 5%Z; followers := None |}.

Definition candidate45 : SpotifyPlaylist :=
  {| id := "p45"; name := Some "Road trip"; description := None;
     external_urls := "";
     images := Some [{| url := "cover.jpg"; height := 300%Z; width := 300%Z |}];
     tracks_total := 50%Z; followers := Some 100%Z |}.

Definition candidate30 : SpotifyPlaylist :=
  {| id := "p30"; name := Some "Dinner"; description := None;
     external_urls := ""; images := None;
     tracks_total := 50%Z; followers := Some 10%Z |}.

(** The terms that a search for [mood] asks the catalogue about: the first
    three search terms, and none when the search terms are no array. *)
Definition termsToSearch (mood : string) : list string :=
  match SpotifyService.searchTermsFor mood with
  | Just searchTerms => take 3 searchTerms
  | Inherited _ => []
  end.

(** The requests that a search for [terms] issues, in order. *)
Definition requestsFor (accessToken : string) (terms : list string)
    : list Request :=
  map (fun term => {| q := term; bearer := accessToken |}) terms.

(** What the network answers to each of them when they are issued one after
    the other, starting from the log [log]. *)
Fixpoint responsesOf (env : Env) (accessToken : string) (terms : list string)
    (log : list Request) : list (option Response) :=
  match terms with
  | [] => []
  | term :: rest =>
      let req := {| q := term; bearer := accessToken |} in
      network env log req :: responsesOf env accessToken rest (log ++ [req])
  end.

(** What one answer adds to the merge: its items when its status is a
    success, nothing otherwise. *)
Definition contribution (r : option Response)
    : list (option SpotifyPlaylist) :=
  match r with
  | Some r => if ok r then default [] (body r) else []
  | None => []
  end.

(** An answer that the loop can process: the request was not rejected, and
    a successful answer carries an array of items. *)
Definition usable (r : option Response) : Prop :=
  match r with
  | Some r => ok r = true → is_Some (body r)
  | None => False
  end.

(** An answer with a status that is not a success. *)
Definition failed (r : option Response) : Prop :=
  ∃ response, r = Some response ∧ ok response = false.

(** What the [catch] of [getPlaylistForMood] makes of the outcome of its
    [try] block. *)
Definition reworded (r : Result string) : Result string :=
  match r with
  | Ok playlistId => Ok playlistId
  | Throw e =>
      if String.eqb (message e) "Authentication required"
      then Throw (Error "Please authenticate with Spotify to get personalized playlists")
      else Throw (Error "Failed to get playlist for mood")
  end.

(** Worlds to run the services in. [signedOut]: no token, and a network
    that rejects everything. [emptyCatalogue]: a token, and every search
    succeeds with no items. [flakyCatalogue]: a token; the search for
    [happy] answers 500, every other search succeeds with two playlists.
    [failingCatalogue]: a token, and every search answers 500. *)
Definition signedOut : Env :=
  {| authToken := fun _ => None; network := fun _ _ => None |}.

Definition emptyCatalogue : Env :=
  {| authToken := fun _ => Some "token";
     network := fun _ _ =>
       Some {| status := 200; statusText := "OK"; body := Some [] |} |}.

Definition flakyCatalogue : Env :=
  {| authToken := fun _ => Some "token";
     network := fun _ req =>
       if String.eqb (q req) "happy"
       then Some {| status := 500; statusText := "Internal Server Error";
                    body := None |}
       else Some {| status := 200; statusText := "OK";
                    body := Some [Some candidate45; Some candidate30] |} |}.

Definition failingCatalogue : Env :=
  {| authToken := fun _ => Some "token";
     network := fun _ _ =>
       Some {| status := 500; statusText := "Internal Server Error";
               body := None |} |}.

(** A world whose answers do not depend on what was asked before. *)
Definition stateless (env : Env) : Prop :=
  (∀ log1 log2, authToken env log1 = authToken env log2) ∧
  (∀ log1 log2 req, network env log1 req = network env log2 req).

(** [sub] occurs in [s]. *)
Definition Substring (sub s : string) : Prop :=
  ∃ pre post, s = pre +:+ sub +:+ post.

(** [brokenCatalogue]: a token; the search for [happy] succeeds with two
    playlists, every other request is rejected. [nullCatalogue]: a token;
    the search for [happy] succeeds with a playlist and a [null] entry,
    every other search succeeds with two playlists. *)
Definition brokenCatalogue : Env :=
  {| authToken := fun _ => Some "token";
     network := fun _ req =>
       if String.eqb (q req) "happy"
       then Some {| status := 200; statusText := "OK";
                    body := Some [Some candidate45; Some candidate30] |}
       else None |}.

Definition nullCatalogue : Env :=
  {| authToken := fun _ => Some "token";
     network := fun _ req =>
       if String.eqb (q req) "happy"
       then Some {| status := 200; statusText := "OK";
                    body := Some [Some candidate45; None] |}
       else Some {| status := 200; statusText := "OK";
                    body := Some [Some candidate45; Some candidate30] |} |}.

(** The request that [SpotifyServiceStatic] issues for a keyword. *)
Definition keywordRequest (ACCESS_TOKEN keyword : string) : Request :=
  {| q := String.append SpotifyServiceStatic.DQUOTE
            (String.append keyword
               (String.append SpotifyServiceStatic.DQUOTE " mood playlist"));
     bearer := ACCESS_TOKEN |}.

(** A playlist that the keyword filter of [SpotifyServiceStatic] lets
    through for one of [keywords]. *)
Definition matchesKeyword (keywords : list string) (p : SpotifyPlaylist)
    : Prop :=
  (10 < tracks_total p)%Z ∧
  ∃ n keyword,
    name p = Some n ∧ keyword ∈ keywords ∧
    includes (toLowerCase n) (toLowerCase keyword) = true.

(** [catalogueWithNames]: every search succeeds with the candidate scoring
    45 and with a playlist called [Happy Hits]. *)
Definition happyHits : SpotifyPlaylist :=
  {| id := "hits"; name := Some "Happy Hits"; description := Some "Hits";
     external_urls := ""; images := None; tracks_total := 120%Z;
     followers := None |}.

Definition catalogueWithNames : Env :=
  {| authToken := fun _ => Some "token";
     network := fun _ _ =>
       Some {| status := 200; statusText := "OK";
               body := Some [Some candidate45; Some happyHits] |} |}.

(** ** EnvConfig and the configuration check of SpotifyAuthService *)

(** [o !== s] for a possibly missing string [o]. *)
Definition differs (o : option string) (s : string) : bool :=
  match o with
  | Some t => negb (String.eqb t s)
  | None => true
  end.

(** ['*'.repeat(n)] *)
Fixpoint repeatStar (n : nat) : string :=
  match n with
  | O => EmptyString
  | S n' => String "*" (repeatStar n')
  end.

(** The line feed character, as a string. *)
Definition NEWLINE : string := String (ascii_of_N 10) EmptyString.

Module EnvConfig.

(** [SPOTIFY_CLIENT_ID] and [SPOTIFY_CLIENT_SECRET] are what the module
    [@env] provides: [None] for a variable that is not set. *)
Definition isConfigured (SPOTIFY_CLIENT_ID SPOTIFY_CLIENT_SECRET : option string)
    : bool :=
  truthy SPOTIFY_CLIENT_ID &&
  truthy SPOTIFY_CLIENT_SECRET &&
  differs SPOTIFY_CLIENT_ID "YOUR_SPOTIFY_CLIENT_ID" &&
  differs SPOTIFY_CLIENT_SECRET "YOUR_SPOTIFY_CLIENT_SECRET".

Record ConfigStatus := {
  hasClientId : bool;
  hasClientSecret : bool;
  clientIdValid : bool;
  clientSecretValid : bool;
  isFullyConfigured : bool;
}.

Definition getConfigStatus
    (SPOTIFY_CLIENT_ID SPOTIFY_CLIENT_SECRET : option string) : ConfigStatus :=
  {| hasClientId := truthy SPOTIFY_CLIENT_ID;
     hasClientSecret := truthy SPOTIFY_CLIENT_SECRET;
     clientIdValid := differs SPOTIFY_CLIENT_ID "YOUR_SPOTIFY_CLIENT_ID";
     clientSecretValid :=
       differs SPOTIFY_CLIENT_SECRET "YOUR_SPOTIFY_CLIENT_SECRET";
     isFullyConfigured := isConfigured SPOTIFY_CLIENT_ID SPOTIFY_CLIENT_SECRET |}.

(** [slice(0, 4)] is [substring 0 4], [slice(-4)] the last four characters. *)
Definition getMaskedClientId (SPOTIFY_CLIENT_ID : option string) : string :=
  let clientId := default "" SPOTIFY_CLIENT_ID in
  if negb (truthy SPOTIFY_CLIENT_ID) || (String.length clientId <? 8)%nat
  then "Not configured"
  else
    let start := substring 0 4 clientId in
    let end_ := substring (String.length clientId - 4) 4 clientId in
    let middle := repeatStar (String.length clientId - 8) in
    String.append start (String.append middle end_).

End EnvConfig.

Module SpotifyAuthService.

(** [validateConfig] of [SpotifyAuthService.ts] (lines 34-65): it returns
    normally or throws the assembled message. *)
Definition validateConfig
    (SPOTIFY_CLIENT_ID SPOTIFY_CLIENT_SECRET : option string) : Result unit :=
  if negb (EnvConfig.isConfigured SPOTIFY_CLIENT_ID SPOTIFY_CLIENT_SECRET) then
    let status :=
      EnvConfig.getConfigStatus SPOTIFY_CLIENT_ID SPOTIFY_CLIENT_SECRET in
    let errorMessage :=
      String.append "Spotify configuration is incomplete:" NEWLINE in
    let errorMessage :=
      if negb (EnvConfig.hasClientId status) then
        String.append errorMessage
          (String.append "- SPOTIFY_CLIENT_ID is missing" NEWLINE)
      else if negb (EnvConfig.clientIdValid status) then
        String.append errorMessage
          (String.append
             "- SPOTIFY_CLIENT_ID is not set (still using placeholder)" NEWLINE)
      else errorMessage in
    let errorMessage :=
      if negb (EnvConfig.hasClientSecret status) then
        String.append errorMessage
          (String.append "- SPOTIFY_CLIENT_SECRET is missing" NEWLINE)
      else if negb (EnvConfig.clientSecretValid status) then
        String.append errorMessage
          (String.append
             "- SPOTIFY_CLIENT_SECRET is not set (still using placeholder)"
             NEWLINE)
      else errorMessage in
    let errorMessage :=
      String.append errorMessage
        (String.append NEWLINE
           "Please check your .env file and restart the development server.") in
    Throw (Error errorMessage)
  else Ok tt.

End SpotifyAuthService.

(** ** ImageService *)

Module ImageService.

Definition supportedFormats : list string := [".jpg"; ".jpeg"; ".png"; ".webp"].

(** Lines 96-103. *)
Definition validateImageFile (imageUri : string) : bool :=
  if negb (truthy (Some imageUri)) then false
  else
    let lowerUri := toLowerCase imageUri in
    existsb (fun format => includes lowerUri format) supportedFormats.

End ImageService.

(** ** VisionService: the mock detector *)

(** [Math.floor(r * n)] for a random number [r], as an index. The product
    is exact. *)
Definition floorTimes (r : Q) (n : Z) : Z := Qfloor (r * inject_Z n).

Module VisionService.

Definition MOOD_CATEGORIES : list string :=
  ["Happy"; "Sad"; "Calm"; "Energetic"; "Excited"; "Peaceful"].

(** [analyzeImage] (lines 28-79). [random1] and [random2] are what the two
    calls of [Math.random] return, the first for the delay, the second for
    the index. The result is [None] where the source returns [undefined]. *)
Definition analyzeImage (imageUri : string) (random1 random2 : Q)
    : Result (option string) :=
  if negb (truthy (Some imageUri))
  then Throw (Error "Failed to analyze image mood")
  else
    let randomIndex := floorTimes random2 (Z.of_nat (length MOOD_CATEGORIES)) in
    let detectedMood :=
      if (randomIndex <? 0)%Z then None
      else MOOD_CATEGORIES !! Z.to_nat randomIndex in
    Ok detectedMood.

(** [getConfidenceScore] (lines 135-137). *)
Definition getConfidenceScore (random : Q) : Z := (floorTimes random 20 + 80)%Z.

End VisionService.

(** ** RealVisionService: mapping annotations to moods *)

Module RealVisionService.

(** The likelihoods of a face annotation; a field is [None] when the
    annotation lacks it. *)
Record Emotions := {
  joyLikelihood : option string;
  sorrowLikelihood : option string;
  angerLikelihood : option string;
  surpriseLikelihood : option string;
}.

Definition likelihoods : gmap string Z :=
  list_to_map [
    ("VERY_UNLIKELY", 0%Z); ("UNLIKELY", 1%Z); ("POSSIBLE", 2%Z);
    ("LIKELY", 3%Z); ("VERY_LIKELY", 4%Z)
  ].

(** [likelihoods[l] || 0]. A likelihood that is a name inherited from
    [Object.prototype] gives a function instead, which compares false with
    the numbers 2 and 3, as 0 does: it counts as 0. *)
Definition likelihoodScore (l : option string) : Z :=
  match l with
  | Some l => default 0%Z (likelihoods !! l)
  | None => 0%Z
  end.

(** Lines 104-130. *)
Definition mapEmotionsToMood (emotions : Emotions) : string :=
  let joyScore := likelihoodScore (joyLikelihood emotions) in
  let sorrowScore := likelihoodScore (sorrowLikelihood emotions) in
  let angerScore := likelihoodScore (angerLikelihood emotions) in
  let surpriseScore := likelihoodScore (surpriseLikelihood emotions) in
  if (3 <=? joyScore)%Z then "Happy"
  else if (3 <=? sorrowScore)%Z then "Sad"
  else if (3 <=? angerScore)%Z then "Energetic"
  else if (3 <=? surpriseScore)%Z then "Excited"
  else if (2 <=? joyScore)%Z then "Happy"
  else if (2 <=? sorrowScore)%Z then "Calm"
  else "Peaceful".

(** The entries of [moodKeywords], in the order [Object.entries] visits
    them. *)
Definition moodKeywords : list (string * list string) :=
  [ ("Happy", ["party"; "celebration"; "smile"; "fun"; "joy"; "bright";
               "colorful"]);
    ("Energetic", ["sport"; "exercise"; "running"; "dance"; "active";
                   "motion"]);
    ("Peaceful", ["nature"; "landscape"; "sunset"; "beach"; "mountain";
                  "flower"; "tree"]);
    ("Calm", ["water"; "sky"; "blue"; "peaceful"; "quiet"; "serene"]);
    ("Excited", ["concert"; "festival"; "crowd"; "music"; "stage";
                 "performance"]);
    ("Sad", ["rain"; "dark"; "grey"; "alone"; "empty"]) ].

(** [parts.join(' ')] *)
Fixpoint joinSpace (parts : list string) : string :=
  match parts with
  | [] => EmptyString
  | [part] => part
  | part :: rest => String.append part (String.append " " (joinSpace rest))
  end.

(** The [reduce] that counts the keywords found in the label text. *)
Definition keywordScore (labelText : string) (keywords : list string) : Z :=
  fold_left
    (fun acc keyword =>
       (acc + if includes labelText keyword then 1 else 0)%Z)
    keywords 0%Z.

(** One turn of the [forEach] over the entries, on [(bestMood, bestScore)]. *)
Definition bestStep (labelText : string) (best : string * Z)
    (entry : string * list string) : string * Z :=
  let '(bestMood, bestScore) := best in
  let '(mood, keywords) := entry in
  let score := keywordScore labelText keywords in
  if (bestScore <? score)%Z then (mood, score) else (bestMood, bestScore).

(** [mapLabelsToMood] (lines 187-241) on the descriptions of the labels; a
    label without a description makes the source throw. *)
Definition mapLabelsToMood (labels : list (option string)) : Result string :=
  match mapResult
          (fun description =>
             match description with
             | Some d => Ok (toLowerCase d)
             | None => Throw (TypeError "Cannot read properties of undefined")
             end) labels with
  | Throw e => Throw e
  | Ok lowered =>
      let labelText := joinSpace lowered in
      Ok (fold_left (bestStep labelText) moodKeywords ("Calm", 0%Z)).1
  end.

End RealVisionService.

(** What the loop over the entries knows after the entries [seen]. *)
Definition bestOf (labelText firstMood : string)
    (seen : list (string * list string)) (best : string * Z) : Prop :=
  (∀ entry, entry ∈ seen → (RealVisionService.keywordScore labelText entry.2 <= best.2)%Z) ∧
  ((best.2 = 0%Z ∧ best.1 = firstMood) ∨
   ((0 < best.2)%Z ∧
    ∃ keywords, ((best.1, keywords) ∈ seen) ∧
                RealVisionService.keywordScore labelText keywords = best.2)).

(** ** [sort] with an integer comparator *)

Fixpoint insert_sortedZ {A} (cmp : A -> A -> Z) (x : A) (l : list A) : list A :=
  match l with
  | [] => [x]
  | y :: l' =>
      if (cmp x y <=? 0)%Z then x :: y :: l' else y :: insert_sortedZ cmp x l'
  end.

Definition sortZ {A} (cmp : A -> A -> Z) (l : list A) : list A :=
  foldr (insert_sortedZ cmp) [] l.

(** ** SimpleSpotifyService *)

(** A playlist with the [score] field that [SimpleSpotifyService] adds. *)
Record ScoredPlaylist := { scored : SpotifyPlaylist; points : Z }.

Module SimpleSpotifyService.

Definition moodKeywords : gmap string string :=
  list_to_map [
    ("happy", "happy upbeat feel good");
    ("sad", "sad melancholy emotional");
    ("energetic", "energetic workout pump up");
    ("calm", "calm relaxing chill");
    ("angry", "angry rock metal intense");
    ("romantic", "romantic love ballads");
    ("nostalgic", "nostalgic throwback classic")
  ].

Definition moodSynonyms : gmap string (list string) :=
  list_to_map [
    ("happy", ["happy"; "upbeat"; "feel good"; "positive"; "joyful"; "cheerful"]);
    ("sad", ["sad"; "melancholy"; "emotional"; "heartbreak"; "blue"; "tears"]);
    ("energetic", ["energetic"; "workout"; "pump up"; "high energy"; "intense";
                   "power"]);
    ("calm", ["calm"; "relaxing"; "chill"; "peaceful"; "ambient"; "zen"]);
    ("angry", ["angry"; "rage"; "intense"; "aggressive"; "metal"; "rock"]);
    ("romantic", ["romantic"; "love"; "romance"; "valentine"; "couples"]);
    ("nostalgic", ["nostalgic"; "throwback"; "classic"; "retro"; "old school"])
  ].

(** [text?.toLowerCase() || ''] *)
Definition lowerOrEmpty (text : option string) : string :=
  match text with
  | Some t => toLowerCase t
  | None => ""
  end.

(** One turn of the [forEach] over the synonyms, on [score]. *)
Definition synonymStep (name description : string) (score : Z)
    (synonym : string) : Z :=
  let score := if includes name synonym then (score + 20)%Z else score in
  let score := if includes description synonym then (score + 10)%Z else score in
  score.

(** [followers?.total > limit] *)
Definition followersAbove (playlist : SpotifyPlaylist) (limit : Z) : bool :=
  match followers playlist with
  | Some total => (limit <? total)%Z
  | None => false
  end.

(** [moodSynonyms[moodLower] || [moodLower]] *)
Definition synonymsFor (moodLower : string) : Value (list string) :=
  orElse (getProperty moodSynonyms moodLower) [moodLower].

(** [calculatePlaylistScore] (lines 326-370 of the file that holds
    [SimpleSpotifyService]). Synonyms that are no array have no
    [forEach]. *)
Definition calculatePlaylistScore (playlist : SpotifyPlaylist) (mood : string)
    : Result Z :=
  let score := 0%Z in
  let name := lowerOrEmpty (name playlist) in
  let description := lowerOrEmpty (description playlist) in
  let moodLower := toLowerCase mood in
  let score := if includes name moodLower then (score + 50)%Z else score in
  let score := if includes description moodLower then (score + 30)%Z else score in
  match synonymsFor moodLower with
  | Inherited _ => Throw (TypeError "synonyms.forEach is not a function")
  | Just synonyms =>
      let score := fold_left (synonymStep name description) synonyms score in
      let score := if followersAbove playlist 1000 then (score + 10)%Z else score in
      let score := if followersAbove playlist 10000 then (score + 5)%Z else score in
      let trackCount := tracks_total playlist in
      let score :=
        if ((20 <=? trackCount) && (trackCount <=? 100))%Z then (score + 15)%Z
        else if (100 <? trackCount)%Z then (score + 5)%Z
        else score in
      Ok score
  end.

Definition byPointsDesc (a b : ScoredPlaylist) : Z := (points b - points a)%Z.

(** The [filter] of [getPlaylistForMood]:
    [playlist && playlist.tracks?.total > 10]. *)
Definition withTracks (playlists : list (option SpotifyPlaylist))
    : list SpotifyPlaylist :=
  omap (fun playlist =>
          match playlist with
          | Some p => if (10 <? tracks_total p)%Z then Some p else None
          | None => None
          end) playlists.

(** The playlists of the answer, filtered, scored and sorted. *)
Definition scoredPlaylists (playlists : list (option SpotifyPlaylist))
    (mood : string) : Result (list ScoredPlaylist) :=
  match mapResult
          (fun playlist =>
             match calculatePlaylistScore playlist mood with
             | Ok score => Ok {| scored := playlist; points := score |}
             | Throw e => Throw e
             end) (withTracks playlists) with
  | Ok scoredPlaylists => Ok (sortZ byPointsDesc scoredPlaylists)
  | Throw e => Throw e
  end.

(** [moodKeywords[mood.toLowerCase()] || mood] *)
Definition searchQueryFor (mood : string) : Value string :=
  orElse (getProperty moodKeywords (toLowerCase mood)) mood.

(** [getPlaylistForMood] (lines 251-321). A body that is not a search
    result counts as one without items; the source returns [null] for it
    either way, through [?.] or through its [catch]. *)
Definition getPlaylistForMood (env : Env) (ACCESS_TOKEN : string)
    (inheritedText : string -> string) (mood : string)
    : Async (option ScoredPlaylist) :=
  (try
     (let searchQuery := searchQueryFor mood in
      response <- fetch env {| q := textOf inheritedText searchQuery;
                               bearer := ACCESS_TOKEN |};;
      if negb (ok response) then ret None
      else
        let playlists := default [] (body response) in
        if (length playlists =? 0)%nat then ret None
        else
          scoredPlaylists <- lift (scoredPlaylists playlists mood);;
          match scoredPlaylists with
          | bestPlaylist :: _ => ret (Some bestPlaylist)
          | [] => ret None
          end)
   catch error => ret None)%async.

End SimpleSpotifyService.

(** ** SpotifyStaticService *)

Module SpotifyStaticService.

Definition PLACEHOLDER_TOKEN : string := "YOUR_POSTMAN_TOKEN_HERE".

Definition getAccessToken (ACCESS_TOKEN : string) : option string :=
  if negb (truthy (Some ACCESS_TOKEN)) || String.eqb ACCESS_TOKEN PLACEHOLDER_TOKEN
  then None
  else Some ACCESS_TOKEN.

Definition moodKeywords : gmap string (list string) :=
  list_to_map [
    ("Happy", ["happy"; "upbeat"; "cheerful"; "positive"; "joyful"]);
    ("Sad", ["sad"; "melancholy"; "blues"; "emotional"; "heartbreak"]);
    ("Energetic", ["energetic"; "workout"; "pump up"; "high energy"; "dance"]);
    ("Calm", ["calm"; "relaxing"; "chill"; "peaceful"; "ambient"]);
    ("Angry", ["angry"; "aggressive"; "intense"; "metal"; "hardcore"]);
    ("Romantic", ["romantic"; "love"; "romantic dinner"; "date night"]);
    ("Nostalgic", ["nostalgic"; "throwback"; "oldies"; "memories"; "classic"])
  ].

(** [keywords.join(' OR ')] *)
Fixpoint joinOr (keywords : list string) : string :=
  match keywords with
  | [] => EmptyString
  | [keyword] => keyword
  | keyword :: rest => String.append keyword (String.append " OR " (joinOr rest))
  end.

(** [moodKeywords[mood] || [mood.toLowerCase()]] *)
Definition keywordsFor (mood : string) : Value (list string) :=
  orElse (getProperty moodKeywords mood) [toLowerCase mood].

(** [searchPlaylistsByMood] (lines 34-79). Keywords that are no array have
    no [join]; the call is made before the [try] block. A body that is not
    a search result counts as one without items. The message of the
    failure leaves the status number out. *)
Definition searchPlaylistsByMood (env : Env) (ACCESS_TOKEN mood : string)
    : Async (list (option SpotifyPlaylist)) :=
  match getAccessToken ACCESS_TOKEN with
  | None => throw (Error "No access token available")
  | Some accessToken =>
      match keywordsFor mood with
      | Inherited _ => throw (TypeError "keywords.join is not a function")
      | Just keywords =>
          let searchQuery := joinOr keywords in
          (try
             (response <- fetch env {| q := searchQuery;
                                       bearer := accessToken |};;
              if negb (ok response)
              then throw (Error (String.append "Spotify API error: "
                                               (statusText response)))
              else ret (default [] (body response)))
           catch error => throw error)%async
      end
  end.

(** [playlists.find((p) => p.followers?.total > 1000)]: the callback reads
    [followers] of every entry up to the one it finds. *)
Fixpoint findPopular (playlists : list (option SpotifyPlaylist))
    : Result (option SpotifyPlaylist) :=
  match playlists with
  | [] => Ok None
  | None :: _ => Throw (TypeError "Cannot read properties of null")
  | Some p :: rest =>
      if SimpleSpotifyService.followersAbove p 1000 then Ok (Some p)
      else findPopular rest
  end.

(** [playlists.find(...) || playlists[0]], and [bestPlaylist.name], which
    the call of [console.log] reads. *)
Definition pickPlaylist (playlists : list (option SpotifyPlaylist))
    : Result SpotifyPlaylist :=
  match findPopular playlists with
  | Throw e => Throw e
  | Ok (Some p) => Ok p
  | Ok None =>
      match playlists with
      | Some p :: _ => Ok p
      | _ => Throw (TypeError "Cannot read properties of undefined")
      end
  end.

(** [getPlaylistForMood] (lines 86-105). *)
Definition getPlaylistForMood (env : Env) (ACCESS_TOKEN mood : string)
    : Async (option SpotifyPlaylist) :=
  (try
     (playlists <- searchPlaylistsByMood env ACCESS_TOKEN mood;;
      if (length playlists =? 0)%nat then ret None
      else
        bestPlaylist <- lift (pickPlaylist playlists);;
        ret (Some bestPlaylist))
   catch error => ret None)%async.

End SpotifyStaticService.

(** ** SpotifyService: the mock of the first half of [SpotifyService.ts] *)

Module MockSpotifyService.

Definition MOOD_PLAYLISTS : gmap string string :=
  list_to_map [
    ("Happy", "37i9dQZF1DXdPec7aJc1u6");
    ("Sad", "37i9dQZF1DWSqBruwoIXkA");
    ("Calm", "37i9dQZF1DWU0ScTcjAxCX");
    ("Energetic", "37i9dQZF1DX3rxVfSAhnEM");
    ("Excited", "37i9dQZF1DX0XUsuxWHRQd");
    ("Peaceful", "37i9dQZF1DX4sWSpwq3LiO")
  ].

Definition ALTERNATIVE_PLAYLISTS : gmap string (list string) :=
  list_to_map [
    ("Happy", ["37i9dQZF1DX0XUsuxWHRQd"; "37i9dQZF1DXdPec7aJc1u6";
               "37i9dQZF1DX4fpCWaHOned"]);
    ("Sad", ["37i9dQZF1DWSqBruwoIXkA"; "37i9dQZF1DX3YSRoSdA634";
             "37i9dQZF1DX7qK8ma5wgG1"]);
    ("Calm", ["37i9dQZF1DWU0ScTcjAxCX"; "37i9dQZF1DX4sWSpwq3LiO";
              "37i9dQZF1DWZqd5JICZI0u"]);
    ("Energetic", ["37i9dQZF1DX3rxVfSAhnEM"; "37i9dQZF1DX0XUsuxWHRQd";
                   "37i9dQZF1DXdxcBWuJkOwX"]);
    ("Excited", ["37i9dQZF1DX0XUsuxWHRQd"; "37i9dQZF1DXdPec7aJc1u6";
                 "37i9dQZF1DX3rxVfSAhnEM"]);
    ("Peaceful", ["37i9dQZF1DX4sWSpwq3LiO"; "37i9dQZF1DWU0ScTcjAxCX";
                  "37i9dQZF1DWZqd5JICZI0u"])
  ].

(** [alternatives[randomIndex]] for an array. *)
Definition at_index (alternatives : list string) (randomIndex : Z)
    : option string :=
  if (randomIndex <? 0)%Z then None
  else alternatives !! Z.to_nat randomIndex.

(** [getPlaylistForMood] (lines 63-125). [random1], [random2] and [random3]
    are what the calls of [Math.random] return: for the delay, for the
    choice of an alternative, and for its index (drawn only when an
    alternative is chosen). No random number lies between one fifth and the
    floating point number [0.2], so the comparison is with one fifth. The
    index is computed exactly; rounding the product can only turn an index
    into the next one and never reaches the length of the array. The
    result is [Just None] where the source returns [undefined], and
    [Inherited key] where it returns the inherited value it found under the
    mood; an inherited value has no property under a number, so indexing it
    gives [undefined]. Nothing in the [try] block throws, so its handler is
    never entered. *)
Definition getPlaylistForMood (mood : string) (random1 random2 random3 : Q)
    : Result (Value (option string)) :=
  let primaryPlaylist := getProperty MOOD_PLAYLISTS mood in
  let alternative (alternatives : Value (option (list string))) :=
    match alternatives with
    | Just (Some alternatives) =>
        let randomIndex :=
          floorTimes random3 (Z.of_nat (length alternatives)) in
        Ok (Just (at_index alternatives randomIndex))
    | Just None => Ok primaryPlaylist
    | Inherited _ => Ok (Just None)
    end in
  match primaryPlaylist with
  | Just (Some (String _ _)) | Inherited _ =>
      if Qlt_le_dec random2 (1 # 5)
      then alternative (getProperty ALTERNATIVE_PLAYLISTS mood)
      else Ok primaryPlaylist
  | _ => Ok (getProperty MOOD_PLAYLISTS "Happy")
  end.

End MockSpotifyService.

(** * Properties *)

(** ** Strings *)

Section strings.

Lemma append_nil s : "" +:+ s = s.
Proof. reflexivity. Qed.

Lemma append_cons c s t : String c s +:+ t = String c (s +:+ t).
Proof. reflexivity. Qed.

Lemma prefix_nil s : String.prefix "" s = true.
Proof. by destruct s. Qed.

Lemma prefix_cons c sub d s :
  String.prefix (String c sub) (String d s)
  = if Ascii.ascii_dec c d then String.prefix sub s else false.
Proof. reflexivity. Qed.

Lemma prefix_spec sub s :
  String.prefix sub s = true ↔ ∃ post, s = sub +:+ post.
Proof.
  revert s. induction sub as [|c sub IH]; intros s.
  - rewrite prefix_nil. split; [| done]. intros _. by exists s.
  - destruct s as [|d s].
    + split; [done |]. intros [post H]. by rewrite append_cons in H.
    + rewrite prefix_cons. setoid_rewrite append_cons.
      destruct (Ascii.ascii_dec c d) as [->|Hne].
      * rewrite IH. split; intros [post H]; exists post; congruence.
      * split; [done | intros [post H]; congruence].
Qed.

Lemma includes_nil sub : includes "" sub = String.prefix sub "".
Proof. unfold includes. apply orb_false_r. Qed.

Lemma includes_cons c s sub :
  includes (String c s) sub = String.prefix sub (String c s) || includes s sub.
Proof. reflexivity. Qed.

Lemma includes_spec s sub : includes s sub = true ↔ Substring sub s.
Proof.
  unfold Substring. induction s as [|c s IH].
  - rewrite includes_nil, prefix_spec. split.
    + intros [post ->]. by exists "", post.
    + intros [pre [post H]]. destruct pre as [|d pre]; [eauto |].
      by rewrite append_cons in H.
  - rewrite includes_cons, orb_true_iff, prefix_spec, IH. split.
    + intros [[post ->] | [pre [post ->]]].
      * by exists "", post.
      * by exists (String c pre), post.
    + intros [pre [post H]]. destruct pre as [|d pre].
      * left. eauto.
      * right. exists pre, post. rewrite append_cons in H. congruence.
Qed.

Lemma truthy_Some o : truthy o = true → ∃ s, o = Some s ∧ s ≠ "".
Proof. destruct o as [[|c s]|]; simpl; intros; try done. eauto. Qed.

End strings.

(** ** De-duplication *)

Section removeDuplicates.
Import SpotifyService.

Implicit Types (seen : gset string) (l : list SpotifyPlaylist) (i : string).

Lemma removeDuplicates_from_elem seen l p :
  p ∈ removeDuplicates_from seen l → (id p ∉ seen) ∧ (p ∈ l).
Proof.
  revert seen. induction l as [|x l IH]; intros seen; simpl.
  - by intros ?%elem_of_nil.
  - case_bool_decide as Hx.
    + intros Hp. destruct (IH _ Hp). split; [done | by constructor].
    + intros [->|Hp]%elem_of_cons.
      * split; [done | by constructor].
      * destruct (IH _ Hp) as [[_ ?]%not_elem_of_union ?].
        split; [done | by constructor].
Qed.

Lemma removeDuplicates_from_NoDup seen l :
  NoDup (map id (removeDuplicates_from seen l)).
Proof.
  revert seen. induction l as [|x l IH]; intros seen; simpl.
  - constructor.
  - case_bool_decide as Hx; [apply IH |].
    simpl. constructor; [| apply IH].
    intros (p & Hid & Hp)%list_elem_of_fmap.
    apply removeDuplicates_from_elem in Hp as [Hp _]. set_solver.
Qed.

Lemma removeDuplicates_from_sublist seen l :
  removeDuplicates_from seen l `sublist_of` l.
Proof.
  revert seen. induction l as [|x l IH]; intros seen; simpl; [done |].
  case_bool_decide; [by apply sublist_cons | by apply sublist_skip].
Qed.

Lemma removeDuplicates_from_first seen l i :
  i ∉ seen → firstWithId i (removeDuplicates_from seen l) = firstWithId i l.
Proof.
  unfold firstWithId.
  revert seen. induction l as [|x l IH]; intros seen Hi; simpl; [done |].
  case_bool_decide as Hx; simpl.
  - rewrite (bool_decide_eq_false_2 (id x = i)) by set_solver. by apply IH.
  - case_bool_decide; [done |]. apply IH.
    rewrite not_elem_of_union, not_elem_of_singleton. split; [congruence | done].
Qed.

Lemma firstWithId_Some i l p :
  firstWithId i l = Some p → (p ∈ l) ∧ id p = i.
Proof.
  unfold firstWithId. intros [Hin Hid]%find_some.
  rewrite bool_decide_eq_true in Hid.
  split; [by apply list_elem_of_In | done].
Qed.

Lemma firstWithId_is_Some i l :
  i ∈ map id l → is_Some (firstWithId i l).
Proof.
  unfold firstWithId. induction l as [|x l IH]; simpl.
  - by intros ?%elem_of_nil.
  - case_bool_decide; [eauto |].
    intros [?|?]%elem_of_cons; [congruence | by apply IH].
Qed.

Lemma occurrences_NoDup i l :
  NoDup (map id l) → i ∈ map id l → occurrences i l = 1%nat.
Proof.
  unfold occurrences. induction l as [|x l IH]; simpl.
  - by intros _ ?%elem_of_nil.
  - intros [Hx Hnd]%NoDup_cons Hi.
    case_bool_decide as Hxi; simpl.
    + f_equal. apply length_zero_iff_nil.
      destruct (List.filter _ l) as [|y ?] eqn:E; [done |].
      assert (Hy : In y (List.filter (fun p => bool_decide (id p = i)) l))
        by (rewrite E; by left).
      apply filter_In in Hy as [Hy Hyi]. rewrite bool_decide_eq_true in Hyi.
      exfalso. apply Hx. apply list_elem_of_fmap.
      exists y. split; [congruence | by apply list_elem_of_In].
    + apply IH; [done |].
      apply elem_of_cons in Hi as [?|?]; [congruence | done].
Qed.

End removeDuplicates.

(** C3: [removeDuplicatePlaylists] returns a sub-sequence of its input (the
    kept entries stay in input order) in which no identifier repeats, in
    which every identifier of the input occurs exactly once, and in which
    the entry kept for an identifier is the first one the input has for it;
    the input may be any sequence, such as two result batches put end to
    end. *)
Theorem removeDuplicatePlaylists_first_occurrences
    (playlists : list SpotifyPlaylist) :
  let unique := SpotifyService.removeDuplicatePlaylists playlists in
  unique `sublist_of` playlists ∧
  NoDup (map id unique) ∧
  (∀ i, i ∈ map id playlists → occurrences i unique = 1%nat) ∧
  (∀ i, i ∉ map id playlists → occurrences i unique = 0%nat) ∧
  (∀ i, firstWithId i unique = firstWithId i playlists).
Proof.
  unfold SpotifyService.removeDuplicatePlaylists. simpl.
  assert (Hfirst : ∀ i,
    firstWithId i (SpotifyService.removeDuplicates_from ∅ playlists)
    = firstWithId i playlists).
  { intros i. apply removeDuplicates_from_first. set_solver. }
  pose proof (removeDuplicates_from_NoDup ∅ playlists) as Hnd.
  split_and!; try done.
  - apply removeDuplicates_from_sublist.
  - intros i Hi. apply occurrences_NoDup; [done |].
    destruct (firstWithId_is_Some i playlists Hi) as [p Hp].
    rewrite <- Hfirst in Hp. apply firstWithId_Some in Hp as [Hp <-].
    apply list_elem_of_fmap. eauto.
  - intros i Hi. unfold occurrences. apply length_zero_iff_nil.
    destruct (List.filter _ _) as [|y ?] eqn:E; [done |].
    assert (Hy : In y (List.filter (fun p => bool_decide (id p = i))
                  (SpotifyService.removeDuplicates_from ∅ playlists)))
      by (rewrite E; by left).
    apply filter_In in Hy as [Hy Hyi]. rewrite bool_decide_eq_true in Hyi.
    apply list_elem_of_In, removeDuplicates_from_elem in Hy as [_ Hy].
    exfalso. apply Hi. apply list_elem_of_fmap. eauto.
Qed.

(** ** Sorting by score *)

Section sorting.

Lemma insert_sorted_Permutation {A} (cmp : A → A → R) x (l : list A) :
  insert_sorted cmp x l ≡ₚ x :: l.
Proof.
  induction l as [|y l IH]; simpl; [done |].
  destruct (Rle_dec (cmp x y) 0); [done |].
  rewrite IH. apply Permutation_swap.
Qed.

Lemma sort_Permutation {A} (cmp : A → A → R) (l : list A) : sort cmp l ≡ₚ l.
Proof.
  unfold sort. induction l as [|x l IH]; simpl; [done |].
  by rewrite insert_sorted_Permutation, IH.
Qed.

Lemma sort_length {A} (cmp : A → A → R) (l : list A) :
  length (sort cmp l) = length l.
Proof. by rewrite sort_Permutation. Qed.

Lemma insert_sorted_descending x l :
  StronglySorted scoreGe l →
  StronglySorted scoreGe (insert_sorted byScoreDesc x l).
Proof.
  induction 1 as [|y l Hl IH Hy]; simpl.
  - repeat constructor.
  - unfold byScoreDesc at 1.
    destruct (Rle_dec (score y - score x) 0) as [Hle|Hgt].
    + constructor; [by constructor |].
      constructor; [unfold scoreGe; lra |].
      eapply Forall_impl; [exact Hy |].
      unfold scoreGe. intros z Hz. lra.
    + constructor; [done |].
      rewrite insert_sorted_Permutation.
      constructor; [unfold scoreGe; lra | done].
Qed.

Lemma sort_descending l : StronglySorted scoreGe (sort byScoreDesc l).
Proof.
  unfold sort. induction l as [|x l IH]; simpl; [constructor |].
  by apply insert_sorted_descending.
Qed.

Lemma sort_head_max l best rest :
  sort byScoreDesc l = best :: rest →
  (best ∈ l) ∧ ∀ x, x ∈ l → (score x <= score best)%R.
Proof.
  intros Hsort.
  pose proof (sort_descending l) as Hdesc.
  pose proof (sort_Permutation byScoreDesc l) as Hperm.
  rewrite Hsort in Hdesc, Hperm.
  split.
  - rewrite <- Hperm. by left.
  - intros x Hx. rewrite <- Hperm in Hx.
    apply StronglySorted_inv in Hdesc as [_ Hall].
    apply elem_of_cons in Hx as [->|Hx]; [lra |].
    rewrite Forall_forall in Hall. by apply (Hall x).
Qed.

Lemma take_descending n l :
  StronglySorted scoreGe l → StronglySorted scoreGe (take n l).
Proof.
  intros Hl. revert n. induction Hl as [|y l Hl IH Hy]; intros [|n]; simpl;
    try constructor; [apply IH |].
  rewrite Forall_forall in *. intros z Hz.
  apply Hy. by apply (subseteq_take n l).
Qed.

Lemma descending_app l1 l2 a b :
  StronglySorted scoreGe (l1 ++ l2) → a ∈ l1 → b ∈ l2 →
  (score b <= score a)%R.
Proof.
  induction l1 as [|x l1 IH]; intros Hdesc Ha Hb.
  - by apply elem_of_nil in Ha.
  - simpl in Hdesc. apply StronglySorted_inv in Hdesc as [Hdesc Hall].
    apply elem_of_cons in Ha as [->|Ha]; [| by apply IH].
    rewrite Forall_forall in Hall. apply (Hall b).
    apply elem_of_app. by right.
Qed.

End sorting.

(** ** Tables *)

Section tables.
Context {A : Type}.
Implicit Types (table : gmap string A) (key : string) (fallback a : A).

Lemma getProperty_own table key a :
  table !! key = Some a → getProperty table key = Just (Some a).
Proof. unfold getProperty. by intros ->. Qed.

Lemma getProperty_undefined table key :
  table !! key = None → key ∉ Object_prototype →
  getProperty table key = Just None.
Proof.
  unfold getProperty. intros -> Hkey. by rewrite bool_decide_eq_false_2.
Qed.

Lemma getProperty_inherited table key :
  table !! key = None → key ∈ Object_prototype →
  getProperty table key = Inherited key.
Proof.
  unfold getProperty. intros -> Hkey. by rewrite bool_decide_eq_true_2.
Qed.

Lemma orElse_Just table key fallback a :
  orElse (getProperty table key) fallback = Just a →
  table !! key = Some a ∨
  (table !! key = None ∧ (key ∉ Object_prototype) ∧ a = fallback).
Proof.
  unfold getProperty.
  destruct (table !! key) as [b|]; simpl; [intros [= ->]; by left |].
  case_bool_decide; simpl; [done |]. intros [= <-]. by right.
Qed.

Lemma orElse_Inherited table key fallback k :
  orElse (getProperty table key) fallback = Inherited k →
  table !! key = None ∧ (key ∈ Object_prototype) ∧ k = key.
Proof.
  unfold getProperty.
  destruct (table !! key) as [b|]; simpl; [done |].
  case_bool_decide; simpl; [| done]. by intros [= <-].
Qed.

End tables.

(** ** Scoring *)

Section scoring.
Import SpotifyService.

Lemma MOOD_TO_SEARCH_TERMS_length mood terms :
  MOOD_TO_SEARCH_TERMS !! mood = Some terms → length terms = 5%nat.
Proof.
  unfold MOOD_TO_SEARCH_TERMS. intros H%elem_of_list_to_map_2.
  repeat (apply elem_of_cons in H as [H|H]; [by inversion H |]).
  by apply elem_of_nil in H.
Qed.

Lemma MOOD_TO_SEARCH_TERMS_inherited mood :
  mood ∈ Object_prototype → MOOD_TO_SEARCH_TERMS !! mood = None.
Proof.
  unfold Object_prototype. intros H.
  repeat (apply elem_of_cons in H as [->|H]; [by vm_compute |]).
  by apply elem_of_nil in H.
Qed.

Lemma searchTermsFor_own mood terms :
  MOOD_TO_SEARCH_TERMS !! mood = Some terms → searchTermsFor mood = Just terms.
Proof. intros H. unfold searchTermsFor. by rewrite (getProperty_own _ _ _ H). Qed.

Lemma searchTermsFor_inherited mood :
  mood ∈ Object_prototype → searchTermsFor mood = Inherited mood.
Proof.
  intros H. unfold searchTermsFor.
  by rewrite getProperty_inherited by (by try apply MOOD_TO_SEARCH_TERMS_inherited).
Qed.

Lemma searchTermsFor_not_inherited mood :
  mood ∉ Object_prototype → ∃ terms, searchTermsFor mood = Just terms.
Proof.
  intros H. unfold searchTermsFor, getProperty.
  destruct (MOOD_TO_SEARCH_TERMS !! mood); simpl; [eauto |].
  rewrite bool_decide_eq_false_2 by done. simpl. eauto.
Qed.

Lemma searchTermsFor_length mood terms :
  searchTermsFor mood = Just terms → (0 < length terms)%nat.
Proof.
  intros [H|(_ & _ & ->)]%orElse_Just; [| simpl; lia].
  apply MOOD_TO_SEARCH_TERMS_length in H. lia.
Qed.

Lemma halfPoints_nonneg lowerText terms : (0 <= halfPoints lowerText terms)%Z.
Proof.
  induction terms as [|term terms IH]; simpl; [lia |].
  destruct (includes _ _); [destruct (String.eqb _ _) |]; lia.
Qed.

Lemma fold_left_relevanceStep lowerText terms r m :
  (fold_left (relevanceStep lowerText) terms (r, m)).1
  = (r + IZR (halfPoints lowerText terms) / 2)%R.
Proof.
  revert r m. induction terms as [|term terms IH]; intros r m; simpl.
  - lra.
  - destruct (includes _ _); [destruct (String.eqb _ _) |];
      rewrite IH, plus_IZR; lra.
Qed.

Lemma calculateNameRelevance_Just text mood terms :
  searchTermsFor mood = Just terms →
  calculateNameRelevance text mood = Ok (relevance terms text).
Proof.
  intros Hterms. unfold calculateNameRelevance, relevance. rewrite Hterms.
  destruct (truthy text); simpl; [| done].
  pose proof (fold_left_relevanceStep (toLowerCase (default "" text))
                terms 0 0) as H.
  destruct (fold_left _ _ _) as [relevanceScore matchCount].
  simpl in H. rewrite H. do 2 f_equal. lra.
Qed.

Lemma calculateNameRelevance_Inherited text mood key :
  searchTermsFor mood = Inherited key →
  calculateNameRelevance text mood
  = if truthy text
    then Throw (TypeError "searchTerms.forEach is not a function")
    else Ok 0%R.
Proof.
  intros Hterms. unfold calculateNameRelevance. rewrite Hterms.
  by destruct (truthy text).
Qed.

Lemma relevance_bounds terms text :
  (0 < length terms)%nat → (0 <= relevance terms text <= 1)%R.
Proof.
  intros Hlen. unfold relevance. destruct (truthy text); [| lra].
  split; [| apply Rmin_r].
  apply Rmin_glb; [| lra].
  apply Rmult_le_pos.
  - pose proof (halfPoints_nonneg (toLowerCase (default "" text)) terms) as H.
    apply IZR_le in H. lra.
  - left. by apply Rinv_0_lt_compat, lt_0_INR.
Qed.

Lemma calculatePlaylistScore_Just p mood terms :
  searchTermsFor mood = Just terms →
  calculatePlaylistScore p mood = Ok (scoreWith terms p).
Proof.
  intros Hterms.
  unfold calculatePlaylistScore, scoreWith, popularityTerm, trackCountTerm,
    nameTerm, descriptionTerm, imageTerm.
  rewrite !(calculateNameRelevance_Just _ _ _ Hterms).
  destruct ((30 <=? tracks_total p) && (tracks_total p <=? 100))%Z;
    [| destruct ((15 <=? tracks_total p) && (tracks_total p <=? 150))%Z];
    destruct (truthy (description p));
    destruct (images p) as [[|??]|]; f_equal; lra.
Qed.

Lemma calculatePlaylistScore_Inherited p mood key :
  searchTermsFor mood = Inherited key →
  calculatePlaylistScore p mood
  = if hasText p
    then Throw (TypeError "searchTerms.forEach is not a function")
    else Ok (popularityTerm p + trackCountTerm p + imageTerm p)%R.
Proof.
  intros Hterms.
  unfold calculatePlaylistScore, hasText, popularityTerm, trackCountTerm,
    imageTerm.
  rewrite !(calculateNameRelevance_Inherited _ _ _ Hterms).
  destruct (truthy (name p)); [done |].
  destruct (truthy (description p)); [done |]. simpl.
  destruct ((30 <=? tracks_total p) && (tracks_total p <=? 100))%Z;
    [| destruct ((15 <=? tracks_total p) && (tracks_total p <=? 150))%Z];
    destruct (images p) as [[|??]|]; f_equal; lra.
Qed.

Lemma ln_10_pos : (0 < ln 10)%R.
Proof. rewrite <- ln_1. apply ln_increasing; lra. Qed.

Lemma log10_increasing x y : (0 < x < y)%R → (log10 x < log10 y)%R.
Proof.
  intros [Hx Hxy]. unfold log10.
  apply Rmult_lt_compat_r; [apply Rinv_0_lt_compat, ln_10_pos |].
  by apply ln_increasing.
Qed.

Lemma log10_1 : log10 1 = 0%R.
Proof. unfold log10. rewrite ln_1. lra. Qed.

Lemma log10_10 : log10 10 = 1%R.
Proof. unfold log10. pose proof ln_10_pos. by field_simplify_eq; [| lra]. Qed.

Lemma log10_mult x y : (0 < x → 0 < y → log10 (x * y) = log10 x + log10 y)%R.
Proof.
  intros Hx Hy. unfold log10. rewrite ln_mult by done.
  pose proof ln_10_pos. field. lra.
Qed.

Lemma log10_nonneg x : (1 <= x)%R → (0 <= log10 x)%R.
Proof.
  intros [Hlt|<-]; [| by rewrite log10_1; lra].
  left. rewrite <- log10_1. apply log10_increasing. lra.
Qed.

Lemma popularityTerm_nonneg p : (0 <= popularityTerm p)%R.
Proof.
  unfold popularityTerm. apply Rmult_le_pos; [| lra].
  apply log10_nonneg. apply IZR_le. lia.
Qed.

Lemma trackCountTerm_bounds p : (0 <= trackCountTerm p <= 20)%R.
Proof.
  unfold trackCountTerm.
  destruct (_ && _); [lra |]. destruct (_ && _); lra.
Qed.

Lemma imageTerm_bounds p : (0 <= imageTerm p <= 5)%R.
Proof. unfold imageTerm. destruct (images p) as [[|??]|]; lra. Qed.

Lemma nameTerm_bounds terms p :
  (0 < length terms)%nat → (0 <= nameTerm terms p <= 30)%R.
Proof.
  intros Hlen. unfold nameTerm.
  pose proof (relevance_bounds terms (name p) Hlen). lra.
Qed.

Lemma descriptionTerm_bounds terms p :
  (0 < length terms)%nat → (0 <= descriptionTerm terms p <= 15)%R.
Proof.
  intros Hlen. unfold descriptionTerm.
  pose proof (relevance_bounds terms (description p) Hlen).
  destruct (truthy (description p)); lra.
Qed.

End scoring.

(** ** Selection *)

Section selection.
Import SpotifyService.

Lemma mapResult_Ok {A B} (f : A → Result B) (l : list A) :
  (∀ x, x ∈ l → ∃ y, f x = Ok y) →
  ∃ ys, mapResult f l = Ok ys ∧ Forall2 (fun x y => f x = Ok y) l ys.
Proof.
  induction l as [|x l IH]; intros Hall; simpl.
  - exists []. split; [done | constructor].
  - destruct (Hall x) as [y Hy]; [by left |].
    destruct IH as (ys & Hys & Hall2); [intros z Hz; apply Hall; by right |].
    exists (y :: ys). rewrite Hy, Hys. split; [done | by constructor].
Qed.

Lemma mapResult_Throw {A B} (f : A → Result B) (l : list A) x e :
  x ∈ l → f x = Throw e → ∃ e', mapResult f l = Throw e'.
Proof.
  induction l as [|z l IH]; intros Hx Hfx; [by apply elem_of_nil in Hx |].
  simpl. apply elem_of_cons in Hx as [<-|Hx].
  - rewrite Hfx. eauto.
  - destruct (f z); [| eauto].
    destruct (IH Hx Hfx) as [e' ->]. eauto.
Qed.

Lemma mapResult_total {A B} (f : A → B) (l : list A) :
  mapResult (fun x => Ok (f x)) l = Ok (map f l).
Proof. induction l as [|x l IH]; simpl; [done | by rewrite IH]. Qed.

Lemma mapResult_ext {A B} (f g : A → Result B) (l : list A) :
  (∀ x, x ∈ l → f x = g x) → mapResult f l = mapResult g l.
Proof.
  induction l as [|x l IH]; intros H; simpl; [done |].
  rewrite (H x) by (by left). rewrite IH; [done |].
  intros y Hy. apply H. by right.
Qed.

Lemma mapResult_inv {A B} (f : A → Result B) (l : list A) ys :
  mapResult f l = Ok ys → Forall2 (fun x y => f x = Ok y) l ys.
Proof.
  revert ys. induction l as [|x l IH]; intros ys; simpl.
  - intros [= <-]. constructor.
  - destruct (f x) as [y|] eqn:Hy; [| done].
    destruct (mapResult f l) as [ys'|]; [| done].
    intros [= <-]. constructor; [done | by apply IH].
Qed.

Lemma mapResult_all_Throw {A B} (f : A → Result B) (l : list A) e :
  l ≠ [] → (∀ x, f x = Throw e) → mapResult f l = Throw e.
Proof. destruct l as [|x l]; [done |]. intros _ H. simpl. by rewrite H. Qed.

Lemma scorePlaylists_Just playlists mood terms :
  searchTermsFor mood = Just terms →
  scorePlaylists playlists mood = Ok (scoredWith terms playlists).
Proof.
  intros Hterms. unfold scorePlaylists, scoredWith.
  rewrite <- mapResult_total. apply mapResult_ext.
  intros p _. by rewrite (calculatePlaylistScore_Just _ _ _ Hterms).
Qed.

Lemma elem_of_scoredWith s terms playlists :
  s ∈ scoredWith terms playlists →
  (playlist s ∈ playlists) ∧ score s = scoreWith terms (playlist s).
Proof.
  unfold scoredWith. intros (p & -> & Hp)%list_elem_of_fmap. by simpl.
Qed.

Lemma scoredWith_elem_of p terms playlists :
  p ∈ playlists →
  {| playlist := p; score := scoreWith terms p |} ∈ scoredWith terms playlists.
Proof. intros Hp. unfold scoredWith. apply list_elem_of_fmap. eauto. Qed.

Lemma selectBestPlaylist_empty mood :
  selectBestPlaylist [] mood
  = Throw (Error "No playlists available for selection").
Proof. reflexivity. Qed.

Lemma happy_terms :
  searchTermsFor "Happy"
  = Just ["happy"; "upbeat"; "cheerful"; "feel good"; "positive vibes"].
Proof. by vm_compute. Qed.

Lemma candidate12_score : calculatePlaylistScore candidate12 "Happy" = Ok 12%R.
Proof.
  rewrite (calculatePlaylistScore_Just _ _ _ happy_terms). f_equal.
  unfold scoreWith, popularityTerm, trackCountTerm, nameTerm, descriptionTerm,
    imageTerm, relevance.
  replace (halfPoints _ _) with 4%Z by (by vm_compute).
  replace (Z.max (followersOr1 candidate12) 1) with 1%Z by (by vm_compute).
  rewrite log10_1. simpl.
  rewrite Rmin_left; lra.
Qed.

Lemma candidate45_score : calculatePlaylistScore candidate45 "Happy" = Ok 45%R.
Proof.
  rewrite (calculatePlaylistScore_Just _ _ _ happy_terms). f_equal.
  unfold scoreWith, popularityTerm, trackCountTerm, nameTerm, descriptionTerm,
    imageTerm, relevance.
  replace (halfPoints _ _) with 0%Z by (by vm_compute).
  replace (Z.max (followersOr1 candidate45) 1) with 100%Z by (by vm_compute).
  replace 100%R with (10 * 10)%R by lra.
  rewrite log10_mult, log10_10 by lra. simpl.
  rewrite Rmin_left; lra.
Qed.

Lemma candidate30_score : calculatePlaylistScore candidate30 "Happy" = Ok 30%R.
Proof.
  rewrite (calculatePlaylistScore_Just _ _ _ happy_terms). f_equal.
  unfold scoreWith, popularityTerm, trackCountTerm, nameTerm, descriptionTerm,
    imageTerm, relevance.
  replace (halfPoints _ _) with 0%Z by (by vm_compute).
  replace (Z.max (followersOr1 candidate30) 1) with 10%Z by (by vm_compute).
  rewrite log10_10. simpl.
  rewrite Rmin_left; lra.
Qed.

Lemma selectBestPlaylist_Just playlists mood terms :
  searchTermsFor mood = Just terms →
  playlists ≠ [] →
  ∃ best,
    selectBestPlaylist playlists mood = Ok best ∧
    (best ∈ playlists) ∧
    ∀ p, p ∈ playlists → (scoreWith terms p <= scoreWith terms best)%R.
Proof.
  intros Hterms Hne. unfold selectBestPlaylist.
  rewrite (scorePlaylists_Just _ _ _ Hterms).
  destruct playlists as [|p0 rest]; [done |]. simpl length. simpl Nat.eqb.
  cbv iota.
  set (playlists := p0 :: rest) in *.
  destruct (sort byScoreDesc (scoredWith terms playlists))
    as [|best others] eqn:Hsort.
  { apply (f_equal length) in Hsort. rewrite sort_length in Hsort.
    unfold scoredWith in Hsort. by rewrite length_map in Hsort. }
  apply sort_head_max in Hsort as [Hbest Hmax].
  apply elem_of_scoredWith in Hbest as [Hin Hscore].
  exists (playlist best). split_and!; [done | done |].
  intros p Hp. rewrite <- Hscore.
  apply (Hmax _ (scoredWith_elem_of p terms playlists Hp)).
Qed.

Lemma selectBestPlaylist_Inherited playlists mood key p :
  searchTermsFor mood = Inherited key →
  p ∈ playlists → hasText p = true →
  ∃ e, selectBestPlaylist playlists mood = Throw e.
Proof.
  intros Hterms Hp Htext. unfold selectBestPlaylist.
  destruct playlists as [|p0 rest]; [by apply elem_of_nil in Hp |].
  simpl length. simpl Nat.eqb. cbv iota. unfold scorePlaylists.
  edestruct (mapResult_Throw
               (fun playlist =>
                  match calculatePlaylistScore playlist mood with
                  | Ok score => Ok {| playlist := playlist; score := score |}
                  | Throw e => Throw e
                  end) (p0 :: rest) p) as [e' ->]; [done | | eauto].
  rewrite (calculatePlaylistScore_Inherited _ _ _ Hterms), Htext. done.
Qed.

End selection.

Section inherited.
Import SpotifyService.


Lemma not_inherited_Just mood :
  mood ∉ Object_prototype ↔ ∃ terms, searchTermsFor mood = Just terms.
Proof.
  split; [apply searchTermsFor_not_inherited |].
  intros [terms Hterms] Hin.
  by rewrite (searchTermsFor_inherited _ Hin) in Hterms.
Qed.

End inherited.


(** C8: of two candidates that differ in nothing but the follower count,
    1,000 for one and 100,000 for the other, the second scores strictly
    higher under [calculatePlaylistScore] whenever a score is assigned: the
    popularity term is [10 * log10 (max followerCount 1)], 30 for the first
    and 50 for the second, and the other terms do not look at the follower
    count. A score is assigned to both for every mood that is not a name
    inherited from [Object.prototype]; for such a name it is assigned to
    both when the candidates have neither name nor description, and to
    neither otherwise. *)
Theorem calculatePlaylistScore_more_followers
    (p : SpotifyPlaylist) (mood : string) :
  let low := withFollowers p 1000 in
  let high := withFollowers p 100000 in
  popularityTerm low = (10 * log10 (Rmax 1000 1))%R ∧
  popularityTerm high = (10 * log10 (Rmax 100000 1))%R ∧
  popularityTerm low = 30%R ∧ popularityTerm high = 50%R ∧
  match SpotifyService.calculatePlaylistScore low mood,
        SpotifyService.calculatePlaylistScore high mood with
  | Ok slow, Ok shigh =>
      (slow < shigh)%R ∧
      (slow - popularityTerm low = shigh - popularityTerm high)%R
  | Throw elow, Throw ehigh =>
      elow = ehigh ∧ hasText p = true ∧ (mood ∈ Object_prototype)
  | _, _ => False
  end ∧
  ((mood ∉ Object_prototype) →
   ∃ slow shigh,
     SpotifyService.calculatePlaylistScore low mood = Ok slow ∧
     SpotifyService.calculatePlaylistScore high mood = Ok shigh ∧
     (slow < shigh)%R).
Proof.
  simpl.
  assert (Hlow : popularityTerm (withFollowers p 1000) = (log10 1000 * 10)%R)
    by reflexivity.
  assert (Hhigh : popularityTerm (withFollowers p 100000) = (log10 100000 * 10)%R)
    by reflexivity.
  assert (H1000 : log10 1000 = 3%R).
  { replace 1000%R with (10 * (10 * 10))%R by lra.
    rewrite !log10_mult, log10_10 by lra. lra. }
  assert (H100000 : log10 100000 = 5%R).
  { replace 100000%R with (10 * (10 * (10 * (10 * 10))))%R by lra.
    rewrite !log10_mult, log10_10 by lra. lra. }
  assert (Hwith : ∀ terms,
    (scoreWith terms (withFollowers p 1000)
     < scoreWith terms (withFollowers p 100000))%R ∧
    (scoreWith terms (withFollowers p 1000)
     - popularityTerm (withFollowers p 1000)
     = scoreWith terms (withFollowers p 100000)
       - popularityTerm (withFollowers p 100000))%R).
  { intros terms. unfold scoreWith.
    change (trackCountTerm (withFollowers p 100000)) with (trackCountTerm p).
    change (trackCountTerm (withFollowers p 1000)) with (trackCountTerm p).
    change (nameTerm terms (withFollowers p 100000)) with (nameTerm terms p).
    change (nameTerm terms (withFollowers p 1000)) with (nameTerm terms p).
    change (descriptionTerm terms (withFollowers p 100000))
      with (descriptionTerm terms p).
    change (descriptionTerm terms (withFollowers p 1000))
      with (descriptionTerm terms p).
    change (imageTerm (withFollowers p 100000)) with (imageTerm p).
    change (imageTerm (withFollowers p 1000)) with (imageTerm p).
    rewrite Hlow, Hhigh, H1000, H100000. split; lra. }
  rewrite !Rmax_left by lra.
  split_and!; [lra | lra | lra | lra | |].
  - destruct (SpotifyService.searchTermsFor mood) as [terms|key] eqn:Hterms.
    + rewrite !(calculatePlaylistScore_Just _ _ _ Hterms). apply Hwith.
    + rewrite !(calculatePlaylistScore_Inherited _ _ _ Hterms).
      change (hasText (withFollowers p 100000)) with (hasText p).
      change (hasText (withFollowers p 1000)) with (hasText p).
      destruct (hasText p) eqn:Htext.
      * split_and!; [done | done |].
        by apply orElse_Inherited in Hterms as (_ & ? & _).
      * change (trackCountTerm (withFollowers p 100000)) with (trackCountTerm p).
        change (trackCountTerm (withFollowers p 1000)) with (trackCountTerm p).
        change (imageTerm (withFollowers p 100000)) with (imageTerm p).
        change (imageTerm (withFollowers p 1000)) with (imageTerm p).
        rewrite Hlow, Hhigh, H1000, H100000. split; lra.
  - intros [terms Hterms]%searchTermsFor_not_inherited.
    rewrite !(calculatePlaylistScore_Just _ _ _ Hterms).
    eexists _, _. split_and!; [done | done |]. apply Hwith.
Qed.

(** For the mood [Happy] the candidate scoring 45 scores more with 100,000
    followers than with 1,000. *)
Lemma calculatePlaylistScore_more_followers_witness :
  ("Happy" ∉ Object_prototype) ∧
  ∃ slow shigh,
    SpotifyService.calculatePlaylistScore (withFollowers candidate45 1000)
      "Happy" = Ok slow ∧
    SpotifyService.calculatePlaylistScore (withFollowers candidate45 100000)
      "Happy" = Ok shigh ∧
    (slow < shigh)%R.
Proof.
  assert (H : "Happy" ∉ Object_prototype).
  { apply (bool_decide_unpack _). by vm_compute. }
  split; [exact H |].
  exact (proj2 (proj2 (proj2 (proj2 (proj2
           (calculatePlaylistScore_more_followers candidate45 "Happy"))))) H).
Defined.


(** X7: What [calculateNameRelevance] and [calculatePlaylistScore] do for
    every text, playlist and mood. When the search terms of the mood are an
    array (the mood is a key of the table, or it is not a name inherited
    from [Object.prototype]), the relevance lies between 0 and 1 and the
    score is the sum of the popularity, track count, name, description and
    image terms, of which the name term lies between 0 and 30 and the
    description term between 0 and 15; the score is at least the popularity
    term, which is not negative. Otherwise the relevance of a text that is
    not empty, and the score of a playlist that has a name or a
    description, is a [TypeError]. *)
Theorem calculatePlaylistScore_bounds
    (text : option string) (p : SpotifyPlaylist) (mood : string) :
  match SpotifyService.searchTermsFor mood with
  | Just terms =>
      (SpotifyService.MOOD_TO_SEARCH_TERMS !! mood = Some terms ∨
       ((mood ∉ Object_prototype) ∧ terms = [toLowerCase mood])) ∧
      SpotifyService.calculateNameRelevance text mood
      = Ok (relevance terms text) ∧
      (0 <= relevance terms text <= 1)%R ∧
      SpotifyService.calculatePlaylistScore p mood = Ok (scoreWith terms p) ∧
      (0 <= nameTerm terms p <= 30)%R ∧
      (0 <= descriptionTerm terms p <= 15)%R ∧
      (0 <= popularityTerm p <= scoreWith terms p)%R
  | Inherited _ =>
      (mood ∈ Object_prototype) ∧
      SpotifyService.calculateNameRelevance text mood
      = (if truthy text
         then Throw (TypeError "searchTerms.forEach is not a function")
         else Ok 0%R) ∧
      SpotifyService.calculatePlaylistScore p mood
      = (if hasText p
         then Throw (TypeError "searchTerms.forEach is not a function")
         else Ok (popularityTerm p + trackCountTerm p + imageTerm p)%R)
  end.
Proof.
  destruct (SpotifyService.searchTermsFor mood) as [terms|key] eqn:Hterms.
  - pose proof (searchTermsFor_length _ _ Hterms) as Hlen.
    pose proof (popularityTerm_nonneg p).
    pose proof (trackCountTerm_bounds p).
    pose proof (imageTerm_bounds p).
    pose proof (nameTerm_bounds terms p Hlen).
    pose proof (descriptionTerm_bounds terms p Hlen).
    pose proof (relevance_bounds terms text Hlen).
    split_and!; try lra.
    + apply orElse_Just in Hterms as [?|(_ & ? & ?)]; [by left | by right].
    + by apply calculateNameRelevance_Just.
    + by apply calculatePlaylistScore_Just.
    + unfold scoreWith. lra.
  - split_and!.
    + by apply orElse_Inherited in Hterms as (_ & ? & _).
    + by apply (calculateNameRelevance_Inherited _ _ key).
    + by apply (calculatePlaylistScore_Inherited _ _ key).
Qed.

Section followers.
Import SpotifyService.

Lemma popularityTerm_zero p :
  popularityTerm p = 0%R ↔
  followers p = None ∨ ∃ k, followers p = Some k ∧ (k <= 1)%Z.
Proof.
  unfold popularityTerm, followersOr1. split.
  - intros H.
    destruct (followers p) as [k|]; [| by left]. right. exists k.
    split; [done |].
    destruct (Z.le_gt_cases k 1) as [?|Hgt]; [done |]. exfalso.
    rewrite (proj2 (Z.eqb_neq k 0)), Z.max_l in H by lia.
    assert (0 < log10 (IZR k))%R; [| lra].
    rewrite <- log10_1. apply log10_increasing.
    split; [lra | apply IZR_lt; lia].
  - intros Hf.
    assert (Hmax : Z.max match followers p with
                         | Some k => if (k =? 0)%Z then 1 else k
                         | None => 1
                         end 1 = 1%Z).
    { destruct Hf as [->|(k & -> & Hk)]; [done |].
      destruct (Z.eqb_spec k 0); lia. }
    rewrite Hmax, log10_1. lra.
Qed.

End followers.

(** X8: The follower count adds nothing to the score of a playlist exactly
    when it is missing or at most 1: the score is then the sum of the four
    other terms, and otherwise it is strictly more. *)
Theorem calculatePlaylistScore_followers
    (p : SpotifyPlaylist) (mood : string) (terms : list string) :
  SpotifyService.searchTermsFor mood = Just terms →
  let others := (trackCountTerm p + nameTerm terms p + descriptionTerm terms p
                 + imageTerm p)%R in
  ∃ s,
    SpotifyService.calculatePlaylistScore p mood = Ok s ∧
    (others <= s)%R ∧
    (s = others ↔
     followers p = None ∨ ∃ k, followers p = Some k ∧ (k <= 1)%Z).
Proof.
  intros Hterms others. exists (scoreWith terms p).
  split; [by apply calculatePlaylistScore_Just |].
  pose proof (popularityTerm_nonneg p).
  unfold scoreWith. fold others. split; [unfold others; lra |].
  rewrite <- popularityTerm_zero. unfold others. split; intros; lra.
Qed.

(** The candidate scoring 12 has no follower information. *)
Lemma calculatePlaylistScore_followers_witness :
  SpotifyService.searchTermsFor "Happy"
  = Just ["happy"; "upbeat"; "cheerful"; "feel good"; "positive vibes"] ∧
  followers candidate12 = None ∧
  ∃ s, SpotifyService.calculatePlaylistScore candidate12 "Happy" = Ok s ∧
       s = (trackCountTerm candidate12
            + nameTerm ["happy"; "upbeat"; "cheerful"; "feel good";
                        "positive vibes"] candidate12
            + descriptionTerm ["happy"; "upbeat"; "cheerful"; "feel good";
                               "positive vibes"] candidate12
            + imageTerm candidate12)%R.
Proof.
  split_and!; [exact happy_terms | done |].
  destruct (calculatePlaylistScore_followers candidate12 "Happy" _ happy_terms)
    as (s & Hs & _ & Hiff).
  exists s. split; [done |]. apply Hiff. by left.
Defined.

(** ** Quality filter *)

Section quality.
Import SpotifyService.

Lemma quality_spec p :
  quality p = true ↔
  (15 <= tracks_total p <= 200)%Z ∧
  ∃ n, name p = Some n ∧ n ≠ "" ∧ ¬ Substring "test" (toLowerCase n).
Proof.
  unfold quality. rewrite !andb_true_iff, negb_true_iff, !Z.leb_le.
  rewrite <- not_true_iff_false, includes_spec.
  split.
  - intros [[[??] Hname] Htest].
    destruct (truthy_Some _ Hname) as (n & Hn & ?).
    rewrite Hn in Htest. simpl in Htest. eauto 10.
  - intros [[??] (n & Hn & Hne & Htest)]. rewrite Hn. simpl.
    split_and!; try done. by destruct n.
Qed.

End quality.

(** C9: the quality filter keeps exactly the playlists that have between 15
    and 200 tracks and a non-empty name whose lowercased form does not
    contain [test]; a playlist whose lowercased name contains [test] is
    dropped whatever its other attributes are. *)
Theorem filterPlaylistsByQuality_drops_test_names
    (playlists : list SpotifyPlaylist) (p : SpotifyPlaylist) (n : string) :
  (p ∈ SpotifyService.filterPlaylistsByQuality playlists ↔
   (p ∈ playlists) ∧ (15 <= tracks_total p <= 200)%Z ∧
   ∃ n, name p = Some n ∧ n ≠ "" ∧ ¬ Substring "test" (toLowerCase n)) ∧
  (name p = Some n ∧ Substring "test" (toLowerCase n) →
   p ∉ SpotifyService.filterPlaylistsByQuality playlists).
Proof.
  assert (Hiff : p ∈ SpotifyService.filterPlaylistsByQuality playlists ↔
    (p ∈ playlists) ∧ (15 <= tracks_total p <= 200)%Z ∧
    ∃ n, name p = Some n ∧ n ≠ "" ∧ ¬ Substring "test" (toLowerCase n)).
  { unfold SpotifyService.filterPlaylistsByQuality.
    rewrite list_elem_of_In, filter_In, <- list_elem_of_In, quality_spec.
    tauto. }
  split; [done |].
  intros [Hn Htest] (_ & _ & n' & Hn' & _ & Hno)%Hiff.
  rewrite Hn in Hn'. injection Hn' as <-. done.
Qed.

(** A playlist named [Test Drive] with 50 tracks is dropped. *)
Lemma filterPlaylistsByQuality_drops_test_names_witness :
  let p := {| id := "t"; name := Some "Test Drive"; description := None;
              external_urls := ""; images := None; tracks_total := 50%Z;
              followers := Some 100000%Z |} in
  (name p = Some "Test Drive" ∧ Substring "test" (toLowerCase "Test Drive")) ∧
  p ∉ SpotifyService.filterPlaylistsByQuality [p].
Proof.
  intros p.
  assert (H : name p = Some "Test Drive"
              ∧ Substring "test" (toLowerCase "Test Drive")).
  { split; [done |]. by exists "", " drive". }
  split; [exact H |].
  exact (proj2 (filterPlaylistsByQuality_drops_test_names [p] p "Test Drive") H).
Defined.

(** ** Keyword expansion *)

(** C4, as the code has it: for a mood that is neither a key of
    [MOOD_TO_SEARCH_TERMS] nor a name inherited from [Object.prototype],
    [SpotifyService] searches for (and scores against) the single term that
    is the mood lowercased; for a mood whose lowercased form is neither a
    key of its table nor such a name, [getMoodKeywords] of
    [SpotifyServiceStatic] returns the three fixed keywords [music],
    [playlist] and [good vibes]. Both are plain arrays, and scoring against
    the single term throws nothing. *)
Theorem unmapped_mood_keywords (mood : string) :
  (SpotifyService.MOOD_TO_SEARCH_TERMS !! mood = None →
   (mood ∉ Object_prototype) →
   SpotifyService.searchTermsFor mood = Just [toLowerCase mood] ∧
   termsToSearch mood = [toLowerCase mood] ∧
   ∀ text, SpotifyService.calculateNameRelevance text mood
           = Ok (relevance [toLowerCase mood] text)) ∧
  (SpotifyServiceStatic.moodMap !! toLowerCase mood = None →
   (toLowerCase mood ∉ Object_prototype) →
   SpotifyServiceStatic.getMoodKeywords mood
   = Just ["music"; "playlist"; "good vibes"]).
Proof.
  split.
  - intros Hnone Hmood.
    assert (Hterms : SpotifyService.searchTermsFor mood
                     = Just [toLowerCase mood]).
    { unfold SpotifyService.searchTermsFor.
      by rewrite getProperty_undefined. }
    split_and!; [done | |].
    + unfold termsToSearch. by rewrite Hterms.
    + intros text. by apply calculateNameRelevance_Just.
  - intros Hnone Hmood. unfold SpotifyServiceStatic.getMoodKeywords.
    by rewrite getProperty_undefined.
Qed.

(** The mood [Bored] is in neither table, and it is not a name that an
    object inherits. *)
Lemma unmapped_mood_keywords_witness :
  SpotifyService.MOOD_TO_SEARCH_TERMS !! "Bored" = None ∧
  ("Bored" ∉ Object_prototype) ∧
  SpotifyServiceStatic.moodMap !! toLowerCase "Bored" = None ∧
  (toLowerCase "Bored" ∉ Object_prototype) ∧
  SpotifyService.searchTermsFor "Bored" = Just ["bored"] ∧
  SpotifyServiceStatic.getMoodKeywords "Bored"
  = Just ["music"; "playlist"; "good vibes"].
Proof.
  assert (H1 : SpotifyService.MOOD_TO_SEARCH_TERMS !! "Bored" = None)
    by (vm_compute; reflexivity).
  assert (H2 : "Bored" ∉ Object_prototype).
  { apply (bool_decide_unpack _). by vm_compute. }
  assert (H3 : SpotifyServiceStatic.moodMap !! toLowerCase "Bored" = None)
    by (vm_compute; reflexivity).
  assert (H4 : toLowerCase "Bored" ∉ Object_prototype).
  { apply (bool_decide_unpack _). by vm_compute. }
  split_and!; [exact H1 | exact H2 | exact H3 | exact H4 | |].
  - exact (proj1 (proj1 (unmapped_mood_keywords "Bored") H1 H2)).
  - exact (proj2 (unmapped_mood_keywords "Bored") H3 H4).
Defined.

(** C4 as stated fails for [getMoodKeywords]: [Bored] is not a key of its
    table, and the expansion has three elements, none of them [bored]. *)
Lemma getMoodKeywords_unmapped_counterexample :
  ¬ (∀ mood,
       SpotifyServiceStatic.moodMap !! mood = None →
       SpotifyServiceStatic.moodMap !! toLowerCase mood = None →
       SpotifyServiceStatic.getMoodKeywords mood = Just [toLowerCase mood]).
Proof.
  intros H. specialize (H "Bored").
  assert (H1 : SpotifyServiceStatic.moodMap !! "Bored" = None)
    by (vm_compute; reflexivity).
  assert (H2 : SpotifyServiceStatic.moodMap !! toLowerCase "Bored" = None)
    by (vm_compute; reflexivity).
  specialize (H H1 H2). vm_compute in H. discriminate H.
Qed.

(** ** Searching *)

Section searching.
Import SpotifyService.

Lemma searchTerms_loop_usable env accessToken terms allPlaylists log :
  Forall usable (responsesOf env accessToken terms log) →
  searchTerms_loop env accessToken terms allPlaylists log
  = (Ok (allPlaylists
         ++ concat (map contribution (responsesOf env accessToken terms log))),
     log ++ requestsFor accessToken terms).
Proof.
  revert allPlaylists log.
  induction terms as [|term terms IH]; intros allPlaylists log Husable.
  - simpl. unfold ret. by rewrite !app_nil_r.
  - simpl in Husable. apply Forall_cons in Husable as [Hfirst Hrest].
    simpl. unfold bind at 1, fetch.
    destruct (network env log {| q := term; bearer := accessToken |})
      as [response|]; [| done].
    simpl in Hfirst |- *.
    destruct (ok response) eqn:Hok; simpl.
    + destruct Hfirst as [items Hitems]; [done |].
      unfold json_items, bind, ret. rewrite Hitems. simpl.
      rewrite IH by done. by rewrite <- !app_assoc.
    + rewrite IH by done. by rewrite <- !app_assoc.
Qed.

Lemma searchPlaylistsByMood_never_throws env mood accessToken log :
  ∃ playlists log',
    searchPlaylistsByMood env mood accessToken log = (Ok playlists, log').
Proof.
  unfold searchPlaylistsByMood, try_catch, bind, ret, throw, lift.
  destruct (searchTermsFor mood) as [searchTerms|key]; [| eauto].
  destruct (searchTerms_loop _ _ _ _ _) as [[allPlaylists|e] log']; [| eauto].
  destruct (nonNull allPlaylists); eauto.
Qed.

Lemma searchPlaylistsByMood_Inherited env mood accessToken log key :
  searchTermsFor mood = Inherited key →
  searchPlaylistsByMood env mood accessToken log = (Ok [], log).
Proof.
  intros Hterms. unfold searchPlaylistsByMood, try_catch, throw, ret.
  by rewrite Hterms.
Qed.

Lemma searchPlaylistsByMood_nonempty env mood accessToken log playlists log' :
  searchPlaylistsByMood env mood accessToken log = (Ok playlists, log') →
  playlists ≠ [] →
  ∃ terms, searchTermsFor mood = Just terms.
Proof.
  intros Hsearch Hne.
  destruct (searchTermsFor mood) as [terms|key] eqn:Hterms; [eauto |].
  rewrite (searchPlaylistsByMood_Inherited _ _ _ _ _ Hterms) in Hsearch.
  by injection Hsearch as <- _.
Qed.

Lemma searchPlaylistsByMood_usable env mood accessToken log :
  let terms := termsToSearch mood in
  let responses := responsesOf env accessToken terms log in
  Forall usable responses →
  searchPlaylistsByMood env mood accessToken log
  = (Ok (match nonNull (concat (map contribution responses)) with
         | Ok playlists =>
             filterPlaylistsByQuality (removeDuplicatePlaylists playlists)
         | Throw _ => []
         end),
     log ++ requestsFor accessToken terms).
Proof.
  intros terms responses Husable. subst responses terms.
  unfold termsToSearch in *.
  destruct (searchTermsFor mood) as [searchTerms|key] eqn:Hterms.
  - unfold searchPlaylistsByMood, try_catch, bind, ret, lift.
    rewrite Hterms, searchTerms_loop_usable by done. simpl.
    by destruct (nonNull _).
  - rewrite (searchPlaylistsByMood_Inherited _ _ _ _ _ Hterms). simpl.
    by rewrite app_nil_r.
Qed.

Lemma getPlaylistForMood_try_unauthenticated env mood log :
  truthy (authToken env log) = false →
  getPlaylistForMood_try env mood log
  = (Throw (Error "Authentication required"), log).
Proof.
  intros H. unfold getPlaylistForMood_try, bind, getAccessToken, throw.
  by rewrite H.
Qed.

Lemma getPlaylistForMood_try_empty env mood log log' :
  truthy (authToken env log) = true →
  searchPlaylistsByMood env mood (default "" (authToken env log)) log
  = (Ok [], log') →
  getPlaylistForMood_try env mood log
  = (Throw (Error "No playlists found for this mood"), log').
Proof.
  intros Htok Hsearch.
  unfold getPlaylistForMood_try, bind, getAccessToken, throw.
  rewrite Htok. simpl. by rewrite Hsearch.
Qed.

Lemma getPlaylistForMood_try_nonempty env mood log playlists log' :
  truthy (authToken env log) = true →
  searchPlaylistsByMood env mood (default "" (authToken env log)) log
  = (Ok playlists, log') →
  playlists ≠ [] →
  ∃ terms best,
    searchTermsFor mood = Just terms ∧
    selectBestPlaylist playlists mood = Ok best ∧
    (best ∈ playlists) ∧
    (∀ p, p ∈ playlists → (scoreWith terms p <= scoreWith terms best)%R) ∧
    getPlaylistForMood_try env mood log = (Ok (id best), log').
Proof.
  intros Htok Hsearch Hne.
  destruct (searchPlaylistsByMood_nonempty _ _ _ _ _ _ Hsearch Hne)
    as [terms Hterms].
  destruct (selectBestPlaylist_Just playlists mood terms Hterms Hne)
    as (best & Hsel & Hin & Hmax).
  exists terms, best. split_and!; try done.
  unfold getPlaylistForMood_try, bind, getAccessToken, throw, lift, ret.
  rewrite Htok. simpl. rewrite Hsearch.
  destruct playlists; [done |]. simpl. by rewrite Hsel.
Qed.

Lemma getPlaylistForMood_reworded env mood log :
  getPlaylistForMood env mood log
  = (reworded (getPlaylistForMood_try env mood log).1,
     (getPlaylistForMood_try env mood log).2).
Proof.
  unfold getPlaylistForMood, try_catch, throw.
  destruct (getPlaylistForMood_try env mood log) as [[playlistId|e] log'];
    simpl; [done |].
  by destruct (String.eqb _ _).
Qed.

End searching.

(** C5: without an access token [getPlaylistForMood] fails with the message
    that asks the user to authenticate, and the log of search requests is
    what it was: no request is issued. With a token the call never fails
    with that message, so it tells this condition apart from the generic
    failure. *)
Theorem getPlaylistForMood_authentication_required
    (env : Env) (mood : string) (log : list Request) :
  (truthy (authToken env log) = false →
   SpotifyService.getPlaylistForMood env mood log
   = (Throw (Error "Please authenticate with Spotify to get personalized playlists"),
      log)) ∧
  (truthy (authToken env log) = true →
   (SpotifyService.getPlaylistForMood env mood log).1
   ≠ Throw (Error "Please authenticate with Spotify to get personalized playlists")).
Proof.
  rewrite getPlaylistForMood_reworded. split; intros Htok.
  - by rewrite getPlaylistForMood_try_unauthenticated.
  - destruct (searchPlaylistsByMood_never_throws env mood
                (default "" (authToken env log)) log)
      as (playlists & log' & Hsearch).
    destruct playlists as [|p0 rest].
    + by rewrite (getPlaylistForMood_try_empty _ _ _ _ Htok Hsearch).
    + destruct (getPlaylistForMood_try_nonempty _ _ _ _ _ Htok Hsearch)
        as (terms & best & _ & _ & _ & _ & ->); done.
Qed.

(** Signed out, the call fails with the authentication message and the log
    stays empty. *)
Lemma getPlaylistForMood_authentication_required_witness :
  truthy (authToken signedOut []) = false ∧
  SpotifyService.getPlaylistForMood signedOut "Happy" []
  = (Throw (Error "Please authenticate with Spotify to get personalized playlists"),
     []).
Proof.
  split; [reflexivity |].
  exact (proj1 (getPlaylistForMood_authentication_required signedOut "Happy" [])
           eq_refl).
Defined.

(** C6, as the code has it: [searchPlaylistsByMood] never throws. When no
    request is rejected and every successful answer carries an array of
    items, it issues one request for each term it searches and returns the
    filtered, de-duplicated merge of what the answers add (nothing at all
    when the merge holds a [null] entry); an answer with a non-success
    status does not stop the loop and adds nothing. The caller sees the
    outcome only through the number of playlists: with none the [try] block
    of [getPlaylistForMood] raises the no-playlists error, which its [catch]
    turns into the generic failure; otherwise the call returns the
    identifier of a playlist found. *)
Theorem searchPlaylistsByMood_omits_failed_requests
    (env : Env) (mood accessToken : string) (log : list Request) :
  let terms := termsToSearch mood in
  let responses := responsesOf env accessToken terms log in
  (∃ playlists log',
     SpotifyService.searchPlaylistsByMood env mood accessToken log
     = (Ok playlists, log')) ∧
  (Forall usable responses →
   SpotifyService.searchPlaylistsByMood env mood accessToken log
   = (Ok (match nonNull (concat (map contribution responses)) with
          | Ok playlists =>
              SpotifyService.filterPlaylistsByQuality
                (SpotifyService.removeDuplicatePlaylists playlists)
          | Throw _ => []
          end),
      log ++ requestsFor accessToken terms)) ∧
  (∀ response,
     ok response = false →
     usable (Some response) ∧ contribution (Some response) = []) ∧
  (truthy (authToken env log) = true →
   accessToken = default "" (authToken env log) →
   ∀ playlists log',
     SpotifyService.searchPlaylistsByMood env mood accessToken log
     = (Ok playlists, log') →
     match playlists with
     | [] =>
         SpotifyService.getPlaylistForMood_try env mood log
         = (Throw (Error "No playlists found for this mood"), log') ∧
         SpotifyService.getPlaylistForMood env mood log
         = (Throw (Error "Failed to get playlist for mood"), log')
     | _ :: _ =>
         ∃ best, (best ∈ playlists) ∧
           SpotifyService.getPlaylistForMood env mood log
           = (Ok (id best), log')
     end).
Proof.
  intros terms responses. split_and!.
  - apply searchPlaylistsByMood_never_throws.
  - apply searchPlaylistsByMood_usable.
  - intros response Hok. simpl. rewrite Hok. split; [by intros ? | done].
  - intros Htok -> playlists log' Hsearch.
    rewrite getPlaylistForMood_reworded.
    destruct playlists as [|p0 rest].
    + by rewrite (getPlaylistForMood_try_empty _ _ _ _ Htok Hsearch).
    + destruct (getPlaylistForMood_try_nonempty _ _ _ _ _ Htok Hsearch)
        as (terms' & best & _ & _ & Hin & _ & ->); [done |].
      by exists best.
Qed.

(** The search for [happy] answers 500; the playlists of the two other
    searches are returned all the same. *)
Lemma searchPlaylistsByMood_omits_failed_requests_witness :
  Forall usable (responsesOf flakyCatalogue "token" (termsToSearch "Happy") []) ∧
  SpotifyService.searchPlaylistsByMood flakyCatalogue "Happy" "token" []
  = (Ok [candidate45; candidate30],
     [{| q := "happy"; bearer := "token" |};
      {| q := "upbeat"; bearer := "token" |};
      {| q := "cheerful"; bearer := "token" |}]).
Proof.
  assert (H : Forall usable
    (responsesOf flakyCatalogue "token" (termsToSearch "Happy") [])).
  { repeat constructor; simpl; eauto; discriminate. }
  split; [exact H |].
  rewrite (proj1 (proj2 (searchPlaylistsByMood_omits_failed_requests
                           flakyCatalogue "Happy" "token" [])) H).
  reflexivity.
Defined.

(** C6 as stated fails where it says how the failures surface: when every
    search answers 500, so that no candidate is left, what the caller of
    [getPlaylistForMood] gets is not a no-candidates error but the generic
    failure. *)
Lemma getPlaylistForMood_failed_requests_counterexample :
  ¬ (∀ env mood log,
       truthy (authToken env log) = true →
       Forall failed
         (responsesOf env (default "" (authToken env log))
            (termsToSearch mood) log) →
       ∃ e,
         (SpotifyService.getPlaylistForMood env mood log).1 = Throw e ∧
         (message e = "No playlists found for this mood" ∨
          message e = "No playlists available for selection")).
Proof.
  intros H.
  destruct (H failingCatalogue "Happy" []) as (e & He & Hmessage).
  - reflexivity.
  - repeat constructor; by eexists.
  - assert (Hrun : (SpotifyService.getPlaylistForMood failingCatalogue
                      "Happy" []).1
                   = Throw (Error "Failed to get playlist for mood"))
      by reflexivity.
    rewrite Hrun in He. injection He as <-.
    by destruct Hmessage.
Qed.

(** ** The static variant *)

Section static.
Import SpotifyServiceStatic.

Lemma searchKeywords_loop_never_throws env ACCESS_TOKEN keywords allPlaylists log :
  ∃ playlists log',
    searchKeywords_loop env ACCESS_TOKEN keywords allPlaylists log
    = (Ok playlists, log').
Proof.
  revert allPlaylists log.
  induction keywords as [|keyword keywords IH]; intros allPlaylists log; simpl.
  - unfold ret. eauto.
  - unfold bind at 1, try_catch, ret.
    destruct (searchKeyword_try env ACCESS_TOKEN keyword log)
      as [[pushed|e] log']; apply IH.
Qed.

Lemma static_getPlaylistForMood_empty env ACCESS_TOKEN mood log log' :
  ACCESS_TOKEN ≠ PLACEHOLDER_TOKEN →
  searchPlaylistsByMood env ACCESS_TOKEN (getMoodKeywords mood) log
  = (Ok [], log') →
  getPlaylistForMood env ACCESS_TOKEN mood log = (Ok None, log').
Proof.
  intros Htok Hsearch. unfold getPlaylistForMood, try_catch, bind, ret.
  rewrite (proj2 (String.eqb_neq _ _) Htok). by rewrite Hsearch.
Qed.

Lemma static_getPlaylistForMood_never_throws env ACCESS_TOKEN mood log :
  ∃ result log',
    getPlaylistForMood env ACCESS_TOKEN mood log = (Ok result, log').
Proof.
  unfold getPlaylistForMood, try_catch, ret.
  destruct (String.eqb _ _); [eauto |].
  destruct (bind _ _ log) as [[result|e] log']; eauto.
Qed.

End static.

(** C2, as the code has it: on the empty sequence [selectBestPlaylist] of
    [SpotifyService] throws its no-playlists error. When the search of
    [SpotifyService.getPlaylistForMood] yields no playlist, its [try] block
    throws the no-playlists-found error and the call itself fails with the
    generic message that every failure other than a missing token gets.
    [SpotifyServiceStatic.getPlaylistForMood] never throws; when its search
    yields no playlist it returns [null]. *)
Theorem no_candidates_outcomes
    (env : Env) (mood ACCESS_TOKEN : string) (log log' : list Request) :
  SpotifyService.selectBestPlaylist [] mood
  = Throw (Error "No playlists available for selection") ∧
  (truthy (authToken env log) = true →
   SpotifyService.searchPlaylistsByMood env mood
     (default "" (authToken env log)) log = (Ok [], log') →
   SpotifyService.getPlaylistForMood_try env mood log
   = (Throw (Error "No playlists found for this mood"), log') ∧
   SpotifyService.getPlaylistForMood env mood log
   = (Throw (Error "Failed to get playlist for mood"), log')) ∧
  (ACCESS_TOKEN ≠ SpotifyServiceStatic.PLACEHOLDER_TOKEN →
   SpotifyServiceStatic.searchPlaylistsByMood env ACCESS_TOKEN
     (SpotifyServiceStatic.getMoodKeywords mood) log = (Ok [], log') →
   SpotifyServiceStatic.getPlaylistForMood env ACCESS_TOKEN mood log
   = (Ok None, log')) ∧
  (∃ result log'',
     SpotifyServiceStatic.getPlaylistForMood env ACCESS_TOKEN mood log
     = (Ok result, log'')).
Proof.
  split_and!.
  - apply selectBestPlaylist_empty.
  - intros Htok Hsearch.
    pose proof (getPlaylistForMood_try_empty _ _ _ _ Htok Hsearch) as Htry.
    split; [done |].
    by rewrite getPlaylistForMood_reworded, Htry.
  - apply static_getPlaylistForMood_empty.
  - apply static_getPlaylistForMood_never_throws.
Qed.

(** Against the empty catalogue both entry points find nothing: the first
    fails with the generic message after three requests. *)
Lemma no_candidates_outcomes_witness :
  truthy (authToken emptyCatalogue []) = true ∧
  SpotifyService.searchPlaylistsByMood emptyCatalogue "Happy" "token" []
  = (Ok [], requestsFor "token" ["happy"; "upbeat"; "cheerful"]) ∧
  SpotifyService.getPlaylistForMood emptyCatalogue "Happy" []
  = (Throw (Error "Failed to get playlist for mood"),
     requestsFor "token" ["happy"; "upbeat"; "cheerful"]).
Proof.
  assert (Hsearch :
    SpotifyService.searchPlaylistsByMood emptyCatalogue "Happy"
      (default "" (authToken emptyCatalogue [])) []
    = (Ok [], requestsFor "token" ["happy"; "upbeat"; "cheerful"]))
    by reflexivity.
  split_and!; [reflexivity | exact Hsearch |].
  exact (proj2 (proj1 (proj2 (no_candidates_outcomes emptyCatalogue "Happy"
                                "token" [] _)) eq_refl Hsearch)).
Defined.

(** C2 as stated fails for [SpotifyServiceStatic.getPlaylistForMood]: with
    a token set and a catalogue that has nothing for [Happy], the search
    yields no playlist and the call returns [null] instead of failing. *)
Lemma static_getPlaylistForMood_null_counterexample :
  ¬ (∀ env ACCESS_TOKEN mood log,
       ACCESS_TOKEN ≠ SpotifyServiceStatic.PLACEHOLDER_TOKEN →
       (SpotifyServiceStatic.searchPlaylistsByMood env ACCESS_TOKEN
          (SpotifyServiceStatic.getMoodKeywords mood) log).1 = Ok [] →
       ∃ e, (SpotifyServiceStatic.getPlaylistForMood env ACCESS_TOKEN mood log).1
            = Throw e).
Proof.
  intros H.
  destruct (H emptyCatalogue "token" "Happy" []) as [e He].
  - vm_compute. discriminate.
  - reflexivity.
  - vm_compute in He. discriminate He.
Qed.

(** ** Several playlists *)

Section multiple.
Import SpotifyService.

Lemma slice0_take {A} (k : Z) (l : list A) :
  (0 <= k)%Z → slice0 (Z.min k (Z.of_nat (length l))) l = take (Z.to_nat k) l.
Proof.
  intros Hk. unfold slice0.
  rewrite (proj2 (Z.ltb_ge _ 0)) by lia. cbv zeta.
  destruct (Z.le_ge_cases k (Z.of_nat (length l))) as [Hle|Hge].
  - f_equal. lia.
  - rewrite !take_ge by lia. done.
Qed.

Lemma scoredWith_scores terms playlists mood :
  searchTermsFor mood = Just terms →
  Forall2 (fun p s => playlist s = p ∧
                      calculatePlaylistScore p mood = Ok (score s))
          playlists (scoredWith terms playlists).
Proof.
  intros Hterms. induction playlists as [|p playlists IH]; simpl;
    constructor; [| done].
  split; [done |]. by apply calculatePlaylistScore_Just.
Qed.

Lemma scoredWith_length terms playlists :
  length (scoredWith terms playlists) = length playlists.
Proof. unfold scoredWith. by rewrite length_map. Qed.

Lemma getMultiplePlaylistsForMood_scored env mood count log playlists log' terms :
  truthy (authToken env log) = true →
  searchPlaylistsByMood env mood (default "" (authToken env log)) log
  = (Ok playlists, log') →
  playlists ≠ [] →
  searchTermsFor mood = Just terms →
  let sorted := sort byScoreDesc (scoredWith terms playlists) in
  getMultiplePlaylistsForMood env mood count log
  = (Ok (map (fun item => id (playlist item))
           (slice0 (Z.min (default 3%Z count) (Z.of_nat (length sorted)))
                   sorted)), log').
Proof.
  intros Htok Hsearch Hne Hterms sorted.
  unfold getMultiplePlaylistsForMood, try_catch, bind, getAccessToken, ret,
    lift.
  rewrite Htok. simpl. rewrite Hsearch.
  destruct playlists as [|p0 rest]; [done |]. simpl Nat.eqb. cbv iota.
  by rewrite (scorePlaylists_Just _ _ _ Hterms).
Qed.

(** X1: When the search finds candidates and [count] is not negative, the
    call returns the identifiers of the first [count] candidates (all of
    them when there are fewer) of the list sorted by descending score. *)
Lemma getMultiplePlaylistsForMood_top env mood count log playlists log' :
  truthy (authToken env log) = true →
  searchPlaylistsByMood env mood (default "" (authToken env log)) log
  = (Ok playlists, log') →
  playlists ≠ [] →
  (0 <= default 3 count)%Z →
  ∃ scoredPlaylists,
    scorePlaylists playlists mood = Ok scoredPlaylists ∧
    Forall2 (fun p s => playlist s = p ∧
                        calculatePlaylistScore p mood = Ok (score s))
            playlists scoredPlaylists ∧
    let sorted := sort byScoreDesc scoredPlaylists in
    let top := take (Z.to_nat (default 3%Z count)) sorted in
    getMultiplePlaylistsForMood env mood count log
    = (Ok (map (fun item => id (playlist item)) top), log') ∧
    length top = Nat.min (Z.to_nat (default 3%Z count)) (length playlists) ∧
    StronglySorted scoreGe top ∧
    sorted ≡ₚ scoredPlaylists ∧
    ∀ a b, a ∈ top → b ∈ drop (Z.to_nat (default 3%Z count)) sorted →
           (score b <= score a)%R.
Proof.
  intros Htok Hsearch Hne Hcount.
  destruct (searchPlaylistsByMood_nonempty _ _ _ _ _ _ Hsearch Hne)
    as [terms Hterms].
  exists (scoredWith terms playlists).
  split; [by apply scorePlaylists_Just |].
  split; [by apply scoredWith_scores |].
  intros sorted top.
  pose proof (sort_descending (scoredWith terms playlists)) as Hdesc.
  fold sorted in Hdesc.
  split_and!.
  - rewrite (getMultiplePlaylistsForMood_scored _ _ _ _ _ _ _ Htok Hsearch
               Hne Hterms).
    by rewrite slice0_take.
  - unfold top. rewrite length_take. unfold sorted.
    by rewrite sort_length, scoredWith_length.
  - by apply take_descending.
  - apply sort_Permutation.
  - intros a b Ha Hb.
    apply (descending_app top (drop (Z.to_nat (default 3%Z count)) sorted));
      [| done | done].
    unfold top. by rewrite take_drop.
Qed.

Lemma searchTerms_loop_stateless env accessToken terms allPlaylists log1 log2 :
  stateless env →
  (searchTerms_loop env accessToken terms allPlaylists log1).1
  = (searchTerms_loop env accessToken terms allPlaylists log2).1.
Proof.
  intros [_ Hnet]. revert allPlaylists log1 log2.
  induction terms as [|term terms IH]; intros allPlaylists log1 log2; simpl;
    [done |].
  unfold bind at 1 3, fetch.
  rewrite (Hnet log1 log2).
  destruct (network env log2 _) as [response|]; [| done].
  destruct (ok response); simpl; [| apply IH].
  unfold json_items, bind, ret, throw.
  destruct (body response); [apply IH | done].
Qed.

Lemma searchPlaylistsByMood_stateless env mood accessToken log1 log2 :
  stateless env →
  (searchPlaylistsByMood env mood accessToken log1).1
  = (searchPlaylistsByMood env mood accessToken log2).1.
Proof.
  intros Henv. unfold searchPlaylistsByMood, try_catch, bind, ret, throw, lift.
  destruct (searchTermsFor mood) as [searchTerms|key]; [| done].
  pose proof (searchTerms_loop_stateless env accessToken
                (take 3 searchTerms) [] log1 log2 Henv) as H.
  destruct (searchTerms_loop _ _ _ _ log1) as [[all1|e1] log1'],
           (searchTerms_loop _ _ _ _ log2) as [[all2|e2] log2'];
    simpl in *; try congruence.
  injection H as ->. by destruct (nonNull all2).
Qed.

(** X3: In a stateless world the fallback of [getMultiplePlaylistsForMood]
    cannot succeed: the search that [getPlaylistForMood] repeats yields
    what the first one yielded. *)
Lemma getMultiplePlaylistsForMood_fallback_stateless env mood count log :
  stateless env →
  truthy (authToken env log) = true →
  (searchPlaylistsByMood env mood (default "" (authToken env log)) log).1
  = Ok [] →
  (getMultiplePlaylistsForMood env mood count log).1
  = Throw (Error "Failed to get playlist for mood").
Proof.
  intros Henv Htok Hsearch.
  unfold getMultiplePlaylistsForMood, try_catch, bind, getAccessToken, ret, throw.
  rewrite Htok. simpl.
  destruct (searchPlaylistsByMood env mood _ log) as [r log'] eqn:Hfirst.
  simpl in Hsearch. subst r. simpl.
  rewrite getPlaylistForMood_reworded.
  assert (Htok' : truthy (authToken env log') = true)
    by (by rewrite (proj1 Henv log' log)).
  destruct (searchPlaylistsByMood env mood
              (default "" (authToken env log')) log') as [r log''] eqn:Hsecond.
  assert (r = Ok []) as ->.
  { pose proof (searchPlaylistsByMood_stateless env mood
                  (default "" (authToken env log')) log' log Henv) as H.
    rewrite Hsecond, (proj1 Henv log' log), Hfirst in H. done. }
  by rewrite (getPlaylistForMood_try_empty _ _ _ _ Htok' Hsecond).
Qed.

End multiple.

(** C7, at the input where the code departs from it: a token is present and
    the catalogue has nothing for [Happy]. The search of
    [getMultiplePlaylistsForMood] yields no playlist, the fallback call of
    [getPlaylistForMood] repeats the same three searches, finds nothing
    either and fails; the failure is what [getMultiplePlaylistsForMood]
    ends with, not a sequence of one playlist. *)
Theorem getMultiplePlaylistsForMood_fallback_fails :
  SpotifyService.searchPlaylistsByMood emptyCatalogue "Happy" "token" []
  = (Ok [], requestsFor "token" ["happy"; "upbeat"; "cheerful"]) ∧
  SpotifyService.getMultiplePlaylistsForMood emptyCatalogue "Happy" None []
  = (Throw (Error "Failed to get playlist for mood"),
     requestsFor "token"
       ["happy"; "upbeat"; "cheerful"; "happy"; "upbeat"; "cheerful"]).
Proof. split; reflexivity. Qed.

(** ** More on [getMultiplePlaylistsForMood] *)

Section multiple_more.
Import SpotifyService.

Lemma sort_two_descending (a b : Scored) :
  (score b <= score a)%R → sort byScoreDesc [a; b] = [a; b].
Proof.
  intros Hle. unfold sort. simpl. unfold byScoreDesc.
  destruct (Rle_dec (score b - score a) 0); [done | lra].
Qed.

Lemma candidate_scores terms :
  searchTermsFor "Happy" = Just terms →
  scoreWith terms candidate12 = 12%R ∧
  scoreWith terms candidate45 = 45%R ∧
  scoreWith terms candidate30 = 30%R.
Proof.
  intros Hterms.
  pose proof candidate12_score as H12.
  pose proof candidate45_score as H45.
  pose proof candidate30_score as H30.
  rewrite (calculatePlaylistScore_Just _ _ _ Hterms) in H12.
  rewrite (calculatePlaylistScore_Just _ _ _ Hterms) in H45.
  rewrite (calculatePlaylistScore_Just _ _ _ Hterms) in H30.
  by injection H12 as ->; injection H45 as ->; injection H30 as ->.
Qed.

Lemma flaky_sorted scoredPlaylists :
  scorePlaylists [candidate45; candidate30] "Happy" = Ok scoredPlaylists →
  map (fun item => id (playlist item)) (sort byScoreDesc scoredPlaylists)
  = ["p45"; "p30"].
Proof.
  rewrite (scorePlaylists_Just _ _ _ happy_terms). intros [= <-].
  destruct (candidate_scores _ happy_terms) as (_ & H45 & H30).
  set (terms := ["happy"; "upbeat"; "cheerful"; "feel good"; "positive vibes"])
    in *.
  rewrite sort_two_descending; [done |]. simpl. rewrite H45, H30. lra.
Qed.

End multiple_more.

(** With the flaky catalogue the search for [Happy] finds the candidates
    scoring 45 and 30, and the default count of three returns both
    identifiers, the higher score first. *)
Lemma getMultiplePlaylistsForMood_top_witness :
  SpotifyService.getMultiplePlaylistsForMood flakyCatalogue "Happy" None []
  = (Ok ["p45"; "p30"], requestsFor "token" ["happy"; "upbeat"; "cheerful"]).
Proof.
  destruct (getMultiplePlaylistsForMood_top flakyCatalogue "Happy" None []
              [candidate45; candidate30]
              (requestsFor "token" ["happy"; "upbeat"; "cheerful"]))
    as (scoredPlaylists & Hscored & _ & Hrun & _);
    [reflexivity | reflexivity | done | done |].
  rewrite Hrun. f_equal. f_equal.
  pose proof (flaky_sorted _ Hscored) as Hsorted.
  assert (Hlen : length (sort byScoreDesc scoredPlaylists) = 2%nat)
    by (apply (f_equal length) in Hsorted; by rewrite length_map in Hsorted).
  rewrite take_ge by (rewrite Hlen; simpl; lia). exact Hsorted.
Defined.

(** X2: A negative [count] reaches [slice] as a negative end index: when the
    search finds candidates, the call returns the sorted identifiers without
    the last [-count] of them, and none when there are not that many. *)
Lemma getMultiplePlaylistsForMood_negative_count
    (env : Env) (mood : string) (k : Z) (log : list Request)
    (playlists : list SpotifyPlaylist) (log' : list Request) :
  truthy (authToken env log) = true →
  SpotifyService.searchPlaylistsByMood env mood
    (default "" (authToken env log)) log = (Ok playlists, log') →
  playlists ≠ [] →
  (k < 0)%Z →
  ∃ scoredPlaylists,
    SpotifyService.scorePlaylists playlists mood = Ok scoredPlaylists ∧
    let sorted := sort byScoreDesc scoredPlaylists in
    SpotifyService.getMultiplePlaylistsForMood env mood (Some k) log
    = (Ok (map (fun item => id (playlist item))
             (take (length playlists - Z.to_nat (- k)) sorted)), log').
Proof.
  intros Htok Hsearch Hne Hk.
  destruct (searchPlaylistsByMood_nonempty _ _ _ _ _ _ Hsearch Hne)
    as [terms Hterms].
  exists (scoredWith terms playlists).
  split; [by apply scorePlaylists_Just |].
  intros sorted.
  rewrite (getMultiplePlaylistsForMood_scored _ _ _ _ _ _ _ Htok Hsearch
             Hne Hterms).
  fold sorted. do 3 f_equal. unfold slice0.
  assert (Hlen : length sorted = length playlists).
  { unfold sorted. by rewrite sort_length, scoredWith_length. }
  rewrite Hlen. simpl default.
  rewrite (proj2 (Z.ltb_lt _ 0)) by lia. f_equal. lia.
Qed.

(** With the flaky catalogue and [count = -1] only the better of the two
    candidates found is returned. *)
Lemma getMultiplePlaylistsForMood_negative_count_witness :
  SpotifyService.getMultiplePlaylistsForMood flakyCatalogue "Happy"
    (Some (-1)%Z) []
  = (Ok ["p45"], requestsFor "token" ["happy"; "upbeat"; "cheerful"]).
Proof.
  destruct (getMultiplePlaylistsForMood_negative_count flakyCatalogue "Happy"
              (-1) [] [candidate45; candidate30]
              (requestsFor "token" ["happy"; "upbeat"; "cheerful"]))
    as (scoredPlaylists & Hscored & Hrun);
    [reflexivity | reflexivity | done | lia |].
  rewrite Hrun. f_equal. f_equal.
  pose proof (flaky_sorted _ Hscored) as Hsorted.
  destruct (sort byScoreDesc scoredPlaylists) as [|a [|b rest]];
    [done | done |].
  simpl in Hsorted |- *. by injection Hsorted as ->.
Defined.

(** ** What a search returns and what it asks *)

Section search_more.
Import SpotifyService.

Lemma nonNull_Ok {A} (items : list (option A)) (l : list A) :
  nonNull items = Ok l → items = map Some l.
Proof.
  unfold nonNull. revert l. induction items as [|item items IH]; intros l; simpl.
  - by intros [= <-].
  - destruct item as [a|]; [| done].
    destruct (mapResult _ items) as [l'|]; [| done].
    intros [= <-]. simpl. f_equal. by apply IH.
Qed.

Lemma nonNull_Some {A} (l : list A) : nonNull (map Some l) = Ok l.
Proof.
  unfold nonNull. induction l as [|a l IH]; simpl; [done | by rewrite IH].
Qed.

Lemma nonNull_None {A} (items : list (option A)) :
  None ∈ items → ∃ e, nonNull items = Throw e.
Proof.
  intros Hin. unfold nonNull.
  eapply mapResult_Throw; [exact Hin | done].
Qed.

Lemma termsToSearch_length mood : (length (termsToSearch mood) ≤ 3)%nat.
Proof.
  unfold termsToSearch. destruct (searchTermsFor mood); simpl; [| lia].
  rewrite length_take. lia.
Qed.

Lemma searchTerms_loop_log env accessToken terms allPlaylists log r log' :
  searchTerms_loop env accessToken terms allPlaylists log = (r, log') →
  ∃ n, (n ≤ length terms)%nat ∧
       log' = log ++ requestsFor accessToken (take n terms).
Proof.
  revert allPlaylists log.
  induction terms as [|term terms IH]; intros allPlaylists log; simpl.
  - unfold ret. intros [= <- <-]. exists 0%nat. by rewrite app_nil_r.
  - unfold bind at 1, fetch.
    destruct (network env log {| q := term; bearer := accessToken |})
      as [response|].
    + assert (Hnext : ∀ all,
        searchTerms_loop env accessToken terms all
          (log ++ [{| q := term; bearer := accessToken |}]) = (r, log') →
        ∃ n, (n ≤ S (length terms))%nat ∧
             log' = log ++ requestsFor accessToken (take n (term :: terms))).
      { intros all (n & Hn & ->)%IH. exists (S n). split; [lia |].
        simpl. by rewrite <- app_assoc. }
      destruct (ok response); simpl; [| apply Hnext].
      unfold json_items, bind, ret, throw.
      destruct (body response) as [items|]; [apply Hnext |].
      intros [= <- <-]. exists 1%nat. split; [simpl; lia | done].
    + intros [= <- <-]. exists 1%nat. split; [simpl; lia | done].
Qed.

Lemma searchTerms_loop_provenance env accessToken terms allPlaylists log out log' p :
  searchTerms_loop env accessToken terms allPlaylists log = (Ok out, log') →
  p ∈ out →
  (p ∈ allPlaylists) ∨
  ∃ log0 term response items,
    (term ∈ terms) ∧
    network env log0 {| q := term; bearer := accessToken |} = Some response ∧
    ok response = true ∧ body response = Some items ∧ (p ∈ items).
Proof.
  revert allPlaylists log.
  induction terms as [|term terms IH]; intros allPlaylists log; simpl.
  - unfold ret. intros [= <- <-]. by left.
  - unfold bind at 1, fetch.
    destruct (network env log {| q := term; bearer := accessToken |})
      as [response|] eqn:Hnet; [| done].
    destruct (ok response) eqn:Hok; simpl.
    + unfold json_items, bind, ret, throw.
      destruct (body response) as [items|] eqn:Hbody; [| done].
      intros Hloop Hp. destruct (IH _ _ Hloop Hp) as [Hin|Hfound].
      * apply elem_of_app in Hin as [Hin|Hin]; [by left |].
        right. exists log, term, response, items.
        split_and!; try done. by left.
      * right. destruct Hfound as (log0 & t & resp & its & Ht & ?).
        exists log0, t, resp, its. split; [by right | done].
    + intros Hloop Hp. destruct (IH _ _ Hloop Hp) as [Hin|Hfound]; [by left |].
      right. destruct Hfound as (log0 & t & resp & its & Ht & ?).
      exists log0, t, resp, its. split; [by right | done].
Qed.

Lemma filter_sublist {A} (f : A → bool) (k : list A) :
  List.filter f k `sublist_of` k.
Proof.
  induction k as [|x k IH]; simpl; [constructor |].
  destruct (f x); [by apply sublist_skip | by apply sublist_cons].
Qed.

Lemma removeDuplicatePlaylists_filter_NoDup l :
  NoDup (map id (filterPlaylistsByQuality (removeDuplicatePlaylists l))).
Proof.
  eapply sublist_NoDup; [apply (removeDuplicates_from_NoDup ∅ l) |].
  apply (fmap_sublist id). apply filter_sublist.
Qed.

Lemma responsesOf_length env accessToken terms log :
  length (responsesOf env accessToken terms log) = length terms.
Proof.
  revert log. induction terms as [|term terms IH]; intros log; simpl;
    [done | by rewrite IH].
Qed.

Lemma searchTerms_loop_aborts env accessToken terms allPlaylists log i r :
  responsesOf env accessToken terms log !! i = Some r →
  (r = None ∨ ∃ response, r = Some response ∧ ok response = true
                          ∧ body response = None) →
  Forall usable (take i (responsesOf env accessToken terms log)) →
  ∃ e,
    searchTerms_loop env accessToken terms allPlaylists log
    = (Throw e, log ++ requestsFor accessToken (take (S i) terms)).
Proof.
  revert allPlaylists log i.
  induction terms as [|term terms IH]; intros allPlaylists log i; simpl;
    [done |].
  intros Hi Hr Husable. unfold bind at 1, fetch.
  destruct i as [|i]; simpl in Hi, Husable.
  - injection Hi as Hi. rewrite take_0.
    destruct Hr as [->|(response & -> & Hok & Hbody)]; rewrite Hi; [eauto |].
    rewrite Hok. simpl. unfold json_items, bind, throw. rewrite Hbody. eauto.
  - apply Forall_cons in Husable as [Hfirst Hrest].
    destruct (network env log {| q := term; bearer := accessToken |})
      as [response|]; [| done].
    simpl in Hfirst.
    assert (Hnext : ∀ all, ∃ e,
      searchTerms_loop env accessToken terms all
        (log ++ [{| q := term; bearer := accessToken |}])
      = (Throw e, log ++ {| q := term; bearer := accessToken |}
                    :: requestsFor accessToken (take (S i) terms))).
    { intros all. destruct (IH all _ _ Hi Hr Hrest) as [e He].
      exists e. rewrite He. by rewrite <- app_assoc. }
    destruct (ok response); simpl; [| apply Hnext].
    destruct Hfirst as [items Hitems]; [done |].
    unfold json_items, bind, ret. rewrite Hitems. apply Hnext.
Qed.

Lemma searchPlaylistsByMood_Just env mood accessToken log searchTerms :
  searchTermsFor mood = Just searchTerms →
  searchPlaylistsByMood env mood accessToken log
  = match searchTerms_loop env accessToken (take 3 searchTerms) [] log with
    | (Ok allPlaylists, log') =>
        (Ok (match nonNull allPlaylists with
             | Ok playlists =>
                 filterPlaylistsByQuality (removeDuplicatePlaylists playlists)
             | Throw _ => []
             end), log')
    | (Throw _, log') => (Ok [], log')
    end.
Proof.
  intros Hterms. unfold searchPlaylistsByMood, try_catch, bind, ret, lift.
  rewrite Hterms.
  destruct (searchTerms_loop _ _ _ _ _) as [[allPlaylists|e] log']; [| done].
  by destruct (nonNull allPlaylists).
Qed.

End search_more.

(** X4: Whatever the network does, the playlists that [searchPlaylistsByMood]
    returns have pairwise different identifiers, between 15 and 200 tracks
    and a non-empty name without [test]; each of them was an item of a
    successful answer to a request for one of the terms searched, the first
    three search terms of the mood; and the requests issued are those for
    the first [n] of these terms, for some [n] up to three, with the given
    token. *)
Theorem searchPlaylistsByMood_result_invariants
    (env : Env) (mood accessToken : string) (log : list Request)
    (playlists : list SpotifyPlaylist) (log' : list Request) :
  SpotifyService.searchPlaylistsByMood env mood accessToken log
  = (Ok playlists, log') →
  NoDup (map id playlists) ∧
  (∀ p, p ∈ playlists →
     (15 <= tracks_total p <= 200)%Z ∧
     (∃ n, name p = Some n ∧ n ≠ "" ∧ ¬ Substring "test" (toLowerCase n)) ∧
     ∃ log0 term response items,
       (term ∈ termsToSearch mood) ∧
       network env log0 {| q := term; bearer := accessToken |} = Some response ∧
       ok response = true ∧ body response = Some items ∧ (Some p ∈ items)) ∧
  ∃ n, (n ≤ 3)%nat ∧
       log' = log ++ requestsFor accessToken (take n (termsToSearch mood)).
Proof.
  unfold termsToSearch.
  destruct (SpotifyService.searchTermsFor mood) as [searchTerms|key] eqn:Hterms.
  2: { rewrite (searchPlaylistsByMood_Inherited _ _ _ _ _ Hterms).
       intros [= <- <-]. split_and!; [constructor | by intros p ?%elem_of_nil |].
       exists 0%nat. split; [lia |]. simpl. by rewrite app_nil_r. }
  rewrite (searchPlaylistsByMood_Just _ _ _ _ _ Hterms).
  destruct (SpotifyService.searchTerms_loop _ _ _ _ _)
    as [[allPlaylists|e] log1] eqn:Hloop; intros [= <- <-].
  - split_and!.
    + destruct (nonNull allPlaylists); [| constructor].
      apply removeDuplicatePlaylists_filter_NoDup.
    + intros p Hp.
      destruct (nonNull allPlaylists) as [present|] eqn:Hpresent;
        [| by apply elem_of_nil in Hp].
      apply nonNull_Ok in Hpresent.
      unfold SpotifyService.filterPlaylistsByQuality in Hp.
      apply list_elem_of_In, filter_In in Hp as [Hp Hq].
      apply quality_spec in Hq as [Htracks Hname].
      split_and!; [lia | lia | done |].
      apply list_elem_of_In, removeDuplicates_from_elem in Hp as [_ Hp].
      assert (Hentry : Some p ∈ allPlaylists).
      { rewrite Hpresent. apply list_elem_of_fmap. eauto. }
      destruct (searchTerms_loop_provenance _ _ _ _ _ _ _ _ Hloop Hentry)
        as [Hnil|Hfound]; [by apply elem_of_nil in Hnil | done].
    + apply searchTerms_loop_log in Hloop as (n & Hn & ->).
      rewrite length_take in Hn. exists n. split; [lia |].
      by rewrite take_take, Nat.min_l by lia.
  - split_and!; [constructor | by intros p ?%elem_of_nil |].
    apply searchTerms_loop_log in Hloop as (n & Hn & ->).
    rewrite length_take in Hn. exists n. split; [lia |].
    by rewrite take_take, Nat.min_l by lia.
Qed.

(** The flaky catalogue, where the search for [Happy] returns two playlists
    after three requests. *)
Lemma searchPlaylistsByMood_result_invariants_witness :
  SpotifyService.searchPlaylistsByMood flakyCatalogue "Happy" "token" []
  = (Ok [candidate45; candidate30],
     requestsFor "token" ["happy"; "upbeat"; "cheerful"]) ∧
  NoDup (map id [candidate45; candidate30]).
Proof.
  assert (H : SpotifyService.searchPlaylistsByMood flakyCatalogue "Happy"
                "token" []
              = (Ok [candidate45; candidate30],
                 requestsFor "token" ["happy"; "upbeat"; "cheerful"]))
    by reflexivity.
  split; [exact H |].
  exact (proj1 (searchPlaylistsByMood_result_invariants _ _ _ _ _ _ H)).
Defined.

(** X5: Three ways in which a search ends with no playlist at all, whatever
    the answers held. For a mood that is a name inherited from
    [Object.prototype] the search terms are no array and no request is
    issued. A rejected request, or a successful answer that carries no
    array of items, ends the search on the spot: when this happens at the
    request for term [i] (counting from 0) and the earlier answers were
    usable, no further request is issued. A [null] entry among the items
    lets the search go on and issue every request, and makes the
    de-duplication fail at the end. *)
Theorem searchPlaylistsByMood_aborted
    (env : Env) (mood accessToken : string) (log : list Request)
    (i : nat) (r : option Response) :
  let terms := termsToSearch mood in
  let responses := responsesOf env accessToken terms log in
  ((mood ∈ Object_prototype) →
   terms = [] ∧
   SpotifyService.searchPlaylistsByMood env mood accessToken log
   = (Ok [], log)) ∧
  (responses !! i = Some r →
   (r = None ∨ ∃ response, r = Some response ∧ ok response = true
                           ∧ body response = None) →
   Forall usable (take i responses) →
   SpotifyService.searchPlaylistsByMood env mood accessToken log
   = (Ok [], log ++ requestsFor accessToken (take (S i) terms))) ∧
  (Forall usable responses →
   None ∈ concat (map contribution responses) →
   SpotifyService.searchPlaylistsByMood env mood accessToken log
   = (Ok [], log ++ requestsFor accessToken terms)).
Proof.
  intros terms responses. subst responses terms. split_and!.
  - intros Hin. pose proof (searchTermsFor_inherited _ Hin) as Hterms.
    unfold termsToSearch. rewrite Hterms. split; [done |].
    by apply (searchPlaylistsByMood_Inherited _ _ _ _ mood).
  - unfold termsToSearch.
    destruct (SpotifyService.searchTermsFor mood) as [searchTerms|key]
      eqn:Hterms; [| done].
    intros Hi Hr Husable.
    rewrite (searchPlaylistsByMood_Just _ _ _ _ _ Hterms).
    by destruct (searchTerms_loop_aborts env accessToken _ [] log i r Hi Hr
                   Husable) as [e ->].
  - intros Husable Hnull.
    rewrite searchPlaylistsByMood_usable by done.
    by destruct (nonNull_None _ Hnull) as [e ->].
Qed.

(** The mood [constructor]: no request. The broken catalogue: the search
    for [happy] brings two playlists, the request for [upbeat] is rejected,
    nothing is returned and [cheerful] is never asked for. The catalogue
    with a [null] entry: three requests, and nothing is returned. *)
Lemma searchPlaylistsByMood_aborted_witness :
  SpotifyService.searchPlaylistsByMood flakyCatalogue "constructor" "token" []
  = (Ok [], []) ∧
  SpotifyService.searchPlaylistsByMood brokenCatalogue "Happy" "token" []
  = (Ok [], requestsFor "token" ["happy"; "upbeat"]) ∧
  SpotifyService.searchPlaylistsByMood nullCatalogue "Happy" "token" []
  = (Ok [], requestsFor "token" ["happy"; "upbeat"; "cheerful"]).
Proof.
  split_and!.
  - destruct (searchPlaylistsByMood_aborted flakyCatalogue "constructor"
                "token" [] 0 None) as (Hinherited & _ & _).
    apply Hinherited. apply (bool_decide_unpack _). by vm_compute.
  - destruct (searchPlaylistsByMood_aborted brokenCatalogue "Happy" "token" []
                1 None) as (_ & Hrejected & _).
    apply Hrejected.
    + reflexivity.
    + by left.
    + repeat constructor. simpl. eauto.
  - destruct (searchPlaylistsByMood_aborted nullCatalogue "Happy" "token" []
                0 None) as (_ & _ & Hnull).
    apply Hnull.
    + repeat constructor; simpl; eauto.
    + simpl. set_solver.
Defined.

(** ** More on de-duplication *)

Section removeDuplicates_more.
Import SpotifyService.

Lemma removeDuplicates_from_unique (seen : gset string) l :
  NoDup (map id l) →
  (∀ p, p ∈ l → id p ∉ seen) →
  removeDuplicates_from seen l = l.
Proof.
  revert seen. induction l as [|x l IH]; intros seen Hnd Hseen; simpl;
    [done |].
  apply NoDup_cons in Hnd as [Hx Hnd].
  rewrite bool_decide_eq_false_2 by (apply Hseen; by left).
  f_equal. apply IH; [done |].
  intros p Hp. rewrite not_elem_of_union, not_elem_of_singleton. split.
  - intros Heq. apply Hx. apply list_elem_of_fmap. eauto.
  - apply Hseen. by right.
Qed.

End removeDuplicates_more.

(** X6: De-duplicating changes nothing in a list whose identifiers are already
    pairwise different; in particular de-duplicating twice is the same as
    doing it once. *)
Theorem removeDuplicatePlaylists_idempotent (playlists : list SpotifyPlaylist) :
  (NoDup (map id playlists) →
   SpotifyService.removeDuplicatePlaylists playlists = playlists) ∧
  SpotifyService.removeDuplicatePlaylists
    (SpotifyService.removeDuplicatePlaylists playlists)
  = SpotifyService.removeDuplicatePlaylists playlists.
Proof.
  assert (Hunique : ∀ l, NoDup (map id l) →
            SpotifyService.removeDuplicatePlaylists l = l).
  { intros l Hnd. apply removeDuplicates_from_unique; [done |].
    intros p _. apply not_elem_of_empty. }
  split; [apply Hunique |].
  apply Hunique. apply (removeDuplicates_from_NoDup ∅ playlists).
Qed.

(** Two playlists with different identifiers are both kept. *)
Lemma removeDuplicatePlaylists_idempotent_witness :
  NoDup (map id [candidate45; candidate30]) ∧
  SpotifyService.removeDuplicatePlaylists [candidate45; candidate30]
  = [candidate45; candidate30].
Proof.
  assert (H : NoDup (map id [candidate45; candidate30])).
  { apply NoDup_cons. split; [| apply NoDup_singleton].
    intros Hin. apply elem_of_cons in Hin as [Hin|Hin]; [discriminate Hin |].
    by apply elem_of_nil in Hin. }
  split; [exact H |].
  exact (proj1 (removeDuplicatePlaylists_idempotent _) H).
Defined.

(** ** Relevance, mood by mood *)

Section relevance_more.
Import SpotifyService.

Lemma lowerChar_idempotent c : lowerChar (lowerChar c) = lowerChar c.
Proof. destruct c as [[] [] [] [] [] [] [] []]; reflexivity. Qed.

Lemma toLowerCase_idempotent s : toLowerCase (toLowerCase s) = toLowerCase s.
Proof.
  induction s as [|c s IH]; simpl; [done |].
  by rewrite lowerChar_idempotent, IH.
Qed.

Lemma append_nil_r s : s +:+ "" = s.
Proof.
  induction s as [|c s IH]; [done |]. by rewrite append_cons, IH.
Qed.

Lemma includes_refl s : includes s s = true.
Proof.
  apply includes_spec. exists "", "". by rewrite append_nil, append_nil_r.
Qed.

Lemma halfPoints_le_length lowerText terms :
  existsb (fun term => String.eqb lowerText (toLowerCase term)) terms = false →
  (halfPoints lowerText terms <= Z.of_nat (length terms))%Z.
Proof.
  induction terms as [|term terms IH]; simpl; [lia |].
  intros [Hterm Hrest]%orb_false_elim. rewrite Hterm.
  specialize (IH Hrest). destruct (includes _ _); lia.
Qed.

Lemma MOOD_TO_SEARCH_TERMS_halfPoints mood terms lowerText :
  MOOD_TO_SEARCH_TERMS !! mood = Some terms →
  (halfPoints lowerText terms <= 5)%Z ∧
  (existsb (fun term => String.eqb lowerText (toLowerCase term)) terms = true →
   halfPoints lowerText terms = 2%Z).
Proof.
  intros Hlen.
  pose proof (MOOD_TO_SEARCH_TERMS_length _ _ Hlen) as H5.
  destruct (existsb _ terms) eqn:Hex.
  - apply existsb_exists in Hex as (term & Hin & Heq).
    apply String.eqb_eq in Heq. subst lowerText.
    unfold MOOD_TO_SEARCH_TERMS in Hlen.
    apply elem_of_list_to_map_2 in Hlen.
    repeat (apply elem_of_cons in Hlen as [Hlen|Hlen];
            [injection Hlen as -> ->;
             repeat (destruct Hin as [<-|Hin]; [by vm_compute |]);
             destruct Hin |]).
    by apply elem_of_nil in Hlen.
  - split; [| done].
    pose proof (halfPoints_le_length lowerText terms Hex). lia.
Qed.

End relevance_more.

(** X9: For a mood of the table the five terms are such that a text equal to
    one of them contains no other, so the relevance of a text is at most
    one half: at most 15 of the 30 points of the name term and 7.5 of the
    15 points of the description term can be reached, and a text that is
    equal to a term (letter case apart) has relevance one fifth. *)
Theorem calculateNameRelevance_mapped_mood
    (mood : string) (terms : list string) (text : option string)
    (p : SpotifyPlaylist) :
  SpotifyService.MOOD_TO_SEARCH_TERMS !! mood = Some terms →
  ∃ r s,
    SpotifyService.calculateNameRelevance text mood = Ok r ∧
    (r <= 1 / 2)%R ∧
    SpotifyService.calculatePlaylistScore p mood = Ok s ∧
    s = (popularityTerm p + trackCountTerm p + nameTerm terms p
         + descriptionTerm terms p + imageTerm p)%R ∧
    (nameTerm terms p <= 15)%R ∧
    (descriptionTerm terms p <= 7.5)%R ∧
    (truthy text = true →
     existsb (fun term =>
                String.eqb (toLowerCase (default "" text)) (toLowerCase term))
             terms = true →
     r = (1 / 5)%R).
Proof.
  intros Hmood.
  pose proof (searchTermsFor_own _ _ Hmood) as Hterms.
  pose proof (MOOD_TO_SEARCH_TERMS_length _ _ Hmood) as H5.
  assert (Hrel : ∀ t, (0 <= relevance terms t <= 1 / 2)%R).
  { intros t. unfold relevance. destruct (truthy t) eqn:Ht; [| lra].
    rewrite H5.
    destruct (MOOD_TO_SEARCH_TERMS_halfPoints mood terms
                (toLowerCase (default "" t)) Hmood) as [Hle _].
    apply IZR_le in Hle.
    pose proof (halfPoints_nonneg (toLowerCase (default "" t)) terms) as H0.
    apply IZR_le in H0. simpl INR.
    split; [apply Rmin_glb; lra |].
    eapply Rle_trans; [apply Rmin_l |]. lra. }
  exists (relevance terms text), (scoreWith terms p). split_and!.
  - by apply calculateNameRelevance_Just.
  - apply Hrel.
  - by apply calculatePlaylistScore_Just.
  - done.
  - unfold nameTerm. specialize (Hrel (name p)). lra.
  - unfold descriptionTerm. specialize (Hrel (description p)).
    destruct (truthy (description p)); lra.
  - intros Ht Hex. unfold relevance. rewrite Ht, H5.
    destruct (MOOD_TO_SEARCH_TERMS_halfPoints mood terms
                (toLowerCase (default "" text)) Hmood) as [_ ->]; [| done].
    simpl INR. rewrite Rmin_left; lra.
Qed.

(** For [Happy], the text [Upbeat] equals the second term. *)
Lemma calculateNameRelevance_mapped_mood_witness :
  SpotifyService.MOOD_TO_SEARCH_TERMS !! "Happy"
  = Some ["happy"; "upbeat"; "cheerful"; "feel good"; "positive vibes"] ∧
  SpotifyService.calculateNameRelevance (Some "Upbeat") "Happy"
  = Ok (1 / 5)%R.
Proof.
  assert (H : SpotifyService.MOOD_TO_SEARCH_TERMS !! "Happy"
              = Some ["happy"; "upbeat"; "cheerful"; "feel good";
                      "positive vibes"]) by (vm_compute; reflexivity).
  split; [exact H |].
  destruct (calculateNameRelevance_mapped_mood "Happy" _ (Some "Upbeat")
              candidate12 H) as (r & s & -> & _ & _ & _ & _ & _ & Hfifth).
  f_equal. by apply Hfifth.
Defined.

(** X10: For a mood that is neither in the table nor a name inherited from
    [Object.prototype] the only term is the mood lowercased: a non-empty
    text has relevance 1 when it equals the mood (letter case apart), one
    half when it properly contains it, and 0 otherwise. The empty mood is
    contained in every text. *)
Theorem calculateNameRelevance_unmapped_mood
    (mood : string) (text : option string) :
  SpotifyService.MOOD_TO_SEARCH_TERMS !! mood = None →
  (mood ∉ Object_prototype) →
  truthy text = true →
  let lowerText := toLowerCase (default "" text) in
  SpotifyService.calculateNameRelevance text mood
  = Ok (if String.eqb lowerText (toLowerCase mood) then 1
        else if includes lowerText (toLowerCase mood) then 1 / 2
        else 0)%R.
Proof.
  intros Hmood Hown Ht lowerText.
  assert (Hterms : SpotifyService.searchTermsFor mood
                   = Just [toLowerCase mood]).
  { unfold SpotifyService.searchTermsFor. by rewrite getProperty_undefined. }
  rewrite (calculateNameRelevance_Just _ _ _ Hterms). f_equal.
  unfold relevance. rewrite Ht. fold lowerText. simpl.
  rewrite toLowerCase_idempotent.
  destruct (String.eqb_spec lowerText (toLowerCase mood)) as [<-|Hne].
  - rewrite includes_refl, Z.add_0_r. rewrite Rmin_left; lra.
  - destruct (includes lowerText (toLowerCase mood)); rewrite Z.add_0_r;
      rewrite Rmin_left; lra.
Qed.

(** The mood [Bored] and a playlist called [BORED]. *)
Lemma calculateNameRelevance_unmapped_mood_witness :
  SpotifyService.calculateNameRelevance (Some "BORED") "Bored" = Ok 1%R.
Proof.
  rewrite (calculateNameRelevance_unmapped_mood "Bored" (Some "BORED"));
    [reflexivity | by vm_compute | | reflexivity].
  apply (bool_decide_unpack _). by vm_compute.
Defined.

(** ** Ties *)

Section ties.
Import SpotifyService.

Lemma sort_head_first (l : list Scored) best rest :
  sort byScoreDesc l = best :: rest →
  ∃ l1 l2, l = l1 ++ best :: l2 ∧
    (∀ x, x ∈ l1 → (score x < score best)%R) ∧
    (∀ x, x ∈ l2 → (score x <= score best)%R).
Proof.
  revert best rest. induction l as [|x l IH]; intros best rest; [done |].
  unfold sort. simpl. fold (sort byScoreDesc l).
  destruct (sort byScoreDesc l) as [|h t] eqn:Hsort; simpl.
  - intros [= <- <-].
    apply (f_equal length) in Hsort. rewrite sort_length in Hsort.
    destruct l; [| done].
    exists [], []. split_and!; [done | |]; by intros ? ?%elem_of_nil.
  - unfold byScoreDesc at 1.
    destruct (Rle_dec (score h - score x) 0) as [Hle|Hgt].
    + intros [= <- <-]. exists [], l. split_and!; [done | |].
      * by intros ? ?%elem_of_nil.
      * intros y Hy. apply sort_head_max in Hsort as [_ Hmax].
        specialize (Hmax y Hy). lra.
    + intros [= <- <-].
      destruct (IH h t eq_refl) as (l1 & l2 & -> & Hl1 & Hl2).
      exists (x :: l1), l2. split_and!; [done | | done].
      intros y [->|Hy]%elem_of_cons; [lra | by apply Hl1].
Qed.

Lemma mapResult_if {A B} (c : A → bool) (g : A → B) (e : Exn) (l : list A) :
  mapResult (fun x => if c x then Throw e else Ok (g x)) l
  = if existsb c l then Throw e else Ok (map g l).
Proof.
  induction l as [|x l IH]; simpl; [done |].
  destruct (c x); simpl; [done |]. rewrite IH. by destruct (existsb c l).
Qed.

Lemma scorePlaylists_Inherited playlists mood key :
  searchTermsFor mood = Inherited key →
  scorePlaylists playlists mood
  = if existsb hasText playlists
    then Throw (TypeError "searchTerms.forEach is not a function")
    else Ok (map (fun p => {| playlist := p;
                              score := (popularityTerm p + trackCountTerm p
                                        + imageTerm p)%R |}) playlists).
Proof.
  intros Hterms. rewrite <- mapResult_if. unfold scorePlaylists.
  apply mapResult_ext. intros p _.
  rewrite (calculatePlaylistScore_Inherited _ _ _ Hterms).
  by destruct (hasText p).
Qed.

(** What [selectBestPlaylist] returns from a list of scored playlists that
    came from [playlists] through a scoring [f]. *)
Lemma sort_first_of_the_best (f : SpotifyPlaylist → R) playlists best rest :
  sort byScoreDesc (map (fun p => {| playlist := p; score := f p |}) playlists)
  = best :: rest →
  ∃ before after,
    playlists = before ++ playlist best :: after ∧
    (∀ p, p ∈ before → (f p < f (playlist best))%R) ∧
    (∀ p, p ∈ after → (f p <= f (playlist best))%R).
Proof.
  intros Hsort.
  apply sort_head_first in Hsort as (l1 & l2 & Heq & Hl1 & Hl2).
  apply fmap_app_inv in Heq as (before & tail & -> & Htail & ->).
  symmetry in Htail.
  apply fmap_cons_inv in Htail as (b & after & -> & -> & ->).
  exists before, after. simpl. split_and!; [done | |].
  - intros p Hp. apply (Hl1 {| playlist := p; score := f p |}).
    apply list_elem_of_fmap. eauto.
  - intros p Hp. apply (Hl2 {| playlist := p; score := f p |}).
    apply list_elem_of_fmap. eauto.
Qed.

Lemma selectBestPlaylist_12_45_30 :
  selectBestPlaylist [candidate12; candidate45; candidate30] "Happy"
  = Ok candidate45.
Proof.
  destruct (selectBestPlaylist_Just [candidate12; candidate45; candidate30]
              "Happy" _ happy_terms) as (best & -> & Hin & Hmax); [done |].
  destruct (candidate_scores _ happy_terms) as (H12 & H45 & H30).
  f_equal.
  assert (Hle : (45 <= scoreWith ["happy"; "upbeat"; "cheerful"; "feel good";
                                  "positive vibes"] best)%R).
  { rewrite <- H45. apply Hmax. apply elem_of_cons. right. by left. }
  repeat (apply elem_of_cons in Hin as [->|Hin]); try done.
  - rewrite H12 in Hle. lra.
  - rewrite H30 in Hle. lra.
  - by apply elem_of_nil in Hin.
Qed.

End ties.

(** X11: What [selectBestPlaylist] does for every sequence and mood. When it
    returns, every candidate has a score, and among the candidates with the
    highest score it returns the one that comes first in its input: every
    candidate before the one returned scores strictly less, every candidate
    after it at most as much. It throws its no-playlists error exactly on
    the empty sequence, and a [TypeError] exactly when the sequence is not
    empty, the mood is a name inherited from [Object.prototype] and one of
    the candidates has a name or a description. *)
Theorem selectBestPlaylist_first_of_the_best
    (playlists : list SpotifyPlaylist) (mood : string) :
  match SpotifyService.selectBestPlaylist playlists mood with
  | Ok best =>
      (existsb hasText playlists = false ∨ (mood ∉ Object_prototype)) ∧
      ∃ before after sbest,
        playlists = before ++ best :: after ∧
        SpotifyService.calculatePlaylistScore best mood = Ok sbest ∧
        (∀ p, p ∈ before →
           ∃ sp, SpotifyService.calculatePlaylistScore p mood = Ok sp ∧
                 (sp < sbest)%R) ∧
        (∀ p, p ∈ after →
           ∃ sp, SpotifyService.calculatePlaylistScore p mood = Ok sp ∧
                 (sp <= sbest)%R)
  | Throw e =>
      (playlists = [] ∧ e = Error "No playlists available for selection") ∨
      (playlists ≠ [] ∧ (mood ∈ Object_prototype) ∧
       existsb hasText playlists = true ∧
       e = TypeError "searchTerms.forEach is not a function")
  end.
Proof.
  unfold SpotifyService.selectBestPlaylist.
  destruct playlists as [|p0 rest]; [by left |]. simpl length. simpl Nat.eqb.
  cbv iota. set (playlists := p0 :: rest).
  destruct (SpotifyService.searchTermsFor mood) as [terms|key] eqn:Hterms.
  - rewrite (scorePlaylists_Just _ _ _ Hterms). unfold scoredWith.
    destruct (sort byScoreDesc _) as [|best others] eqn:Hsort.
    { apply (f_equal length) in Hsort.
      by rewrite sort_length, length_map in Hsort. }
    split.
    { right. apply not_inherited_Just. eauto. }
    apply sort_first_of_the_best in Hsort
      as (before & after & Heq & Hbefore & Hafter).
    exists before, after, (scoreWith terms (playlist best)).
    split_and!; [done | by apply calculatePlaylistScore_Just | |].
    + intros p Hp. exists (scoreWith terms p).
      split; [by apply calculatePlaylistScore_Just | by apply Hbefore].
    + intros p Hp. exists (scoreWith terms p).
      split; [by apply calculatePlaylistScore_Just | by apply Hafter].
  - rewrite (scorePlaylists_Inherited _ _ _ Hterms).
    apply orElse_Inherited in Hterms as Hkey. destruct Hkey as (_ & Hin & _).
    destruct (existsb hasText playlists) eqn:Htext; [by right |].
    set (f := fun p => (popularityTerm p + trackCountTerm p + imageTerm p)%R).
    destruct (sort byScoreDesc _) as [|best others] eqn:Hsort.
    { apply (f_equal length) in Hsort.
      by rewrite sort_length, length_map in Hsort. }
    split; [by left |].
    apply (sort_first_of_the_best f) in Hsort
      as (before & after & Heq & Hbefore & Hafter).
    assert (Hscore : ∀ p, p ∈ playlists →
              SpotifyService.calculatePlaylistScore p mood = Ok (f p)).
    { intros p Hp.
      rewrite (calculatePlaylistScore_Inherited _ _ _ Hterms).
      assert (hasText p = false) as ->; [| done].
      destruct (hasText p) eqn:Hp'; [| done].
      rewrite <- Htext. symmetry. apply existsb_exists.
      exists p. split; [by apply list_elem_of_In | done]. }
    exists before, after, (f (playlist best)).
    split_and!; [done | | |].
    + apply Hscore. rewrite Heq. apply elem_of_app. right. by left.
    + intros p Hp. exists (f p). split; [| by apply Hbefore].
      apply Hscore. rewrite Heq. apply elem_of_app. by left.
    + intros p Hp. exists (f p). split; [| by apply Hafter].
      apply Hscore. rewrite Heq. apply elem_of_app. right. by right.
Qed.

(** Against the empty catalogue, whose answers never change, the fallback
    of [getMultiplePlaylistsForMood] fails. *)
Lemma getMultiplePlaylistsForMood_fallback_stateless_witness :
  stateless emptyCatalogue ∧
  (SpotifyService.getMultiplePlaylistsForMood emptyCatalogue "Happy"
     (Some 5%Z) []).1
  = Throw (Error "Failed to get playlist for mood").
Proof.
  assert (H : stateless emptyCatalogue) by done.
  split; [exact H |].
  apply (getMultiplePlaylistsForMood_fallback_stateless emptyCatalogue
           "Happy" (Some 5%Z) [] H); reflexivity.
Defined.

(** ** More on the static variant *)

Section static_more.
Import SpotifyServiceStatic.

Lemma filterByKeyword_elem keyword items kept p :
  filterByKeyword keyword items = Ok kept →
  p ∈ kept →
  (Some p ∈ items) ∧ matchesKeyword [keyword] p.
Proof.
  revert kept. induction items as [|[x|] items IH]; intros kept; simpl.
  - intros [= <-] ?%elem_of_nil. done.
  - destruct (filterByKeyword keyword items) as [kept'|e] eqn:Hrest.
    + destruct (10 <? tracks_total x)%Z eqn:Htracks.
      * unfold lowerName. destruct (name x) as [n|] eqn:Hname; [| done].
        destruct (includes (toLowerCase n) (toLowerCase keyword)) eqn:Hinc.
        -- intros [= <-] [->|Hp]%elem_of_cons.
           ++ split; [by left |]. split; [by apply Z.ltb_lt |].
              exists n, keyword. split_and!; [done | by left | done].
           ++ destruct (IH _ eq_refl Hp). split; [by right | done].
        -- intros [= <-] Hp. destruct (IH _ eq_refl Hp).
           split; [by right | done].
      * intros [= <-] Hp. destruct (IH _ eq_refl Hp).
        split; [by right | done].
    + destruct (10 <? tracks_total x)%Z; [| done].
      unfold lowerName. by destruct (name x).
  - done.
Qed.

Lemma matchesKeyword_mono keywords keywords' p :
  keywords ⊆ keywords' → matchesKeyword keywords p → matchesKeyword keywords' p.
Proof.
  intros Hsub [Htracks (n & keyword & Hn & Hk & Hinc)].
  split; [done |]. exists n, keyword. split_and!; [done | by apply Hsub | done].
Qed.

Lemma searchKeyword_try_spec env ACCESS_TOKEN keyword log :
  ∃ r,
    searchKeyword_try env ACCESS_TOKEN keyword log
    = (r, log ++ [keywordRequest ACCESS_TOKEN keyword]) ∧
    ∀ pushed p, r = Ok pushed → p ∈ pushed → matchesKeyword [keyword] p.
Proof.
  unfold searchKeyword_try, bind at 1, fetch. fold (keywordRequest ACCESS_TOKEN keyword).
  destruct (network env log (keywordRequest ACCESS_TOKEN keyword))
    as [response|]; [| by eexists; split].
  destruct (ok response); simpl.
  - unfold json_items, bind, ret, throw, lift.
    destruct (body response) as [items|]; [| by eexists; split].
    eexists; split; [done |].
    intros pushed p Hpushed Hp.
    by destruct (filterByKeyword_elem _ _ _ _ Hpushed Hp).
  - unfold throw. destruct (status response =? 401)%Z; by eexists; split.
Qed.

Lemma searchKeywords_loop_spec env ACCESS_TOKEN keywords allPlaylists log :
  ∃ playlists,
    searchKeywords_loop env ACCESS_TOKEN keywords allPlaylists log
    = (Ok playlists, log ++ map (keywordRequest ACCESS_TOKEN) keywords) ∧
    ∀ p, p ∈ playlists → (p ∈ allPlaylists) ∨ matchesKeyword keywords p.
Proof.
  revert allPlaylists log.
  induction keywords as [|keyword keywords IH]; intros allPlaylists log; simpl.
  - unfold ret. exists allPlaylists. rewrite app_nil_r. split; [done |].
    by left.
  - unfold bind at 1, try_catch, ret.
    destruct (searchKeyword_try_spec env ACCESS_TOKEN keyword log)
      as (r & -> & Hr).
    assert (Hnext : ∀ pushed,
      (∀ p, p ∈ pushed → matchesKeyword [keyword] p) →
      ∃ playlists,
        searchKeywords_loop env ACCESS_TOKEN keywords (allPlaylists ++ pushed)
          (log ++ [keywordRequest ACCESS_TOKEN keyword])
        = (Ok playlists,
           log ++ keywordRequest ACCESS_TOKEN keyword
               :: map (keywordRequest ACCESS_TOKEN) keywords) ∧
        ∀ p, p ∈ playlists →
          (p ∈ allPlaylists) ∨ matchesKeyword (keyword :: keywords) p).
    { intros pushed Hpushed.
      destruct (IH (allPlaylists ++ pushed)
                  (log ++ [keywordRequest ACCESS_TOKEN keyword]))
        as (playlists & Hloop & Hin).
      exists playlists. rewrite Hloop, <- app_assoc. split; [done |].
      intros p Hp. destruct (Hin p Hp) as [Hold|Hnew].
      - apply elem_of_app in Hold as [Hold|Hold]; [by left |].
        right. eapply matchesKeyword_mono; [| by apply Hpushed].
        intros k ->%list_elem_of_singleton. by left.
      - right. eapply matchesKeyword_mono; [| done].
        intros k Hk. by right. }
    destruct r as [pushed|e].
    + apply Hnext. intros p Hp. by apply (Hr pushed).
    + apply Hnext. by intros p ?%elem_of_nil.
Qed.

End static_more.

(** X12: [searchPlaylistsByMood] of [SpotifyServiceStatic], given an array of
    keywords, never throws and issues exactly one request for each keyword,
    whatever the answers are; every playlist it returns has more than ten
    tracks and a name that contains one of the keywords, letter case apart.
    Given a value that is no array it throws without a request. *)
Theorem static_searchPlaylistsByMood_spec
    (env : Env) (ACCESS_TOKEN : string) (keywords : list string)
    (key : string) (log : list Request) :
  (∃ playlists,
     SpotifyServiceStatic.searchPlaylistsByMood env ACCESS_TOKEN
       (Just keywords) log
     = (Ok playlists, log ++ map (keywordRequest ACCESS_TOKEN) keywords) ∧
     ∀ p, p ∈ playlists → matchesKeyword keywords p) ∧
  SpotifyServiceStatic.searchPlaylistsByMood env ACCESS_TOKEN
    (Inherited key) log
  = (Throw (TypeError "keywords is not iterable"), log).
Proof.
  split; [| done].
  unfold SpotifyServiceStatic.searchPlaylistsByMood.
  destruct (searchKeywords_loop_spec env ACCESS_TOKEN keywords [] log)
    as (playlists & Hloop & Hin).
  exists playlists. split; [done |].
  intros p Hp. destruct (Hin p Hp) as [Hnil|?]; [| done].
  by apply elem_of_nil in Hnil.
Qed.

Section static_select.
Import SpotifyServiceStatic.

Lemma moodMap_keywords mood keywords :
  moodMap !! mood = Some keywords →
  length keywords = 5%nat ∧
  Forall (fun keyword => keyword ≠ "" ∧ toLowerCase keyword = keyword) keywords.
Proof.
  unfold moodMap. intros H%elem_of_list_to_map_2.
  repeat (apply elem_of_cons in H as [H|H];
          [injection H as -> ->; split; [done |];
           repeat (constructor; [by split |]); constructor |]).
  by apply elem_of_nil in H.
Qed.

Lemma moodMap_inherited key :
  key ∈ Object_prototype → moodMap !! key = None.
Proof.
  unfold Object_prototype. intros H.
  repeat (apply elem_of_cons in H as [->|H]; [by vm_compute |]).
  by apply elem_of_nil in H.
Qed.

Lemma lowercase_inherited key :
  key ∈ Object_prototype → toLowerCase key = key →
  key = "constructor" ∨ key = "__proto__".
Proof.
  unfold Object_prototype. intros H Hlower.
  repeat (apply elem_of_cons in H as [->|H];
          [first [by left | by right | by vm_compute in Hlower] |]).
  by apply elem_of_nil in H.
Qed.

Lemma getMoodKeywords_Inherited mood :
  toLowerCase mood ∈ Object_prototype →
  getMoodKeywords mood = Inherited (toLowerCase mood).
Proof.
  intros H. unfold getMoodKeywords.
  by rewrite getProperty_inherited by (by try apply moodMap_inherited).
Qed.

Lemma getMoodKeywords_not_inherited mood :
  toLowerCase mood ∉ Object_prototype →
  ∃ keywords, getMoodKeywords mood = Just keywords.
Proof.
  intros H. unfold getMoodKeywords, getProperty.
  destruct (moodMap !! toLowerCase mood); simpl; [eauto |].
  rewrite bool_decide_eq_false_2 by done. simpl. eauto.
Qed.

Lemma getMoodKeywords_keywords mood keywords :
  getMoodKeywords mood = Just keywords →
  (length keywords = 3%nat ∨ length keywords = 5%nat) ∧
  Forall (fun keyword => keyword ≠ "" ∧ toLowerCase keyword = keyword)
         keywords.
Proof.
  intros [H|(_ & _ & ->)]%orElse_Just.
  - destruct (moodMap_keywords _ _ H). split; [by right | done].
  - split; [by left |]. repeat (constructor; [by split |]). constructor.
Qed.

Lemma scorePlaylist_named mood p n keywords :
  getMoodKeywords mood = Just keywords →
  name p = Some n →
  ∃ s, scorePlaylist mood p = Ok s ∧ playlist s = p ∧
       (Rmin (IZR (tracks_total p) / 10) 10 <= score s
        <= Rmin (IZR (tracks_total p) / 10) 10 + 8)%R ∧
       (existsb (fun keyword => includes (toLowerCase n) (toLowerCase keyword))
                keywords = true →
        (Rmin (IZR (tracks_total p) / 10) 10 + 5 <= score s)%R).
Proof.
  intros Hk Hn. unfold scorePlaylist, lowerName. rewrite Hk, Hn.
  destruct keywords as [|k ks].
  - eexists. split; [done |]. simpl.
    split; [done |]. split; [| done].
    destruct (truthy (description p)), (images p) as [[|??]|]; lra.
  - set (hit := existsb _ (k :: ks)).
    eexists. split; [done |]. simpl. split; [done |].
    destruct hit, (truthy (description p)), (images p) as [[|??]|];
      (split; [lra | first [done | intros _; lra]]).
Qed.

Lemma scorePlaylist_unnamed mood p :
  name p = None → ∃ e, scorePlaylist mood p = Throw e.
Proof.
  intros Hn. unfold scorePlaylist, lowerName. rewrite Hn.
  destruct (getMoodKeywords mood) as [keywords|key] eqn:Hk; [| eauto].
  pose proof (getMoodKeywords_keywords _ _ Hk) as [Hlen _].
  destruct keywords; [simpl in Hlen; lia | eauto].
Qed.

Lemma scorePlaylist_Inherited mood p :
  toLowerCase mood ∈ Object_prototype →
  scorePlaylist mood p
  = Throw (TypeError "moodKeywords.some is not a function").
Proof.
  intros H. unfold scorePlaylist. by rewrite getMoodKeywords_Inherited.
Qed.

Lemma static_selectBestPlaylist_named playlists mood :
  playlists ≠ [] →
  toLowerCase mood ∉ Object_prototype →
  (∀ p, p ∈ playlists → is_Some (name p)) →
  ∃ best sbest,
    selectBestPlaylist playlists mood = Ok best ∧
    (best ∈ playlists) ∧
    scorePlaylist mood best = Ok sbest ∧
    ∀ p, p ∈ playlists →
      ∃ sp, scorePlaylist mood p = Ok sp ∧ (score sp <= score sbest)%R.
Proof.
  intros Hne [keywords Hk]%getMoodKeywords_not_inherited Hnamed.
  unfold selectBestPlaylist.
  destruct (mapResult_Ok (scorePlaylist mood) playlists) as (ys & -> & Hall).
  { intros p [n Hn]%Hnamed.
    destruct (scorePlaylist_named mood p n _ Hk Hn) as (s & -> & _). eauto. }
  destruct (sort byScoreDesc ys) as [|b others] eqn:Hsort.
  { apply (f_equal length) in Hsort. rewrite sort_length in Hsort.
    apply Forall2_length in Hall. destruct playlists, ys; done. }
  apply sort_head_max in Hsort as [Hb Hmax].
  assert (Hback : ∀ y, y ∈ ys →
            (playlist y ∈ playlists) ∧ scorePlaylist mood (playlist y) = Ok y).
  { intros y Hy.
    destruct (proj1 (list_elem_of_lookup ys y) Hy) as [i Hi].
    destruct (Forall2_lookup_r _ _ _ _ _ Hall Hi) as (p & Hp & Hfp).
    assert (Hpl : playlist y = p).
    { destruct (Hnamed p) as [n Hn]; [by eapply list_elem_of_lookup_2 |].
      destruct (scorePlaylist_named mood p n _ Hk Hn) as (s & Hs & Hps & _).
      congruence. }
    rewrite Hpl. split; [by eapply list_elem_of_lookup_2 | done]. }
  destruct (Hback b Hb) as [Hin Hscore].
  exists (playlist b), b. split_and!; [done | done | done |].
  intros p Hp.
  destruct (proj1 (list_elem_of_lookup playlists p) Hp) as [i Hi].
  destruct (Forall2_lookup_l _ _ _ _ _ Hall Hi) as (sp & Hsp & Hfp).
  exists sp. split; [done |]. apply Hmax. by eapply list_elem_of_lookup_2.
Qed.

Lemma static_selectBestPlaylist_Inherited playlists mood :
  playlists ≠ [] →
  toLowerCase mood ∈ Object_prototype →
  selectBestPlaylist playlists mood
  = Throw (TypeError "moodKeywords.some is not a function").
Proof.
  intros Hne Hin. unfold selectBestPlaylist.
  rewrite (mapResult_all_Throw _ _
             (TypeError "moodKeywords.some is not a function")); [done | done |].
  intros p. by apply scorePlaylist_Inherited.
Qed.

End static_select.

(** X13: [getMoodKeywords] ignores the letter case of the mood. Its result
    is an array of three or five keywords, none empty and all in lower case
    already: the keywords of the mood, or the three default keywords for a
    mood that has none. The two exceptions are the moods that read
    [constructor] or [__proto__] when lowercased: for them the result is no
    array but what the table inherits under that name. *)
Theorem getMoodKeywords_case_insensitive (mood : string) :
  SpotifyServiceStatic.getMoodKeywords (toLowerCase mood)
  = SpotifyServiceStatic.getMoodKeywords mood ∧
  match SpotifyServiceStatic.getMoodKeywords mood with
  | Just keywords =>
      toLowerCase mood ≠ "constructor" ∧ toLowerCase mood ≠ "__proto__" ∧
      (SpotifyServiceStatic.moodMap !! toLowerCase mood = Some keywords ∨
       (SpotifyServiceStatic.moodMap !! toLowerCase mood = None ∧
        keywords = ["music"; "playlist"; "good vibes"])) ∧
      (length keywords = 3%nat ∨ length keywords = 5%nat) ∧
      Forall (fun keyword => keyword ≠ "" ∧ toLowerCase keyword = keyword)
             keywords
  | Inherited key =>
      key = toLowerCase mood ∧ (key = "constructor" ∨ key = "__proto__")
  end.
Proof.
  split.
  { unfold SpotifyServiceStatic.getMoodKeywords.
    by rewrite toLowerCase_idempotent. }
  destruct (SpotifyServiceStatic.getMoodKeywords mood) as [keywords|key]
    eqn:Hk.
  - pose proof (getMoodKeywords_keywords _ _ Hk) as [Hlen Hall].
    assert (Hnot : toLowerCase mood ∉ Object_prototype).
    { intros Hin. by rewrite (getMoodKeywords_Inherited _ Hin) in Hk. }
    split_and!; try done.
    + intros Heq. apply Hnot. rewrite Heq.
      apply (bool_decide_unpack _). by vm_compute.
    + intros Heq. apply Hnot. rewrite Heq.
      apply (bool_decide_unpack _). by vm_compute.
    + apply orElse_Just in Hk as [?|(? & _ & ?)]; [by left | by right].
  - apply orElse_Inherited in Hk as (_ & Hin & ->).
    split; [done |]. apply lowercase_inherited; [done |].
    apply toLowerCase_idempotent.
Qed.

(** X14: [selectBestPlaylist] of [SpotifyServiceStatic] has no guard for the
    empty sequence and fails there with a [TypeError]; it also fails when a
    playlist has no name, and on every non-empty sequence when the mood
    lowercased is a name inherited from [Object.prototype]. For any other
    mood and a non-empty sequence of named playlists it returns one of them
    whose score no other exceeds; a score lies between
    [min (tracks / 10) 10] and that plus 8. *)
Theorem static_selectBestPlaylist_spec
    (playlists : list SpotifyPlaylist) (mood : string) :
  SpotifyServiceStatic.selectBestPlaylist [] mood
  = Throw (TypeError "Cannot read properties of undefined") ∧
  ((∃ p, p ∈ playlists ∧ name p = None) →
   ∃ e, SpotifyServiceStatic.selectBestPlaylist playlists mood = Throw e) ∧
  (playlists ≠ [] →
   (toLowerCase mood ∈ Object_prototype) →
   SpotifyServiceStatic.selectBestPlaylist playlists mood
   = Throw (TypeError "moodKeywords.some is not a function")) ∧
  (playlists ≠ [] →
   (toLowerCase mood ∉ Object_prototype) →
   (∀ p, p ∈ playlists → is_Some (name p)) →
   ∃ best sbest,
     SpotifyServiceStatic.selectBestPlaylist playlists mood = Ok best ∧
     (best ∈ playlists) ∧
     SpotifyServiceStatic.scorePlaylist mood best = Ok sbest ∧
     ∀ p, p ∈ playlists →
       ∃ sp, SpotifyServiceStatic.scorePlaylist mood p = Ok sp ∧
             (score sp <= score sbest)%R ∧
             (Rmin (IZR (tracks_total p) / 10) 10 <= score sp
              <= Rmin (IZR (tracks_total p) / 10) 10 + 8)%R).
Proof.
  split_and!.
  - reflexivity.
  - intros (p & Hp & Hn). unfold SpotifyServiceStatic.selectBestPlaylist.
    destruct (scorePlaylist_unnamed mood p Hn) as [e He].
    destruct (mapResult_Throw _ _ _ _ Hp He) as [e' ->]. eauto.
  - apply static_selectBestPlaylist_Inherited.
  - intros Hne Hmood Hnamed.
    destruct (static_selectBestPlaylist_named playlists mood Hne Hmood Hnamed)
      as (best & sbest & Hsel & Hin & Hscore & Hmax).
    destruct (getMoodKeywords_not_inherited _ Hmood) as [keywords Hk].
    exists best, sbest. split_and!; try done.
    intros p Hp. destruct (Hmax p Hp) as (sp & Hsp & Hle).
    exists sp. split_and!; try done;
      destruct (Hnamed p Hp) as [n Hn];
      destruct (scorePlaylist_named mood p n _ Hk Hn) as (s & Hs & _ & Hb & _);
      assert (s = sp) as -> by congruence; lra.
Qed.

(** Two named playlists: one of them is selected for [Happy], none for
    [Constructor]; a playlist without a name makes the selection fail. *)
Lemma static_selectBestPlaylist_spec_witness :
  (∃ best, SpotifyServiceStatic.selectBestPlaylist
             [candidate45; happyHits] "Happy" = Ok best) ∧
  SpotifyServiceStatic.selectBestPlaylist [candidate45; happyHits] "Constructor"
  = Throw (TypeError "moodKeywords.some is not a function") ∧
  (∃ e, SpotifyServiceStatic.selectBestPlaylist
          [{| id := "x"; name := None; description := None;
              external_urls := ""; images := None; tracks_total := 30%Z;
              followers := None |}] "Happy" = Throw e).
Proof.
  split_and!.
  - destruct (proj2 (proj2 (proj2 (static_selectBestPlaylist_spec
                                     [candidate45; happyHits] "Happy"))))
      as (best & _ & Hsel & _); [done | | | eauto].
    + apply (bool_decide_unpack _). by vm_compute.
    + intros p Hp.
      repeat (apply elem_of_cons in Hp as [->|Hp]; [by eexists |]).
      by apply elem_of_nil in Hp.
  - apply (proj1 (proj2 (proj2 (static_selectBestPlaylist_spec
                                  [candidate45; happyHits] "Constructor"))));
      [done |].
    apply (bool_decide_unpack _). by vm_compute.
  - apply (proj1 (proj2 (static_selectBestPlaylist_spec _ "Happy"))).
    eexists. split; [by left | done].
Defined.

(** X15: With the placeholder token [getPlaylistForMood] of
    [SpotifyServiceStatic] returns [null] without a request. With any other
    token it never throws. For a mood whose keywords are an array it issues
    one request for each keyword; it returns [null] when the search found
    nothing, and otherwise a playlist of the search result, which has more
    than ten tracks and a name that contains a keyword of the mood, and
    whose score no other playlist of the result exceeds. For a mood that
    reads [constructor] or [__proto__] when lowercased, whose keywords are
    no array, it returns [null] without a request. *)
Theorem static_getPlaylistForMood_spec
    (env : Env) (ACCESS_TOKEN mood : string) (log : list Request) :
  (ACCESS_TOKEN = SpotifyServiceStatic.PLACEHOLDER_TOKEN →
   SpotifyServiceStatic.getPlaylistForMood env ACCESS_TOKEN mood log
   = (Ok None, log)) ∧
  (ACCESS_TOKEN ≠ SpotifyServiceStatic.PLACEHOLDER_TOKEN →
   match SpotifyServiceStatic.getMoodKeywords mood with
   | Inherited _ =>
       SpotifyServiceStatic.getPlaylistForMood env ACCESS_TOKEN mood log
       = (Ok None, log)
   | Just keywords =>
       let log' := log ++ map (keywordRequest ACCESS_TOKEN) keywords in
       ∃ playlists,
         SpotifyServiceStatic.searchPlaylistsByMood env ACCESS_TOKEN
           (Just keywords) log
         = (Ok playlists, log') ∧
         match playlists with
         | [] =>
             SpotifyServiceStatic.getPlaylistForMood env ACCESS_TOKEN mood log
             = (Ok None, log')
         | _ :: _ =>
             ∃ best sbest,
               SpotifyServiceStatic.getPlaylistForMood env ACCESS_TOKEN mood log
               = (Ok (Some best), log') ∧
               (best ∈ playlists) ∧
               matchesKeyword keywords best ∧
               SpotifyServiceStatic.scorePlaylist mood best = Ok sbest ∧
               ∀ p, p ∈ playlists →
                 ∃ sp, SpotifyServiceStatic.scorePlaylist mood p = Ok sp ∧
                       (score sp <= score sbest)%R
         end
   end).
Proof.
  split.
  - intros ->. reflexivity.
  - intros Htok.
    destruct (SpotifyServiceStatic.getMoodKeywords mood) as [keywords|key]
      eqn:Hk.
    2: { unfold SpotifyServiceStatic.getPlaylistForMood, try_catch, bind, ret.
         rewrite (proj2 (String.eqb_neq _ _) Htok). by rewrite Hk. }
    intros log'.
    destruct (searchKeywords_loop_spec env ACCESS_TOKEN keywords [] log)
      as (playlists & Hloop & Hin).
    assert (Hmatch : ∀ p, p ∈ playlists → matchesKeyword keywords p).
    { intros p Hp. destruct (Hin p Hp) as [Hnil|?]; [| done].
      by apply elem_of_nil in Hnil. }
    exists playlists. split; [exact Hloop |].
    unfold SpotifyServiceStatic.getPlaylistForMood, try_catch, bind, ret, lift.
    rewrite (proj2 (String.eqb_neq _ _) Htok).
    rewrite Hk. unfold SpotifyServiceStatic.searchPlaylistsByMood.
    rewrite Hloop. fold log'.
    destruct playlists as [|p0 rest]; [done |]. simpl Nat.eqb. cbv iota.
    destruct (static_selectBestPlaylist_named (p0 :: rest) mood)
      as (best & sbest & Hsel & Hbest & Hscore & Hmax); [done | | |].
    { intros Hin'.
      by rewrite (getMoodKeywords_Inherited _ Hin') in Hk. }
    { intros p Hp. destruct (Hmatch p Hp) as [_ (n & _ & -> & _)]. eauto. }
    exists best, sbest. rewrite Hsel. split_and!; try done. by apply Hmatch.
Qed.

(** With a token set and a catalogue that answers every search with [Road
    trip] and [Happy Hits], the mood [Happy] gets [Happy Hits] after five
    requests. *)
Lemma static_getPlaylistForMood_spec_witness :
  "token" ≠ SpotifyServiceStatic.PLACEHOLDER_TOKEN ∧
  SpotifyServiceStatic.getPlaylistForMood catalogueWithNames "token" "Happy" []
  = (Ok (Some happyHits),
     map (keywordRequest "token")
         ["happy"; "upbeat"; "cheerful"; "joyful"; "positive"]).
Proof.
  assert (Htok : "token" ≠ SpotifyServiceStatic.PLACEHOLDER_TOKEN) by done.
  split; [exact Htok |].
  pose proof (proj2 (static_getPlaylistForMood_spec catalogueWithNames "token"
                       "Happy" []) Htok) as Hspec.
  assert (Hk : SpotifyServiceStatic.getMoodKeywords "Happy"
               = Just ["happy"; "upbeat"; "cheerful"; "joyful"; "positive"])
    by (by vm_compute).
  rewrite Hk in Hspec. destruct Hspec as (playlists & Hsearch & Hget).
  assert (playlists = [happyHits]) as ->.
  { assert (Hrun : SpotifyServiceStatic.searchPlaylistsByMood
                     catalogueWithNames "token"
                     (Just ["happy"; "upbeat"; "cheerful"; "joyful";
                            "positive"]) []
                   = (Ok [happyHits],
                      map (keywordRequest "token")
                          ["happy"; "upbeat"; "cheerful"; "joyful"; "positive"]))
      by reflexivity.
    rewrite Hrun in Hsearch. by injection Hsearch. }
  destruct Hget as (best & _ & -> & Hbest & _).
  apply list_elem_of_singleton in Hbest as ->. reflexivity.
Defined.

(** X16: The outcomes of [SpotifyService.getPlaylistForMood]. It returns an
    identifier exactly when a token is there and the search finds something,
    and then it is the identifier of a playlist of the search result whose
    score no other exceeds. It fails with the authentication message
    exactly when no token is there, without a request, and with the generic
    message exactly when a token is there and the search finds nothing.
    There is no other outcome. *)
Theorem getPlaylistForMood_outcomes
    (env : Env) (mood : string) (log : list Request) :
  let token := authToken env log in
  match SpotifyService.getPlaylistForMood env mood log with
  | (Ok playlistId, log') =>
      truthy token = true ∧
      ∃ playlists best sbest,
        SpotifyService.searchPlaylistsByMood env mood (default "" token) log
        = (Ok playlists, log') ∧
        (best ∈ playlists) ∧ id best = playlistId ∧
        SpotifyService.calculatePlaylistScore best mood = Ok sbest ∧
        ∀ p, p ∈ playlists →
          ∃ sp, SpotifyService.calculatePlaylistScore p mood = Ok sp ∧
                (sp <= sbest)%R
  | (Throw e, log') =>
      (truthy token = false ∧ log' = log ∧
       e = Error "Please authenticate with Spotify to get personalized playlists")
      ∨
      (truthy token = true ∧
       SpotifyService.searchPlaylistsByMood env mood (default "" token) log
       = (Ok [], log') ∧
       e = Error "Failed to get playlist for mood")
  end.
Proof.
  intros token. rewrite getPlaylistForMood_reworded.
  destruct (truthy token) eqn:Htok.
  - destruct (searchPlaylistsByMood_never_throws env mood (default "" token) log)
      as (playlists & log' & Hsearch).
    destruct playlists as [|p0 rest].
    + rewrite (getPlaylistForMood_try_empty _ _ _ _ Htok Hsearch). simpl.
      right. by rewrite Hsearch.
    + destruct (getPlaylistForMood_try_nonempty _ _ _ _ _ Htok Hsearch)
        as (terms & best & Hterms & Hsel & Hin & Hmax & ->); [done |].
      simpl. split; [done |].
      exists (p0 :: rest), best, (scoreWith terms best). rewrite Hsearch.
      split_and!; [done | done | done | by apply calculatePlaylistScore_Just |].
      intros p Hp. exists (scoreWith terms p).
      split; [by apply calculatePlaylistScore_Just | by apply Hmax].
  - rewrite (getPlaylistForMood_try_unauthenticated _ _ _ Htok). simpl.
    by left.
Qed.

(** ** EnvConfig *)

Section masking.

Lemma length_append s t :
  String.length (s +:+ t) = (String.length s + String.length t)%nat.
Proof.
  induction s as [|c s IH]; [done |]. rewrite append_cons. simpl. by rewrite IH.
Qed.

Lemma length_substring n m s :
  String.length (substring n m s) = Nat.min m (String.length s - n).
Proof.
  revert n m. induction s as [|c s IH]; intros n m.
  - destruct n, m; simpl; lia.
  - destruct n as [|n]; simpl.
    + destruct m as [|m]; simpl; [done |]. rewrite IH. lia.
    + by rewrite IH.
Qed.

Lemma length_repeatStar n : String.length (repeatStar n) = n.
Proof. induction n as [|n IH]; simpl; [done | by rewrite IH]. Qed.

Lemma get_repeatStar n i :
  (i < n)%nat → get i (repeatStar n) = Some "*"%char.
Proof.
  revert i. induction n as [|n IH]; intros i Hi; [lia |].
  destruct i as [|i]; simpl; [done |]. apply IH. lia.
Qed.

Lemma get_beyond s i : (String.length s ≤ i)%nat → get i s = None.
Proof.
  revert i. induction s as [|c s IH]; intros i Hi; [done |].
  destruct i as [|i]; simpl in *; [lia |]. apply IH. lia.
Qed.

End masking.

(** X17: [getMaskedClientId] answers [Not configured] for a missing identifier
    and for one of fewer than eight characters. Otherwise the result is as
    long as the identifier and agrees with it on the first four and the last
    four characters, and every character in between is a star; an
    identifier of exactly eight characters comes back unmasked. *)
Theorem getMaskedClientId_spec (clientId : string) (i : nat) :
  EnvConfig.getMaskedClientId None = "Not configured" ∧
  ((String.length clientId < 8)%nat →
   EnvConfig.getMaskedClientId (Some clientId) = "Not configured") ∧
  ((8 ≤ String.length clientId)%nat →
   let masked := EnvConfig.getMaskedClientId (Some clientId) in
   String.length masked = String.length clientId ∧
   get i masked
   = (if (4 <=? i)%nat && (i <? String.length clientId - 4)%nat
      then (if (i <? String.length clientId)%nat then Some "*"%char else None)
      else get i clientId) ∧
   (String.length clientId = 8%nat → masked = clientId)).
Proof.
  split; [done |]. split.
  - intros Hlen. unfold EnvConfig.getMaskedClientId. simpl default.
    rewrite (proj2 (Nat.ltb_lt _ _) Hlen). by rewrite orb_true_r.
  - intros Hlen masked.
    assert (Hmasked : masked
      = substring 0 4 clientId
        +:+ (repeatStar (String.length clientId - 8)
             +:+ substring (String.length clientId - 4) 4 clientId)).
    { unfold masked, EnvConfig.getMaskedClientId. simpl default.
      rewrite (proj2 (Nat.ltb_ge _ _) Hlen).
      destruct clientId; [simpl in Hlen; lia | done]. }
    assert (Hlength : String.length masked = String.length clientId).
    { rewrite Hmasked, !length_append, !length_substring, length_repeatStar.
      lia. }
    assert (Hget : ∀ j, get j masked
      = (if (4 <=? j)%nat && (j <? String.length clientId - 4)%nat
         then (if (j <? String.length clientId)%nat then Some "*"%char else None)
         else get j clientId)).
    { intros j. rewrite Hmasked.
      set (start := substring 0 4 clientId).
      set (middle := repeatStar (String.length clientId - 8)).
      set (end_ := substring (String.length clientId - 4) 4 clientId).
      assert (Hstart : String.length start = 4%nat)
        by (unfold start; rewrite length_substring; lia).
      assert (Hmiddle : String.length middle = (String.length clientId - 8)%nat)
        by apply length_repeatStar.
      destruct (Nat.leb_spec 4 j) as [H4|H4]; simpl.
      - replace j with (j - 4 + String.length start)%nat at 1 by lia.
        rewrite <- append_correct2.
        destruct (Nat.ltb_spec j (String.length clientId - 4)) as [Hmid|Hend].
        + rewrite <- append_correct1 by lia.
          rewrite (proj2 (Nat.ltb_lt j _)) by lia.
          apply get_repeatStar. lia.
        + replace (j - 4)%nat
            with (j - (String.length clientId - 4) + String.length middle)%nat
            by lia.
          rewrite <- append_correct2. unfold end_.
          destruct (Nat.lt_ge_cases (j - (String.length clientId - 4)) 4)
            as [Hin|Hout].
          * rewrite substring_correct1 by done. f_equal. lia.
          * rewrite substring_correct2 by done.
            symmetry. apply get_beyond. lia.
      - rewrite <- append_correct1 by lia. unfold start.
        rewrite substring_correct1 by done. f_equal. lia. }
    split_and!; [done | apply Hget |].
    intros H8. apply get_correct. intros j. rewrite Hget, H8.
    assert (Hnone : (4 <=? j)%nat && (j <? 8 - 4)%nat = false).
    { apply andb_false_iff.
      destruct (Nat.leb_spec 4 j); [right | by left].
      apply Nat.ltb_ge. lia. }
    by rewrite Hnone.
Qed.

(** An identifier of twelve characters. *)
Lemma getMaskedClientId_spec_witness :
  (8 ≤ String.length "abcdefghijkl")%nat ∧
  EnvConfig.getMaskedClientId (Some "abcdefghijkl") = "abcd****ijkl".
Proof.
  split; [simpl; lia |].
  apply get_correct. intros j.
  destruct (proj2 (proj2 (getMaskedClientId_spec "abcdefghijkl" j)))
    as (_ & -> & _); [simpl; lia |].
  do 12 (destruct j as [|j]; [reflexivity |]). reflexivity.
Defined.

(** X18: [validateConfig] returns normally exactly when [isConfigured] holds.
    Otherwise the message it throws names the client identifier exactly
    when that one is missing or still the placeholder, and names the client
    secret exactly when that one is. *)
Theorem validateConfig_message
    (SPOTIFY_CLIENT_ID SPOTIFY_CLIENT_SECRET : option string) :
  match SpotifyAuthService.validateConfig SPOTIFY_CLIENT_ID SPOTIFY_CLIENT_SECRET with
  | Ok _ =>
      EnvConfig.isConfigured SPOTIFY_CLIENT_ID SPOTIFY_CLIENT_SECRET = true
  | Throw e =>
      EnvConfig.isConfigured SPOTIFY_CLIENT_ID SPOTIFY_CLIENT_SECRET = false ∧
      includes (message e) "SPOTIFY_CLIENT_ID"
      = negb (truthy SPOTIFY_CLIENT_ID
              && differs SPOTIFY_CLIENT_ID "YOUR_SPOTIFY_CLIENT_ID") ∧
      includes (message e) "SPOTIFY_CLIENT_SECRET"
      = negb (truthy SPOTIFY_CLIENT_SECRET
              && differs SPOTIFY_CLIENT_SECRET "YOUR_SPOTIFY_CLIENT_SECRET")
  end.
Proof.
  unfold SpotifyAuthService.validateConfig, EnvConfig.getConfigStatus,
    EnvConfig.isConfigured.
  cbn [EnvConfig.hasClientId EnvConfig.hasClientSecret EnvConfig.clientIdValid
       EnvConfig.clientSecretValid].
  destruct (truthy SPOTIFY_CLIENT_ID),
           (differs SPOTIFY_CLIENT_ID "YOUR_SPOTIFY_CLIENT_ID"),
           (truthy SPOTIFY_CLIENT_SECRET),
           (differs SPOTIFY_CLIENT_SECRET "YOUR_SPOTIFY_CLIENT_SECRET");
    by vm_compute.
Qed.

(** ** ImageService *)

Section image.

Lemma toLowerCase_append s t :
  toLowerCase (s +:+ t) = toLowerCase s +:+ toLowerCase t.
Proof.
  induction s as [|c s IH]; [done |].
  rewrite append_cons. simpl. by rewrite IH, append_cons.
Qed.

Lemma append_assoc s t u : (s +:+ t) +:+ u = s +:+ (t +:+ u).
Proof.
  induction s as [|c s IH]; [done |]. by rewrite !append_cons, IH.
Qed.

Lemma Substring_append sub s pre post :
  Substring sub s → Substring sub (pre +:+ s +:+ post).
Proof.
  intros (a & b & ->). exists (pre +:+ a), (b +:+ post).
  by rewrite !append_assoc.
Qed.

Lemma truthy_toLowerCase s : truthy (Some (toLowerCase s)) = truthy (Some s).
Proof. by destruct s. Qed.

End image.

(** X19: [validateImageFile] rejects the empty URI, ignores letter case, and
    looks for an extension anywhere in the URI: a URI that is accepted stays
    accepted whatever is put before or after it. *)
Theorem validateImageFile_spec (imageUri pre post : string) :
  ImageService.validateImageFile "" = false ∧
  ImageService.validateImageFile (toLowerCase imageUri)
  = ImageService.validateImageFile imageUri ∧
  (ImageService.validateImageFile imageUri = true →
   ImageService.validateImageFile (pre +:+ imageUri +:+ post) = true).
Proof.
  split; [done |]. split.
  - unfold ImageService.validateImageFile.
    by rewrite truthy_toLowerCase, toLowerCase_idempotent.
  - unfold ImageService.validateImageFile.
    destruct (truthy (Some imageUri)) eqn:Huri; [| done]. simpl negb.
    cbv iota. intros (format & Hin & Hinc)%existsb_exists.
    assert (Hlong : truthy (Some (pre +:+ imageUri +:+ post)) = true).
    { destruct pre; [| done]. rewrite append_nil.
      destruct imageUri; [done |]. by rewrite append_cons. }
    change (truthy (Some (pre +:+ imageUri +:+ post)))
      with (match pre +:+ imageUri +:+ post with
            | "" => false
            | String _ _ => true
            end) in Hlong.
    rewrite Hlong. simpl negb. cbv iota.
    apply existsb_exists. exists format. split; [done |].
    apply includes_spec. rewrite !toLowerCase_append.
    apply Substring_append. by apply includes_spec.
Qed.

(** A picture, and the same name with something appended. *)
Lemma validateImageFile_spec_witness :
  ImageService.validateImageFile "photo.PNG" = true ∧
  ImageService.validateImageFile ("" +:+ "photo.PNG" +:+ ".exe") = true.
Proof.
  assert (H : ImageService.validateImageFile "photo.PNG" = true)
    by reflexivity.
  split; [exact H |].
  exact (proj2 (proj2 (validateImageFile_spec "photo.PNG" "" ".exe")) H).
Defined.

(** ** The detectors and the moods that the services know *)

Section detectors.

Lemma floorTimes_range (r : Q) (n : Z) :
  (0 <= r)%Q → (r < 1)%Q → (0 < n)%Z → (0 <= floorTimes r n < n)%Z.
Proof.
  intros H0 H1 Hn. unfold floorTimes. split.
  - rewrite <- (Qfloor_Z 0). apply Qfloor_resp_le.
    apply Qmult_le_0_compat; [done |].
    change 0%Q with (inject_Z 0). rewrite <- Zle_Qle. lia.
  - rewrite Zlt_Qlt.
    eapply Qle_lt_trans; [apply Qfloor_le |].
    rewrite <- (Qmult_1_l (inject_Z n)) at 2.
    apply Qmult_lt_compat_r; [| done].
    change 0%Q with (inject_Z 0). rewrite <- Zlt_Qlt. lia.
Qed.

End detectors.

(** X20: [analyzeImage] of the mock detector fails on the empty URI. Otherwise,
    for a random number in [0, 1), it returns one of the six mood
    categories, and each of them is a key of the search term table of
    [SpotifyService]. The confidence score lies between 80 and 99. *)
Theorem analyzeImage_supported_mood
    (imageUri : string) (random1 random2 : Q) :
  VisionService.analyzeImage "" random1 random2
  = Throw (Error "Failed to analyze image mood") ∧
  (imageUri ≠ "" → (0 <= random2)%Q → (random2 < 1)%Q →
   ∃ mood terms,
     VisionService.analyzeImage imageUri random1 random2 = Ok (Some mood) ∧
     (mood ∈ VisionService.MOOD_CATEGORIES) ∧
     SpotifyService.MOOD_TO_SEARCH_TERMS !! mood = Some terms ∧
     (80 <= VisionService.getConfidenceScore random2 <= 99)%Z).
Proof.
  split; [done |].
  intros Huri H0 H1. unfold VisionService.analyzeImage.
  assert (Htruthy : truthy (Some imageUri) = true) by (by destruct imageUri).
  rewrite Htruthy. simpl negb. cbv iota.
  pose proof (floorTimes_range random2 20 H0 H1 eq_refl) as H20.
  pose proof (floorTimes_range random2
                (Z.of_nat (length VisionService.MOOD_CATEGORIES)) H0 H1 eq_refl)
    as H6.
  change (Z.of_nat (length VisionService.MOOD_CATEGORIES)) with 6%Z in *.
  destruct (floorTimes random2 6) as [|i|i] eqn:Hi; [| | lia].
  - eexists _, _. split; [reflexivity |].
    split_and!; [by left | by vm_compute |
                 unfold VisionService.getConfidenceScore; lia ..].
  - simpl in H6.
    assert (Hcases : i = 1%positive ∨ i = 2%positive ∨ i = 3%positive
                     ∨ i = 4%positive ∨ i = 5%positive) by lia.
    destruct Hcases as [-> | [-> | [-> | [-> | ->] ] ] ];
      (eexists _, _; split; [reflexivity |];
       split_and!; [by repeat constructor | by vm_compute |
                    unfold VisionService.getConfidenceScore; lia ..]).
Qed.

(** A picture and the random number one half: the fourth category. *)
Lemma analyzeImage_supported_mood_witness :
  VisionService.analyzeImage "file:///photo.jpg" 0 (1 # 2)
  = Ok (Some "Energetic") ∧
  "file:///photo.jpg" ≠ "" ∧ (0 <= 1 # 2)%Q ∧ (1 # 2 < 1)%Q.
Proof.
  assert (Huri : "file:///photo.jpg" ≠ "") by done.
  assert (H0 : (0 <= 1 # 2)%Q) by done.
  assert (H1 : (1 # 2 < 1)%Q) by done.
  split_and!; [| done | done | done].
  destruct (proj2 (analyzeImage_supported_mood "file:///photo.jpg" 0 (1 # 2))
              Huri H0 H1) as (mood & terms & Hrun & _).
  pose proof Hrun as Hmood. vm_compute in Hmood.
  injection Hmood as <-. exact Hrun.
Defined.

Section real_vision.
Import RealVisionService.

Lemma keywordScore_acc labelText keywords (a : Z) :
  (a <= fold_left
          (fun acc keyword =>
             (acc + if includes labelText keyword then 1 else 0)%Z)
          keywords a)%Z.
Proof.
  revert a. induction keywords as [|k ks IH]; intros a; simpl; [lia |].
  etrans; [| apply IH]. destruct (includes labelText k); lia.
Qed.

Lemma keywordScore_nonneg labelText keywords :
  (0 <= keywordScore labelText keywords)%Z.
Proof. apply keywordScore_acc. Qed.

Lemma bestStep_fold labelText firstMood entries seen best :
  bestOf labelText firstMood seen best →
  bestOf labelText firstMood (seen ++ entries)
    (fold_left (bestStep labelText) entries best).
Proof.
  revert seen best.
  induction entries as [|[mood keywords] entries IH]; intros seen best Hbest.
  - by rewrite app_nil_r.
  - simpl. replace (seen ++ (mood, keywords) :: entries)
      with ((seen ++ [(mood, keywords)]) ++ entries)
      by (by rewrite <- app_assoc).
    apply IH. destruct best as [bestMood bestScore].
    destruct Hbest as [Hmax Hwho]. simpl in Hmax, Hwho.
    unfold bestStep.
    destruct (Z.ltb_spec bestScore (keywordScore labelText keywords))
      as [Hlt|Hge]; split; simpl.
    + intros entry [Hin|Hin%list_elem_of_singleton]%elem_of_app.
      * specialize (Hmax entry Hin). lia.
      * subst entry. simpl. lia.
    + right. split.
      * destruct Hwho as [[-> _]|[? _]]; lia.
      * exists keywords. split; [| done].
        apply elem_of_app. right. by left.
    + intros entry [Hin|Hin%list_elem_of_singleton]%elem_of_app.
      * by apply Hmax.
      * subst entry. simpl. lia.
    + destruct Hwho as [?|[Hpos (kw & Hkw & Hscore)]]; [by left |].
      right. split; [done |]. exists kw. split; [| done].
      apply elem_of_app. by left.
Qed.

Lemma mapResult_descriptions (descriptions : list string) :
  mapResult
    (fun description : option string =>
       match description with
       | Some d => Ok (toLowerCase d)
       | None => Throw (TypeError "Cannot read properties of undefined")
       end) (Some <$> descriptions)
  = Ok (toLowerCase <$> descriptions).
Proof.
  induction descriptions as [|d ds IH]; [done |].
  rewrite !fmap_cons. simpl mapResult. by rewrite IH.
Qed.

End real_vision.

(** X21: [mapEmotionsToMood] always answers with one of the six mood categories,
    all of which are keys of the search term table of [SpotifyService]. It
    answers [Peaceful] exactly when joy and sorrow are below [POSSIBLE] and
    anger and surprise below [LIKELY], and [Peaceful] is the one answer for
    which [getMoodKeywords] of [SpotifyServiceStatic] has no keywords of its
    own and falls back to its three default keywords. *)
Theorem mapEmotionsToMood_supported (emotions : RealVisionService.Emotions) :
  let mood := RealVisionService.mapEmotionsToMood emotions in
  let level := RealVisionService.likelihoodScore in
  (mood ∈ VisionService.MOOD_CATEGORIES) ∧
  is_Some (SpotifyService.MOOD_TO_SEARCH_TERMS !! mood) ∧
  (mood = "Peaceful" ↔
   (level (RealVisionService.joyLikelihood emotions) < 2)%Z ∧
   (level (RealVisionService.sorrowLikelihood emotions) < 2)%Z ∧
   (level (RealVisionService.angerLikelihood emotions) < 3)%Z ∧
   (level (RealVisionService.surpriseLikelihood emotions) < 3)%Z) ∧
  (mood = "Peaceful" ↔
   SpotifyServiceStatic.getMoodKeywords mood
   = Just ["music"; "playlist"; "good vibes"]).
Proof.
  intros mood level. unfold mood, RealVisionService.mapEmotionsToMood.
  fold level.
  destruct (Z.leb_spec 3 (level (RealVisionService.joyLikelihood emotions)));
  [| destruct (Z.leb_spec 3 (level (RealVisionService.sorrowLikelihood emotions)));
  [| destruct (Z.leb_spec 3 (level (RealVisionService.angerLikelihood emotions)));
  [| destruct (Z.leb_spec 3 (level (RealVisionService.surpriseLikelihood emotions)));
  [| destruct (Z.leb_spec 2 (level (RealVisionService.joyLikelihood emotions)));
  [| destruct (Z.leb_spec 2 (level (RealVisionService.sorrowLikelihood emotions)))
  ]]]]];
    (split_and!;
     [ by repeat constructor
     | by vm_compute; eexists
     | split; [try discriminate; (intros _; lia) | try done; intros; lia]
     | split; [try discriminate; (intros _; by vm_compute)
              | try done; (intros Hk; by vm_compute in Hk) ] ]).
Qed.

(** X22: On labels that all have a description, [mapLabelsToMood] answers with a
    mood of its keyword table whose keywords are found in the label text at
    least as often as those of any other mood, and with [Calm] when no
    keyword is found at all; the answer is one of the six mood categories.
    A label without a description makes it throw. *)
Theorem mapLabelsToMood_spec
    (descriptions : list string) (labels : list (option string)) :
  let labelText := RealVisionService.joinSpace (toLowerCase <$> descriptions) in
  (∃ mood keywords,
     RealVisionService.mapLabelsToMood (Some <$> descriptions) = Ok mood ∧
     ((mood, keywords) ∈ RealVisionService.moodKeywords) ∧
     (mood ∈ VisionService.MOOD_CATEGORIES) ∧
     (∀ entry, entry ∈ RealVisionService.moodKeywords →
        (RealVisionService.keywordScore labelText entry.2
         <= RealVisionService.keywordScore labelText keywords)%Z) ∧
     ((∀ entry, entry ∈ RealVisionService.moodKeywords →
         RealVisionService.keywordScore labelText entry.2 = 0%Z) →
      mood = "Calm")) ∧
  (None ∈ labels → ∃ e, RealVisionService.mapLabelsToMood labels = Throw e).
Proof.
  intros labelText. split.
  - unfold RealVisionService.mapLabelsToMood.
    rewrite mapResult_descriptions. fold labelText.
    pose proof (bestStep_fold labelText "Calm" RealVisionService.moodKeywords
                  [] ("Calm", 0%Z)) as Hfold.
    destruct (fold_left _ _ _) as [mood score] eqn:Hrun.
    destruct Hfold as [Hmax Hwho].
    { split; [by intros entry ?%elem_of_nil | by left]. }
    simpl in Hmax, Hwho.
    assert (Hcalm : ("Calm", ["water"; "sky"; "blue"; "peaceful"; "quiet";
                              "serene"]) ∈ RealVisionService.moodKeywords)
      by (by repeat constructor).
    assert (Hcategory : ∀ m kw, (m, kw) ∈ RealVisionService.moodKeywords →
              m ∈ VisionService.MOOD_CATEGORIES).
    { intros m kw Hin. unfold RealVisionService.moodKeywords in Hin.
      repeat (apply elem_of_cons in Hin as [Hin|Hin];
              [injection Hin as -> _; by repeat constructor |]).
      by apply elem_of_nil in Hin. }
    destruct Hwho as [[-> ->]|[Hpos (kw & Hkw & Hscore)]].
    + eexists _, _. split; [done |]. split; [exact Hcalm |].
      split_and!; [by eapply Hcategory | | done].
      intros entry Hin. specialize (Hmax entry Hin). simpl.
      pose proof (keywordScore_nonneg labelText
                    ["water"; "sky"; "blue"; "peaceful"; "quiet"; "serene"]).
      lia.
    + exists mood, kw. split; [done |]. split; [done |].
      split_and!; [by eapply Hcategory | |].
      * intros entry Hin. specialize (Hmax entry Hin). lia.
      * intros Hzero. specialize (Hzero _ Hkw). simpl in Hzero. lia.
  - intros Hnone. unfold RealVisionService.mapLabelsToMood.
    destruct (mapResult_Throw
                (fun description : option string =>
                   match description with
                   | Some d => Ok (toLowerCase d)
                   | None =>
                       Throw (TypeError "Cannot read properties of undefined")
                   end) labels None
                (TypeError "Cannot read properties of undefined") Hnone eq_refl)
      as [e ->].
    eauto.
Qed.

(** A label without a description among two. *)
Lemma mapLabelsToMood_spec_witness :
  None ∈ [Some "Beach"; None] ∧
  ∃ e, RealVisionService.mapLabelsToMood [Some "Beach"; None] = Throw e.
Proof.
  assert (H : None ∈ [Some "Beach"; (None : option string)])
    by (right; left).
  split; [exact H |].
  exact (proj2 (mapLabelsToMood_spec [] _) H).
Defined.


(** ** SimpleSpotifyService *)

Section simple.
Import SimpleSpotifyService.

Lemma insert_sortedZ_length {A} (cmp : A → A → Z) x (l : list A) :
  length (insert_sortedZ cmp x l) = S (length l).
Proof.
  induction l as [|y l IH]; simpl; [done |].
  destruct (cmp x y <=? 0)%Z; simpl; [done | by rewrite IH].
Qed.

Lemma sortZ_length {A} (cmp : A → A → Z) (l : list A) :
  length (sortZ cmp l) = length l.
Proof.
  unfold sortZ. induction l as [|x l IH]; simpl; [done |].
  by rewrite insert_sortedZ_length, IH.
Qed.

Lemma sortZ_head_first (l : list ScoredPlaylist) best rest :
  sortZ byPointsDesc l = best :: rest →
  ∃ l1 l2, l = l1 ++ best :: l2 ∧
    (∀ x, x ∈ l1 → (points x < points best)%Z) ∧
    (∀ x, x ∈ l2 → (points x <= points best)%Z).
Proof.
  revert best rest. induction l as [|x l IH]; intros best rest; [done |].
  unfold sortZ. simpl. fold (sortZ byPointsDesc l).
  destruct (sortZ byPointsDesc l) as [|h t] eqn:Hsort; simpl.
  - intros [= <- <-].
    apply (f_equal length) in Hsort. rewrite sortZ_length in Hsort.
    destruct l; [| done].
    exists [], []. split_and!; [done | |]; by intros ? ?%elem_of_nil.
  - destruct (IH h t eq_refl) as (l1 & l2 & -> & Hl1 & Hl2).
    unfold byPointsDesc at 1.
    destruct (Z.leb_spec (points h - points x) 0) as [Hle|Hgt].
    + intros [= <- <-]. exists [], (l1 ++ h :: l2).
      split_and!; [done | by intros ? ?%elem_of_nil |].
      intros y [Hy|[->|Hy]%elem_of_cons]%elem_of_app.
      * specialize (Hl1 y Hy). lia.
      * lia.
      * specialize (Hl2 y Hy). lia.
    + intros [= <- <-]. exists (x :: l1), l2. split_and!; [done | | done].
      intros y [->|Hy]%elem_of_cons; [lia | by apply Hl1].
Qed.

Lemma synonymStep_fold name description synonyms (score : Z) :
  (score <= fold_left (synonymStep name description) synonyms score
   <= score + 30 * Z.of_nat (length synonyms))%Z.
Proof.
  revert score. induction synonyms as [|synonym synonyms IH]; intros score;
    simpl fold_left; [simpl; lia |].
  specialize (IH (synonymStep name description score synonym)).
  assert (score <= synonymStep name description score synonym <= score + 30)%Z.
  { unfold synonymStep.
    destruct (includes name synonym), (includes description synonym); lia. }
  rewrite length_cons. lia.
Qed.

Lemma moodSynonyms_length mood synonyms :
  moodSynonyms !! mood = Some synonyms → (length synonyms ≤ 6)%nat.
Proof.
  unfold moodSynonyms. intros H%elem_of_list_to_map_2.
  repeat (apply elem_of_cons in H as [H|H];
          [injection H as Hmood Hsyn; subst; simpl; lia |]).
  by apply elem_of_nil in H.
Qed.

Lemma moodSynonyms_inherited key :
  key ∈ Object_prototype → moodSynonyms !! key = None.
Proof.
  unfold Object_prototype. intros H.
  repeat (apply elem_of_cons in H as [->|H]; [by vm_compute |]).
  by apply elem_of_nil in H.
Qed.

Lemma simple_moodKeywords_inherited key :
  key ∈ Object_prototype → moodKeywords !! key = None.
Proof.
  unfold Object_prototype. intros H.
  repeat (apply elem_of_cons in H as [->|H]; [by vm_compute |]).
  by apply elem_of_nil in H.
Qed.

Lemma synonymsFor_Just moodLower synonyms :
  synonymsFor moodLower = Just synonyms →
  (moodLower ∉ Object_prototype) ∧ (length synonyms ≤ 6)%nat ∧
  (moodSynonyms !! moodLower = None → length synonyms = 1%nat).
Proof.
  intros H. split.
  - intros Hin. unfold synonymsFor in H.
    by rewrite getProperty_inherited in H
      by (by try apply moodSynonyms_inherited).
  - apply orElse_Just in H as [H|(Hnone & _ & ->)].
    + split; [by eapply moodSynonyms_length | by rewrite H].
    + split; [simpl; lia | done].
Qed.

Lemma synonymsFor_Inherited moodLower :
  moodLower ∈ Object_prototype → synonymsFor moodLower = Inherited moodLower.
Proof.
  intros H. unfold synonymsFor.
  by rewrite getProperty_inherited by (by try apply moodSynonyms_inherited).
Qed.

Lemma simple_calculatePlaylistScore_Inherited playlist mood :
  toLowerCase mood ∈ Object_prototype →
  calculatePlaylistScore playlist mood
  = Throw (TypeError "synonyms.forEach is not a function").
Proof.
  intros H. unfold calculatePlaylistScore.
  by rewrite (synonymsFor_Inherited _ H).
Qed.

Lemma simple_calculatePlaylistScore_Ok playlist mood :
  toLowerCase mood ∉ Object_prototype →
  ∃ score, calculatePlaylistScore playlist mood = Ok score.
Proof.
  intros H. unfold calculatePlaylistScore.
  destruct (synonymsFor (toLowerCase mood)) as [synonyms|key] eqn:E; [eauto |].
  by apply orElse_Inherited in E as (_ & ? & _).
Qed.

Lemma withTracks_fmap_Some (playlists : list SpotifyPlaylist) :
  withTracks (Some <$> playlists)
  = List.filter (fun playlist => (10 <? tracks_total playlist)%Z) playlists.
Proof.
  unfold withTracks. induction playlists as [|p playlists IH]; [done |].
  rewrite fmap_cons. simpl. rewrite <- IH.
  by destruct (10 <? tracks_total p)%Z.
Qed.

End simple.

(** X23: The score that [SimpleSpotifyService] gives a playlist is an
    integer between 0 and 290, and at most 140 for a mood that has no
    synonyms of its own. The one exception is a mood that, lowercased, is a
    name inherited from [Object.prototype]: the synonyms found under it are
    no array, and the scoring throws a [TypeError]. *)
Theorem simple_calculatePlaylistScore_bounds
    (playlist : SpotifyPlaylist) (mood : string) :
  match SimpleSpotifyService.calculatePlaylistScore playlist mood with
  | Ok score =>
      (toLowerCase mood ∉ Object_prototype) ∧
      (0 <= score <= 290)%Z ∧
      (SimpleSpotifyService.moodSynonyms !! toLowerCase mood = None →
       (score <= 140)%Z)
  | Throw e =>
      (toLowerCase mood ∈ Object_prototype) ∧
      e = TypeError "synonyms.forEach is not a function"
  end.
Proof.
  unfold SimpleSpotifyService.calculatePlaylistScore.
  destruct (SimpleSpotifyService.synonymsFor (toLowerCase mood))
    as [synonyms|key] eqn:Hsyn.
  2: { by apply orElse_Inherited in Hsyn as (_ & ? & _). }
  apply synonymsFor_Just in Hsyn as (Hnot & Hlen & Hone).
  set (lname := SimpleSpotifyService.lowerOrEmpty (name playlist)).
  set (ldescription :=
         SimpleSpotifyService.lowerOrEmpty (description playlist)).
  set (start := if includes ldescription (toLowerCase mood)
                then ((if includes lname (toLowerCase mood)
                       then (0 + 50)%Z else 0%Z) + 30)%Z
                else if includes lname (toLowerCase mood)
                     then (0 + 50)%Z else 0%Z).
  pose proof (synonymStep_fold lname ldescription synonyms start) as Hfold.
  assert (Hstart : (0 <= start <= 80)%Z).
  { unfold start.
    destruct (includes ldescription _), (includes lname _); lia. }
  split_and!; [done | | | intros Hnone; rewrite (Hone Hnone) in Hfold];
    destruct (SimpleSpotifyService.followersAbove playlist 1000),
             (SimpleSpotifyService.followersAbove playlist 10000),
             ((20 <=? tracks_total playlist) && (tracks_total playlist <=? 100))%Z,
             (100 <? tracks_total playlist)%Z; lia.
Qed.

(** The mood [Bored] has no synonyms of its own. *)
Lemma simple_calculatePlaylistScore_bounds_witness :
  SimpleSpotifyService.moodSynonyms !! toLowerCase "Bored" = None ∧
  ∃ score,
    SimpleSpotifyService.calculatePlaylistScore happyHits "Bored" = Ok score ∧
    (score <= 140)%Z.
Proof.
  assert (H : SimpleSpotifyService.moodSynonyms !! toLowerCase "Bored" = None)
    by (by vm_compute).
  split; [exact H |].
  pose proof (simple_calculatePlaylistScore_bounds happyHits "Bored") as Hb.
  destruct (SimpleSpotifyService.calculatePlaylistScore happyHits "Bored")
    as [score|e] eqn:E.
  - exists score. split; [done |]. by apply Hb.
  - by vm_compute in E.
Defined.

(** X24: [getPlaylistForMood] of [SimpleSpotifyService] never throws and
    issues exactly one request: for the keywords of the mood, for the mood
    as it was given when it has no keywords, and, when the mood lowercased
    is a name inherited from [Object.prototype], for the text of what the
    table inherits under that name. It returns [null] when the request is
    rejected, when the status is not a success, when no playlist of the
    answer has more than ten tracks, and always for such an inherited name.
    Otherwise it returns, with its score, the first of the playlists with
    more than ten tracks that reach the highest score. *)
Theorem simple_getPlaylistForMood_spec
    (env : Env) (ACCESS_TOKEN : string) (inheritedText : string → string)
    (mood : string) (log : list Request) :
  let searchQuery := SimpleSpotifyService.searchQueryFor mood in
  let req := {| q := textOf inheritedText searchQuery;
                bearer := ACCESS_TOKEN |} in
  match searchQuery with
  | Just text =>
      (toLowerCase mood ∉ Object_prototype) ∧
      text = default mood
               (SimpleSpotifyService.moodKeywords !! toLowerCase mood)
  | Inherited key =>
      (toLowerCase mood ∈ Object_prototype) ∧ key = toLowerCase mood
  end ∧
  ∃ result,
    SimpleSpotifyService.getPlaylistForMood env ACCESS_TOKEN inheritedText
      mood log
    = (Ok result, log ++ [req]) ∧
    match network env log req with
    | None => result = None
    | Some response =>
        let candidates :=
          SimpleSpotifyService.withTracks
            (if ok response then default [] (body response) else []) in
        match result with
        | None => candidates = [] ∨ (toLowerCase mood ∈ Object_prototype)
        | Some best =>
            (toLowerCase mood ∉ Object_prototype) ∧
            SimpleSpotifyService.calculatePlaylistScore (scored best) mood
            = Ok (points best) ∧
            ∃ before after,
              candidates = before ++ scored best :: after ∧
              (∀ p, p ∈ before →
                 ∃ score,
                   SimpleSpotifyService.calculatePlaylistScore p mood
                   = Ok score ∧ (score < points best)%Z) ∧
              (∀ p, p ∈ after →
                 ∃ score,
                   SimpleSpotifyService.calculatePlaylistScore p mood
                   = Ok score ∧ (score <= points best)%Z)
        end
    end.
Proof.
  intros searchQuery req. split.
  { unfold searchQuery, SimpleSpotifyService.searchQueryFor.
    destruct (orElse _ mood) as [text|key] eqn:E.
    - split.
      + intros Hin. unfold SimpleSpotifyService.searchQueryFor in E.
        by rewrite getProperty_inherited in E
          by (by try apply simple_moodKeywords_inherited).
      + by apply orElse_Just in E as [->|(-> & _ & ->)].
    - by apply orElse_Inherited in E as (_ & ? & ->). }
  unfold SimpleSpotifyService.getPlaylistForMood, try_catch, bind, fetch, ret,
    lift.
  fold searchQuery. fold req.
  destruct (network env log req) as [response|]; [| by eexists].
  destruct (ok response); simpl negb; cbv iota;
    [| eexists; split; [done | by left]].
  destruct (default [] (body response)) as [|p0 rest] eqn:Hbody;
    [eexists; split; [done | by left] |].
  simpl Nat.eqb. cbv iota.
  destruct (decide (toLowerCase mood ∈ Object_prototype)) as [Hin|Hnot].
  { destruct (SimpleSpotifyService.scoredPlaylists (p0 :: rest) mood)
      as [[|best others]|e] eqn:Hscored.
    - eexists; split; [done | by right].
    - exfalso. unfold SimpleSpotifyService.scoredPlaylists in Hscored.
      destruct (SimpleSpotifyService.withTracks (p0 :: rest)) as [|c cs] eqn:Hc.
      + simpl in Hscored. by injection Hscored.
      + rewrite (mapResult_all_Throw _ _
                   (TypeError "synonyms.forEach is not a function"))
          in Hscored; [done | done |].
        intros p.
        by rewrite (simple_calculatePlaylistScore_Inherited _ _ Hin).
    - eexists; split; [done | by right]. }
  unfold SimpleSpotifyService.scoredPlaylists.
  set (candidates := SimpleSpotifyService.withTracks (p0 :: rest)).
  set (f := fun playlist =>
              match SimpleSpotifyService.calculatePlaylistScore playlist mood
              with
              | Ok score => Ok {| scored := playlist; points := score |}
              | Throw e => Throw e
              end).
  destruct (mapResult_Ok f candidates) as (ys & -> & Hall).
  { intros p _. unfold f.
    destruct (simple_calculatePlaylistScore_Ok p mood Hnot) as [s ->]. eauto. }
  assert (Hf : ∀ p y, f p = Ok y →
            scored y = p ∧
            SimpleSpotifyService.calculatePlaylistScore p mood = Ok (points y)).
  { intros p y. unfold f.
    destruct (SimpleSpotifyService.calculatePlaylistScore p mood); [| done].
    by intros [= <-]. }
  destruct (sortZ _ ys) as [|best others] eqn:Hsort.
  - eexists. split; [done |]. left.
    apply (f_equal length) in Hsort. rewrite sortZ_length in Hsort.
    apply Forall2_length in Hall. destruct candidates, ys; done.
  - eexists. split; [done |]. simpl.
    apply sortZ_head_first in Hsort as (l1 & l2 & -> & Hl1 & Hl2).
    apply Forall2_app_inv_r in Hall as (before & tail & Hbefore & Htail & Hcand).
    apply Forall2_cons_inv_r in Htail as (b & after & Hb & Hafter & ->).
    destruct (Hf _ _ Hb) as [<- Hbest].
    split_and!; [done | done |].
    exists before, after. split_and!; [done | |].
    + intros p Hp.
      destruct (proj1 (list_elem_of_lookup before p) Hp) as [i Hi].
      destruct (Forall2_lookup_l _ _ _ _ _ Hbefore Hi) as (y & Hy & Hfy).
      destruct (Hf _ _ Hfy) as [_ Hscore].
      exists (points y). split; [done |].
      apply Hl1. by eapply list_elem_of_lookup_2.
    + intros p Hp.
      destruct (proj1 (list_elem_of_lookup after p) Hp) as [i Hi].
      destruct (Forall2_lookup_l _ _ _ _ _ Hafter Hi) as (y & Hy & Hfy).
      destruct (Hf _ _ Hfy) as [_ Hscore].
      exists (points y). split; [done |].
      apply Hl2. by eapply list_elem_of_lookup_2.
Qed.

(** ** SpotifyStaticService *)

Section staticService.
Import SpotifyStaticService.

Lemma staticService_moodKeywords_inherited key :
  key ∈ Object_prototype → moodKeywords !! key = None.
Proof.
  unfold Object_prototype. intros H.
  repeat (apply elem_of_cons in H as [->|H]; [by vm_compute |]).
  by apply elem_of_nil in H.
Qed.

Lemma findPopular_spec playlists :
  match findPopular playlists with
  | Ok (Some p) =>
      ∃ before after,
        playlists = (Some <$> before) ++ Some p :: after ∧
        (∀ p', p' ∈ before →
           SimpleSpotifyService.followersAbove p' 1000 = false) ∧
        SimpleSpotifyService.followersAbove p 1000 = true
  | Ok None =>
      ∃ all,
        playlists = Some <$> all ∧
        ∀ p', p' ∈ all → SimpleSpotifyService.followersAbove p' 1000 = false
  | Throw e =>
      ∃ before after,
        playlists = (Some <$> before) ++ None :: after ∧
        ∀ p', p' ∈ before →
          SimpleSpotifyService.followersAbove p' 1000 = false
  end.
Proof.
  induction playlists as [|[x|] playlists IH]; simpl.
  - exists []. split; [done |]. by intros ? ?%elem_of_nil.
  - destruct (SimpleSpotifyService.followersAbove x 1000) eqn:Hx.
    + exists [], playlists. split_and!; [done | | done].
      by intros ? ?%elem_of_nil.
    + destruct (findPopular playlists) as [[p|]|e].
      * destruct IH as (before & after & -> & Hbefore & Hp).
        exists (x :: before), after. split_and!; [done | | done].
        intros p' [->|Hp']%elem_of_cons; [done | by apply Hbefore].
      * destruct IH as (all & -> & Hall).
        exists (x :: all). split; [done |].
        intros p' [->|Hp']%elem_of_cons; [done | by apply Hall].
      * destruct IH as (before & after & -> & Hbefore).
        exists (x :: before), after. split; [done |].
        intros p' [->|Hp']%elem_of_cons; [done | by apply Hbefore].
  - exists [], playlists. split; [done |]. by intros ? ?%elem_of_nil.
Qed.

Lemma pickPlaylist_spec playlists :
  match pickPlaylist playlists with
  | Ok p =>
      ∃ before after,
        playlists = (Some <$> before) ++ Some p :: after ∧
        (∀ p', p' ∈ before →
           SimpleSpotifyService.followersAbove p' 1000 = false) ∧
        (SimpleSpotifyService.followersAbove p 1000 = true ∨
         (before = [] ∧
          ∃ rest, after = Some <$> rest ∧
            ∀ p', p' ∈ rest →
              SimpleSpotifyService.followersAbove p' 1000 = false))
  | Throw e =>
      playlists = [] ∨
      ∃ before after,
        playlists = (Some <$> before) ++ None :: after ∧
        ∀ p', p' ∈ before →
          SimpleSpotifyService.followersAbove p' 1000 = false
  end.
Proof.
  unfold pickPlaylist. pose proof (findPopular_spec playlists) as Hfind.
  destruct (findPopular playlists) as [[p|]|e].
  - destruct Hfind as (before & after & Heq & Hbefore & Hp).
    exists before, after. split_and!; [done | done | by left].
  - destruct Hfind as ([|p0 rest] & -> & Hall); simpl; [by left |].
    exists [], (Some <$> rest). split_and!; [done | |].
    + by intros ? ?%elem_of_nil.
    + right. split; [done |]. exists rest. split; [done |].
      intros p' Hp'. apply Hall. by right.
  - by right.
Qed.

End staticService.

(** X25: [getPlaylistForMood] of [SpotifyStaticService] never throws.
    Without a usable token (empty, or still the placeholder) it returns
    [null] and issues no request; so it does for a mood that is a name
    inherited from [Object.prototype], whose keywords are no array. For any
    other mood it issues exactly one request, for the keywords of the mood
    joined by [OR], and returns [null] when the request is rejected, the
    status is not a success, the answer has no playlist, or the answer has a
    [null] entry before any playlist with more than 1000 followers;
    otherwise it returns the first playlist with more than 1000 followers,
    and the first playlist of the answer when there is none. *)
Theorem staticService_getPlaylistForMood_spec
    (env : Env) (ACCESS_TOKEN mood : string) (log : list Request) :
  (SpotifyStaticService.getAccessToken ACCESS_TOKEN = None →
   SpotifyStaticService.getPlaylistForMood env ACCESS_TOKEN mood log
   = (Ok None, log)) ∧
  (SpotifyStaticService.getAccessToken ACCESS_TOKEN = Some ACCESS_TOKEN →
   match SpotifyStaticService.keywordsFor mood with
   | Inherited _ =>
       (mood ∈ Object_prototype) ∧
       SpotifyStaticService.getPlaylistForMood env ACCESS_TOKEN mood log
       = (Ok None, log)
   | Just keywords =>
       (mood ∉ Object_prototype) ∧
       keywords = default [toLowerCase mood]
                    (SpotifyStaticService.moodKeywords !! mood) ∧
       let req := {| q := SpotifyStaticService.joinOr keywords;
                     bearer := ACCESS_TOKEN |} in
       ∃ result,
         SpotifyStaticService.getPlaylistForMood env ACCESS_TOKEN mood log
         = (Ok result, log ++ [req]) ∧
         match network env log req with
         | None => result = None
         | Some response =>
             let playlists :=
               if ok response then default [] (body response) else [] in
             match result with
             | None =>
                 playlists = [] ∨
                 ∃ before after,
                   playlists = (Some <$> before) ++ None :: after ∧
                   ∀ p', p' ∈ before →
                     SimpleSpotifyService.followersAbove p' 1000 = false
             | Some p =>
                 ∃ before after,
                   playlists = (Some <$> before) ++ Some p :: after ∧
                   (∀ p', p' ∈ before →
                      SimpleSpotifyService.followersAbove p' 1000 = false) ∧
                   (SimpleSpotifyService.followersAbove p 1000 = true ∨
                    (before = [] ∧
                     ∃ rest, after = Some <$> rest ∧
                       ∀ p', p' ∈ rest →
                         SimpleSpotifyService.followersAbove p' 1000 = false))
             end
         end
   end).
Proof.
  split.
  - intros Htok.
    unfold SpotifyStaticService.getPlaylistForMood,
      SpotifyStaticService.searchPlaylistsByMood, try_catch, bind, throw.
    by rewrite Htok.
  - intros Htok.
    unfold SpotifyStaticService.getPlaylistForMood,
      SpotifyStaticService.searchPlaylistsByMood.
    rewrite Htok.
    destruct (SpotifyStaticService.keywordsFor mood) as [keywords|key] eqn:Hk.
    2: { apply orElse_Inherited in Hk as (_ & Hin & _). by split. }
    split.
    { intros Hin. unfold SpotifyStaticService.keywordsFor in Hk.
      by rewrite getProperty_inherited in Hk
        by (by try apply staticService_moodKeywords_inherited). }
    split.
    { by apply orElse_Just in Hk as [->|(-> & _ & ->)]. }
    set (req := {| q := SpotifyStaticService.joinOr keywords;
                   bearer := ACCESS_TOKEN |}).
    unfold try_catch, bind, fetch, throw, ret, lift. fold req.
    destruct (network env log req) as [response|]; [| by eexists].
    destruct (ok response); simpl negb; cbv iota;
      [| eexists; split; [done | by left]].
    destruct (default [] (body response)) as [|p0 rest] eqn:Hbody;
      [eexists; split; [done | by left] |].
    cbn -[SpotifyStaticService.pickPlaylist].
    pose proof (pickPlaylist_spec (p0 :: rest)) as Hpick.
    destruct (SpotifyStaticService.pickPlaylist (p0 :: rest)) as [p|e].
    + by exists (Some p).
    + by exists None.
Qed.

(** With the token [token] and the catalogue that answers every search
    with [Road trip] (100 followers) and [Happy Hits] (no follower
    information), one request is issued for [Happy] and none for
    [constructor]; without a token none is issued either. *)
Lemma staticService_getPlaylistForMood_spec_witness :
  SpotifyStaticService.getAccessToken "token" = Some "token" ∧
  SpotifyStaticService.getAccessToken "" = None ∧
  SpotifyStaticService.getPlaylistForMood catalogueWithNames "" "Happy" []
  = (Ok None, []) ∧
  SpotifyStaticService.getPlaylistForMood catalogueWithNames "token"
    "constructor" []
  = (Ok None, []) ∧
  ∃ result,
    SpotifyStaticService.getPlaylistForMood catalogueWithNames "token" "Happy" []
    = (Ok result,
       [{| q := "happy OR upbeat OR cheerful OR positive OR joyful";
           bearer := "token" |}]).
Proof.
  assert (H1 : SpotifyStaticService.getAccessToken "token" = Some "token")
    by reflexivity.
  assert (H2 : SpotifyStaticService.getAccessToken "" = None) by reflexivity.
  split_and!; [exact H1 | exact H2 | | |].
  - exact (proj1 (staticService_getPlaylistForMood_spec catalogueWithNames ""
                    "Happy" []) H2).
  - pose proof (proj2 (staticService_getPlaylistForMood_spec catalogueWithNames
                         "token" "constructor" []) H1) as Hspec.
    assert (Hk : SpotifyStaticService.keywordsFor "constructor"
                 = Inherited "constructor") by (by vm_compute).
    rewrite Hk in Hspec. exact (proj2 Hspec).
  - pose proof (proj2 (staticService_getPlaylistForMood_spec catalogueWithNames
                         "token" "Happy" []) H1) as Hspec.
    assert (Hk : SpotifyStaticService.keywordsFor "Happy"
                 = Just ["happy"; "upbeat"; "cheerful"; "positive"; "joyful"])
      by (by vm_compute).
    rewrite Hk in Hspec. destruct Hspec as (_ & _ & result & Hrun & _).
    exists result. exact Hrun.
Defined.

(** ** The mock of [SpotifyService] *)

Section mock.
Import MockSpotifyService.

Lemma MOOD_PLAYLISTS_alternatives mood primaryPlaylist :
  MOOD_PLAYLISTS !! mood = Some primaryPlaylist →
  truthy (Some primaryPlaylist) = true ∧
  ∃ a b c,
    ALTERNATIVE_PLAYLISTS !! mood = Some [a; b; c] ∧
    primaryPlaylist ∈ [a; b; c].
Proof.
  unfold MOOD_PLAYLISTS. intros H%elem_of_list_to_map_2.
  repeat (apply elem_of_cons in H as [H|H];
          [injection H as -> ->; split; [done |];
           eexists _, _, _; split; [by vm_compute |];
           by repeat constructor |]).
  by apply elem_of_nil in H.
Qed.

Lemma ALTERNATIVE_PLAYLISTS_inherited key :
  key ∈ Object_prototype → ALTERNATIVE_PLAYLISTS !! key = None.
Proof.
  unfold Object_prototype. intros H.
  repeat (apply elem_of_cons in H as [->|H]; [by vm_compute |]).
  by apply elem_of_nil in H.
Qed.

End mock.

(** X26: For a mood of its table, [getPlaylistForMood] of the mock service
    returns an identifier: one of the three alternatives of the mood, the
    primary playlist being one of them, and the primary playlist when the
    second random number is at least one fifth. For a mood that is a name
    inherited from [Object.prototype] it returns no identifier: it returns
    what the table inherits under that name when the second random number
    is at least one fifth, and [undefined] otherwise. For any other mood it
    returns the primary playlist of [Happy]. It never throws. *)
Theorem mock_getPlaylistForMood_spec
    (mood : string) (random1 random2 random3 : Q) :
  (0 <= random3)%Q → (random3 < 1)%Q →
  ∃ result,
    MockSpotifyService.getPlaylistForMood mood random1 random2 random3
    = Ok result ∧
    match MockSpotifyService.MOOD_PLAYLISTS !! mood with
    | Some primaryPlaylist =>
        ∃ id,
          result = Just (Some id) ∧
          (∃ alternatives,
             MockSpotifyService.ALTERNATIVE_PLAYLISTS !! mood
             = Some alternatives ∧
             primaryPlaylist ∈ alternatives ∧ id ∈ alternatives) ∧
          ((1 # 5 <= random2)%Q → id = primaryPlaylist)
    | None =>
        ((mood ∈ Object_prototype) →
         ((random2 < 1 # 5)%Q → result = Just None) ∧
         ((1 # 5 <= random2)%Q → result = Inherited mood)) ∧
        ((mood ∉ Object_prototype) →
         ∃ id, result = Just (Some id) ∧
               MockSpotifyService.MOOD_PLAYLISTS !! "Happy" = Some id)
    end.
Proof.
  intros H0 H1. unfold MockSpotifyService.getPlaylistForMood.
  destruct (MockSpotifyService.MOOD_PLAYLISTS !! mood)
    as [primaryPlaylist|] eqn:Hprimary.
  - destruct (MOOD_PLAYLISTS_alternatives _ _ Hprimary)
      as (Htruthy & a & b & c & Halt & Hin).
    cbv zeta. rewrite (getProperty_own _ _ _ Hprimary).
    rewrite (getProperty_own _ _ _ Halt).
    destruct primaryPlaylist as [|ch primaryPlaylist]; [done |].
    destruct (Qlt_le_dec random2 (1 # 5)) as [Hlt|Hge].
    + pose proof (floorTimes_range random3 3 H0 H1 eq_refl) as H3.
      change (Z.of_nat (length [a; b; c])) with 3%Z.
      destruct (floorTimes random3 3) as [|i|i] eqn:Hi; [| | lia].
      * eexists. split; [done |]. exists a. split; [done |]. split.
        -- exists [a; b; c]. split_and!; [done | done | by left].
        -- intros Hge. exfalso. eapply Qlt_not_le; eauto.
      * assert (Hcases : i = 1%positive ∨ i = 2%positive) by lia.
        destruct Hcases as [-> | ->].
        -- eexists. split; [done |]. exists b. split; [done |]. split.
           ++ exists [a; b; c].
              split_and!; [done | done | by repeat constructor].
           ++ intros Hge. exfalso. eapply Qlt_not_le; eauto.
        -- eexists. split; [done |]. exists c. split; [done |]. split.
           ++ exists [a; b; c].
              split_and!; [done | done | by repeat constructor].
           ++ intros Hge. exfalso. eapply Qlt_not_le; eauto.
    + eexists. split; [done |]. eexists. split; [done |]. split; [| done].
      by exists [a; b; c].
  - cbv zeta. destruct (decide (mood ∈ Object_prototype)) as [Hin|Hnot].
    + rewrite (getProperty_inherited _ _ Hprimary Hin).
      rewrite (getProperty_inherited _ _
                 (ALTERNATIVE_PLAYLISTS_inherited _ Hin) Hin).
      destruct (Qlt_le_dec random2 (1 # 5)) as [Hlt|Hge].
      * eexists. split; [done |]. split; [| done]. intros _. split; [done |].
        intros Hge. exfalso. eapply Qlt_not_le; eauto.
      * eexists. split; [done |]. split; [| done]. intros _. split; [| done].
        intros Hlt. exfalso. eapply Qlt_not_le; eauto.
    + rewrite (getProperty_undefined _ _ Hprimary Hnot).
      eexists. split; [done |]. split; [done |]. intros _.
      eexists. split; by vm_compute.
Qed.

(** The mood [Sad] with the random numbers one tenth and one half: the
    second alternative. *)
Lemma mock_getPlaylistForMood_spec_witness :
  MockSpotifyService.getPlaylistForMood "Sad" 0 (1 # 10) (1 # 2)
  = Ok (Just (Some "37i9dQZF1DX3YSRoSdA634")) ∧
  (0 <= 1 # 2)%Q ∧ (1 # 2 < 1)%Q.
Proof.
  assert (H0 : (0 <= 1 # 2)%Q) by done.
  assert (H1 : (1 # 2 < 1)%Q) by done.
  split_and!; [| done | done].
  destruct (mock_getPlaylistForMood_spec "Sad" 0 (1 # 10) (1 # 2) H0 H1)
    as (result & Hrun & _).
  pose proof Hrun as Hid. vm_compute in Hid.
  injection Hid as <-. exact Hrun.
Defined.
